(** * Match verification, line assembly and scoring of the zoekt search core

    A shallow embedding of [search.go] (package [zoekt]: the content
    provider, the line assembler, the scorer and the sorters) and of the
    candidate scanner and case verifier (package [codesearch]:
    [docIterator.next] and the methods [caseMatches], [matchContent] and
    [line] of [candidateMatch]), followed by the properties of the
    specification that these functions decide and by further properties
    that the code shows.

    Conventions.  A Go [uint32] is a [Z] in [0, 2^32) and every [uint32]
    operation writes its wrap-around out with [uint32]; a Go [int] is a [Z];
    a byte is a [Z] in [0, 256).  A slice is a [list]; a slice that may be
    [nil] is an [option (list _)].  A run-time panic (index out of range,
    slice bounds out of range) is the outcome [Panic]; a loop that is cut
    off by its fuel is the outcome [OutOfFuel]. *)

From Stdlib Require Import ZArith Lia Bool.
From stdpp Require Import base decidable option list numbers sorting.

Local Open Scope Z_scope.

(** ** Outcomes of a Go computation *)

Inductive outcome (A : Type) : Type :=
| Done (a : A)
| Panic
| OutOfFuel.
Arguments Done {A} a.
Arguments Panic {A}.
Arguments OutOfFuel {A}.

Definition obind {A B : Type} (m : outcome A) (k : A → outcome B) : outcome B :=
  match m with
  | Done a => k a
  | Panic => Panic
  | OutOfFuel => OutOfFuel
  end.

Notation "'do' x <- m ; k" := (obind m (fun x => k))
  (at level 10, x pattern, m at level 99, k at level 200).

(** ** The Go runtime and the packages [sort] and [bytes] *)

Module Go.

Definition uint32 (z : Z) : Z := z mod 2 ^ 32.

Definition is_uint32 (z : Z) : Prop := 0 ≤ z < 2 ^ 32.

Definition len {A : Type} (s : list A) : Z := Z.of_nat (length s).

(** [s[i]]: panics outside [0, len s). *)
Definition index {A : Type} (s : list A) (i : Z) : outcome A :=
  if decide (0 ≤ i) then
    match s !! Z.to_nat i with
    | Some x => Done x
    | None => Panic
    end
  else Panic.

(** [s[lo:hi]]: panics unless [0 <= lo <= hi <= len s] (the slices of this
    program have their capacity equal to their length). *)
Definition slice {A : Type} (s : list A) (lo hi : Z) : outcome (list A) :=
  if decide (0 ≤ lo ∧ lo ≤ hi ∧ hi ≤ len s) then
    Done (take (Z.to_nat (hi - lo)) (drop (Z.to_nat lo) s))
  else Panic.

(** [s[lo:]]. *)
Definition slice_from {A : Type} (s : list A) (lo : Z) : outcome (list A) :=
  slice s lo (len s).

(** [sort.Search]: the loop of the library, [h := int(uint(i+j) >> 1)],
    [if !f(h) { i = h + 1 } else { j = h }], run while [i < j].  The
    predicate may panic. *)
Fixpoint Search_loop (fuel : nat) (f : Z → outcome bool) (i j : Z) : outcome Z :=
  if decide (i < j) then
    match fuel with
    | O => OutOfFuel
    | S fuel' =>
        let h := Z.shiftr (i + j) 1 in
        do b <- f h;
        if negb b then Search_loop fuel' f (h + 1) j
        else Search_loop fuel' f i h
    end
  else Done i.

Definition Search (n : Z) (f : Z → outcome bool) : outcome Z :=
  Search_loop (Z.to_nat n) f 0 n.

(** [bytes.IndexByte]: the index of the first [c] in [s], or -1. *)
Fixpoint IndexByte_from (i : Z) (s : list Z) (c : Z) : Z :=
  match s with
  | [] => -1
  | b :: s' => if decide (b = c) then i else IndexByte_from (i + 1) s' c
  end.

Definition IndexByte (s : list Z) (c : Z) : Z := IndexByte_from 0 s c.

(** [sort.Interface]: [Less] and [Swap] index the data and may panic. *)
Class Interface (S : Type) : Type := {
  Len : S → Z;
  Less : S → Z → Z → outcome bool;
  Swap : S → Z → Z → outcome S
}.

(** [m[i], m[j] = m[j], m[i]] on a slice. *)
Definition swap_elems {A : Type} (m : list A) (i j : Z) : outcome (list A) :=
  do a <- index m i;
  do b <- index m j;
  Done (<[Z.to_nat j := a]> (<[Z.to_nat i := b]> m)).

(** The interface of a slice ordered by [less] on its elements: the shape
    of every implementation of [sort.Interface] in this program. *)
Definition slice_Interface {A : Type} (less : A → A → bool) : Interface (list A) :=
  {| Len := len;
     Less := fun m i j => do a <- index m i; do b <- index m j; Done (less a b);
     Swap := swap_elems |}.

(** [less] is a strict weak ordering of the elements in [dom], which
    [sort.Interface] asks of [Less] on the data to sort. *)
Record StrictWeakOrder {A : Type} (dom : A → Prop) (less : A → A → bool) : Prop := {
  less_asym : ∀ x y, dom x → dom y → less x y = true → less y x = false;
  less_negtrans : ∀ x y z, dom x → dom y → dom z →
    less x y = false → less y z = false → less x z = false
}.

(** No element is less than an earlier one. *)
Definition sorted_by {A : Type} (less : A → A → bool) (m : list A) : Prop :=
  ∀ (i j : nat) (x y : A), (i < j)%nat → m !! i = Some x → m !! j = Some y → less y x = false.

(** What package [sort] documents of [Sort]: when [Less] orders the
    elements of the data, the data end up in ascending order as determined
    by [Less], rearranged by [Swap] only; the sort is not guaranteed to be
    stable.  Nothing is promised for data that [Less] does not order, as a
    floating-point comparison does not order data that hold a NaN. *)
Definition Sort_contract (Sort : ∀ S : Type, Interface S → S → outcome S) : Prop :=
  ∀ (A : Type) (less : A → A → bool) (m : list A),
    StrictWeakOrder (fun x => x ∈ m) less →
    ∃ m' : list A,
      Sort (list A) (slice_Interface less) m = Done m' ∧ m' ≡ₚ m ∧ sorted_by less m'.

Section Sorters.

Context {T : Type} {data : Interface T}.

(** The inner loop of [insertionSort], with [j = a + k]:
    [for j := i; j > a && data.Less(j, j-1); j-- { data.Swap(j, j-1) }] *)
Fixpoint insertionSort_inner (k : nat) (d : T) (a : Z) : outcome T :=
  match k with
  | O => Done d
  | S k' =>
      let j := a + Z.of_nat k in
      do lt <- Less d j (j - 1);
      if lt : bool then
        do d' <- Swap d j (j - 1);
        insertionSort_inner k' d' a
      else Done d
  end.

(** [for i := a + 1; i < b; i++ { ... }], with [n] turns left. *)
Fixpoint insertionSort_outer (n : nat) (d : T) (a i : Z) : outcome T :=
  match n with
  | O => Done d
  | S n' =>
      do d' <- insertionSort_inner (Z.to_nat (i - a)) d a;
      insertionSort_outer n' d' a (i + 1)
  end.

Definition insertionSort (d : T) (a b : Z) : outcome T :=
  insertionSort_outer (Z.to_nat (b - (a + 1))) d a (a + 1).

(** [for i := a + 6; i < b; i++ { if data.Less(i, i-6) { data.Swap(i, i-6) } }] *)
Fixpoint gap6_pass (n : nat) (d : T) (i : Z) : outcome T :=
  match n with
  | O => Done d
  | S n' =>
      do lt <- Less d i (i - 6);
      do d' <- (if lt : bool then Swap d i (i - 6) else Done d);
      gap6_pass n' d' (i + 1)
  end.

(** The tail of the library's [quickSort], which is all that [sort.Sort]
    runs on a slice of at most twelve elements (Go 1.7 to 1.18): one
    shell-sort pass with gap 6, then insertion sort.  It is run here on
    slices of any length. *)
Definition Sort_small (d : T) : outcome T :=
  let a := 0 in
  let b := Len d in
  if decide (b - a > 1) then
    do d' <- gap6_pass (Z.to_nat (b - (a + 6))) d (a + 6);
    insertionSort d' a b
  else Done d.

End Sorters.

(** [a] may stand before [b]. *)
Definition may_precede {A : Type} (less : A → A → bool) (a b : A) : Prop :=
  less b a = false.

End Go.

Import Go.

(** ** Package [codesearch]: the candidate scanner and the case verifier *)

Module codesearch.

(** Modelled from the spec: the constant [NGRAM], declared outside the
    given files; the spec fixes the trigram length to 3. *)
Definition NGRAM : Z := 3.

Record SubstringQuery : Type := {
  Pattern : list Z;
  CaseSensitive : bool
}.

Record docIterator : Type := {
  it_query : SubstringQuery;
  patLen : Z;
  first : list Z;
  last : list Z;
  fileIdx : Z;
  ends : list Z
}.

Record candidateMatch : Type := {
  query : SubstringQuery;
  substrBytes : list Z;
  lowered : list Z;
  caseMask : option (list (list Z));
  caseBits : option (list (list Z));
  file : Z;
  offset : Z
}.

Definition set_fileIdx (i : Z) (s : docIterator) : docIterator :=
  {| it_query := it_query s; patLen := patLen s; first := first s;
     last := last s; fileIdx := i; ends := ends s |}.

Definition set_first (l : list Z) (s : docIterator) : docIterator :=
  {| it_query := it_query s; patLen := patLen s; first := l;
     last := last s; fileIdx := fileIdx s; ends := ends s |}.

Definition set_last (l : list Z) (s : docIterator) : docIterator :=
  {| it_query := it_query s; patLen := patLen s; first := first s;
     last := l; fileIdx := fileIdx s; ends := ends s |}.

(** [for s.fileIdx < len(s.ends) && s.ends[s.fileIdx] <= p1 { s.fileIdx++ }] *)
Fixpoint skip_documents (fuel : nat) (ends : list Z) (fileIdx p1 : Z) : outcome Z :=
  if decide (fileIdx < len ends) then
    do e <- index ends fileIdx;
    if decide (e ≤ p1) then
      match fuel with
      | O => OutOfFuel
      | S fuel' => skip_documents fuel' ends (fileIdx + 1) p1
      end
    else Done fileIdx
  else Done fileIdx.

(** The body of [docIterator.next]: one turn of the [for] loop per unit of
    fuel.  [patBytes], [lowerPatBytes] and [distance] are the locals computed
    before the loop. *)
Fixpoint next_loop (fuel : nat) (patBytes lowerPatBytes : list Z) (distance : Z)
    (s : docIterator) (candidates : list candidateMatch)
    : outcome (list candidateMatch * docIterator) :=
  match first s, last s with
  | [], _ | _, [] => Done (candidates, s)
  | p1 :: first', p2 :: last' =>
      match fuel with
      | O => OutOfFuel
      | S fuel' =>
          do i <- skip_documents (length (ends s)) (ends s) (fileIdx s) p1;
          let s := set_fileIdx i s in
          if decide (uint32 (p1 + distance) < p2) then
            next_loop fuel' patBytes lowerPatBytes distance (set_first first' s) candidates
          else if decide (uint32 (p1 + distance) > p2) then
            next_loop fuel' patBytes lowerPatBytes distance (set_last last' s) candidates
          else
            let s := set_last last' (set_first first' s) in
            do e <- index (ends s) (fileIdx s);
            if decide (uint32 (p1 + uint32 (patLen s)) >= e) then
              next_loop fuel' patBytes lowerPatBytes distance s candidates
            else
              do fileStart <-
                (if decide (fileIdx s > 0) then
                   do e' <- index (ends s) (fileIdx s - 1);
                   Done (uint32 (0 + e'))
                 else Done 0);
              next_loop fuel' patBytes lowerPatBytes distance s
                (candidates ++
                 [ {| query := it_query s;
                      substrBytes := patBytes;
                      lowered := lowerPatBytes;
                      caseMask := None;
                      caseBits := None;
                      file := uint32 (fileIdx s);
                      offset := uint32 (p1 - fileStart) |} ])
      end
  end.

Section Collaborators.

(** The byte utility [toLower] is an external collaborator. *)
Variable toLower : list Z → list Z.

Definition next (s : docIterator) : outcome (list candidateMatch * docIterator) :=
  let patBytes := Pattern (it_query s) in
  let lowerPatBytes := toLower patBytes in
  let distance := uint32 (patLen s - NGRAM) in
  next_loop (S (length (first s) + length (last s)))
    patBytes lowerPatBytes distance s [].

End Collaborators.

(** *** The case pattern *)

(** The byte whose bit [j] (least significant first) is [g j], for [j < 8]. *)
Definition byte_of_bits (g : Z → bool) : Z :=
  Z.b2z (g 0) + 2 * (Z.b2z (g 1) + 2 * (Z.b2z (g 2) + 2 * (Z.b2z (g 3)
  + 2 * (Z.b2z (g 4) + 2 * (Z.b2z (g 5) + 2 * (Z.b2z (g 6) + 2 * Z.b2z (g 7))))))).

(** [nbytes] bytes packing the bits [f 0], [f 1], ..., eight to a byte. *)
Definition pack_bits (f : Z → bool) (nbytes : nat) : list Z :=
  map (fun k => byte_of_bits (fun j => f (8 * Z.of_nat k + j))) (seq 0 nbytes).

(** Bit [n] of a packed bitmap: bit [n mod 8] of byte [n / 8]; false past
    the end of the bitmap. *)
Definition bitmap_bit (bitmap : list Z) (n : Z) : bool :=
  match bitmap !! Z.to_nat (n / 8) with
  | Some b => Z.testbit b (n mod 8)
  | None => false
  end.

(** A byte stands for an upper-case letter: its case bit is set. *)
Definition isUpper (c : Z) : bool := (65 <=? c) && (c <=? 90).

(** Case bit of the pattern byte at position [k]. *)
Definition pattern_case (pattern : list Z) (k : Z) : bool :=
  match pattern !! Z.to_nat k with
  | Some c => isUpper c
  | None => false
  end.

(** Modelled from the spec: [findCaseMasks], declared outside the given
    files.  For each of the eight alignments [i] of the pattern start within
    a byte it gives a byte-aligned mask whose set bits are exactly the
    positions [i, i + patLen) of the pattern, and a template holding the
    pattern's case bits (set = upper case) at these positions, one bit per
    pattern byte, both covering the range extended to whole bytes. *)
Definition findCaseMasks (pattern : list Z) : list (list Z) * list (list Z) :=
  let patLen := len pattern in
  let nbytes (i : Z) := Z.to_nat ((i + patLen + 7) / 8) in
  let aligned (i : Z) (f : Z → bool) :=
    pack_bits (fun n => (i <=? n) && (n <? i + patLen) && f (n - i)) (nbytes i) in
  (map (fun i => aligned i (fun _ => true)) [0; 1; 2; 3; 4; 5; 6; 7],
   map (fun i => aligned i (pattern_case pattern)) [0; 1; 2; 3; 4; 5; 6; 7]).

Definition set_caseMasks (mb : list (list Z) * list (list Z)) (m : candidateMatch)
    : candidateMatch :=
  {| query := query m; substrBytes := substrBytes m; lowered := lowered m;
     caseMask := Some (fst mb); caseBits := Some (snd mb);
     file := file m; offset := offset m |}.

Definition populateCaseBits (m : candidateMatch) : candidateMatch :=
  if negb (CaseSensitive (query m)) || bool_decide (caseMask m ≠ None) then m
  else set_caseMasks (findCaseMasks (substrBytes m)) m.

(** [for i := range fileBits { if fileBits[i]&mask[i] != bits[i] { return false } }] *)
Fixpoint compare_bits (i : Z) (fileBits mask bits : list Z) : outcome bool :=
  match fileBits with
  | [] => Done true
  | b :: rest =>
      do mk <- index mask i;
      do bt <- index bits i;
      if decide (Z.land b mk ≠ bt) then Done false
      else compare_bits (i + 1) rest mask bits
  end.

(** [candidateMatch.caseMatches]; the receiver is updated by
    [populateCaseBits], so it is returned with the answer. *)
Definition caseMatches (m : candidateMatch) (fileCaseBits : list Z)
    : outcome (bool * candidateMatch) :=
  if negb (CaseSensitive (query m)) then Done (true, m)
  else
    let m := populateCaseBits m in
    let patLen := len (substrBytes m) in
    let startExtend := offset m mod 8 in
    let patEnd := uint32 (offset m + uint32 patLen) in
    let endExtend := uint32 (8 - patEnd mod 8) mod 8 in
    let start := uint32 (offset m - startExtend) in
    let end_ := uint32 (uint32 (offset m + uint32 patLen) + endExtend) in
    do fileBits <- slice fileCaseBits (start / 8) (end_ / 8);
    do mask <- index (default [] (caseMask m)) startExtend;
    do bits <- index (default [] (caseBits m)) startExtend;
    do ok <- compare_bits 0 fileBits mask bits;
    Done (ok, m).

(** [candidateMatch.matchContent]:
    [bytes.Compare(content[m.offset:m.offset+uint32(len(m.lowered))], m.lowered) == 0],
    the comparison of two byte slices for equality. *)
Definition matchContent (m : candidateMatch) (content : list Z) : outcome bool :=
  do s <- slice content (offset m) (uint32 (offset m + uint32 (len (lowered m))));
  Done (bool_decide (s = lowered m)).

Section LineContent.

(** This package's [toOriginal content caseBits start end] is an external
    collaborator. *)
Variable toOriginal : list Z → list Z → Z → Z → outcome (list Z).

(** [candidateMatch.line]: the line number, the offset of the candidate in
    its line and the content of the line. *)
Definition line (m : candidateMatch) (newlines : list Z) (content caseBits : list Z)
    : outcome (Z * Z * list Z) :=
  do idx <- Search (len newlines)
              (fun n => do nl <- index newlines n; Done (bool_decide (nl >= offset m)));
  do end_ <- (if decide (idx < len newlines) then index newlines idx
              else Done (len content));
  do start <-
    (if decide (idx > 0) then do nl <- index newlines (idx - 1); Done (uint32 (nl + 1))
     else Done 0);
  do lineContent <- toOriginal content caseBits start end_;
  Done (idx + 1, offset m - start, lineContent).

End LineContent.

(** *** Vocabulary of the properties *)

(** The bytes [pat] stand in [content] at offset [off]. *)
Definition occurs_at (content : list Z) (off : Z) (pat : list Z) : Prop :=
  ∃ pre post : list Z, content = pre ++ pat ++ post ∧ len pre = off.

(** What [docIterator.next] puts in every candidate besides its place. *)
Definition carries_pattern (toLower : list Z → list Z) (s : docIterator)
    (c : candidateMatch) : Prop :=
  query c = it_query s ∧ substrBytes c = Pattern (it_query s)
  ∧ lowered c = toLower (Pattern (it_query s))
  ∧ caseMask c = None ∧ caseBits c = None.

(** A position list or a document-end sequence is ascending. *)
Definition ascending (l : list Z) : Prop :=
  ∀ (i j : nat) (x y : Z), (i < j)%nat → l !! i = Some x → l !! j = Some y → x ≤ y.

(** Start offset of document [j] in the shard: the end of the previous
    document, or 0. *)
Definition doc_start (ends : list Z) (j : Z) : Z :=
  if decide (j > 0) then default 0 (ends !! Z.to_nat (j - 1)) else 0.

(** Document [j], ending at [e], is the current document of position [p]
    for a cursor that stood at [i]: it is the first document from [i] on
    that ends after [p]. *)
Definition current_doc (ends : list Z) (i p j e : Z) : Prop :=
  i ≤ j ∧ ends !! Z.to_nat j = Some e ∧ p < e
  ∧ ∀ (k e' : Z), i ≤ k < j → ends !! Z.to_nat k = Some e' → e' ≤ p.

(** The candidate [c] is the one that the scanner emits for position [p]
    of the first list: it lies in the current document [j] of [p], at the
    offset of [p] from the document start, and the end of the pattern,
    [p + patLen] computed in 32 bits as the source does, is below the end of
    the document. *)
Definition emitted_from (ends : list Z) (patLen p : Z) (c : candidateMatch) : Prop :=
  ∃ (j e : Z),
    current_doc ends 0 p j e
    ∧ uint32 (p + uint32 patLen) < e
    ∧ file c = uint32 j
    ∧ offset c = uint32 (p - doc_start ends j).

(** The cursor invariant: every document the cursor has passed ends at or
    before every position still in the first list. *)
Definition cursor_ok (s : docIterator) : Prop :=
  0 ≤ fileIdx s
  ∧ ∀ (k e p : Z), 0 ≤ k < fileIdx s → ends s !! Z.to_nat k = Some e →
      p ∈ first s → e ≤ p.

(** Every position of the first list lies in some document of the shard. *)
Definition positions_in_shard (s : docIterator) : Prop :=
  ∃ e, list.last (ends s) = Some e ∧ ∀ p, p ∈ first s → p < e.

(** Length of document [j] whose exclusive end is [e]. *)
Definition doc_length (ends : list Z) (j e : Z) : Z := e - doc_start ends j.

(** The template of alignment [se] for a pattern: [f] gives the bit at
    each position of the pattern. *)
Definition aligned (pattern : list Z) (se : Z) (f : Z → bool) : list Z :=
  pack_bits (fun n => (se <=? n) && (n <? se + len pattern) && f (n - se))
    (Z.to_nat ((se + len pattern + 7) / 8)).

(** The bounds of the byte-aligned slice that [caseMatches] extracts. *)
Definition slice_lo (m : candidateMatch) : Z :=
  uint32 (offset m - offset m mod 8) / 8.

Definition slice_hi (m : candidateMatch) : Z :=
  let patEnd := uint32 (offset m + uint32 (len (substrBytes m))) in
  let endExtend := uint32 (8 - patEnd mod 8) mod 8 in
  uint32 (uint32 (offset m + uint32 (len (substrBytes m))) + endExtend) / 8.

(** The masks of the candidate are those of its pattern: none is cached
    yet, or the cached ones are what [findCaseMasks] gives. *)
Definition masks_derived (m : candidateMatch) : Prop :=
  caseMask m = None
  ∨ (caseMask m = Some (fst (findCaseMasks (substrBytes m)))
     ∧ caseBits m = Some (snd (findCaseMasks (substrBytes m)))).

(** The case bitmap holds the case of the pattern at the offset of the
    candidate: bit [offset + k] is set exactly when byte [k] of the pattern
    is an upper-case letter. *)
Definition encodes_case (bm : list Z) (m : candidateMatch) : Prop :=
  ∀ k, 0 ≤ k < len (substrBytes m) →
       bitmap_bit bm (offset m + k) = pattern_case (substrBytes m) k.

End codesearch.

(** ** Package [zoekt]: content provider, line assembler, scorer, sorters *)

Module zoekt.

(** *** Data model *)

(** A Go [error]: [None] is [nil]. *)
Definition error : Type := option nat.

(** The declarations of [DocumentSection], [MatchFragment], [Match],
    [FileMatch], [Stats], [indexData] and of this package's [candidateMatch]
    lie outside the given files; the records below carry the fields that
    [search.go] reads and writes, with the Go types it uses them at. *)
Record DocumentSection : Type := {
  Start : Z;
  End : Z
}.

Record MatchFragment : Type := {
  LineOff : Z;
  MatchLength : Z;
  Offset : Z
}.

(** A [float64] score.  A [float64] that is not NaN is compared as the
    number it holds, and a [Z] stands for that number: the scores that this
    package computes are sums of the whole-number constants below, far under
    2^53, which [float64] holds and adds exactly.  The other values that are
    not NaN (fractions, the two infinities) are ordered by [>] in one line
    with the whole numbers and are left out.  NaN is the value with which
    every comparison is false. *)
Inductive float64 : Type :=
| Num (z : Z)
| NaN.

Coercion Num : Z >-> float64.

#[export] Instance float64_eq_dec : EqDecision float64.
Proof. solve_decision. Defined.

(** [a > b] on [float64]. *)
Definition float64_gt (a b : float64) : bool :=
  match a, b with
  | Num x, Num y => bool_decide (x > y)
  | _, _ => false
  end.

(** [Score] is a [float64] in the source; [matchScore] computes it as a
    whole number, which [fillMatches] stores. *)
Record Match : Type := {
  Line : list Z;
  LineStart : Z;
  LineEnd : Z;
  LineNum : Z;
  FileName : bool;
  Fragments : list MatchFragment;
  Score : float64
}.

Record FileMatch : Type := {
  FileScore : float64;
  Name : list Z;
  Matches : list Match
}.

Record Stats : Type := {
  FilesLoaded : Z;
  BytesLoaded : Z
}.

Record candidateMatch : Type := {
  fileName : bool;
  offset : Z;
  matchSz : Z
}.

(** The index reader: the tables that [search.go] slices directly and the
    decoding functions it calls, each returning a possibly-nil slice and an
    error. *)
Record indexData : Type := {
  fileEnds : list Z;
  fileNameContent : list Z;
  fileNameIndex : list Z;
  fileNameCaseBits : list Z;
  fileNameCaseBitsIndex : list Z;
  readDocSections : Z → option (list DocumentSection) * error;
  readNewlines : Z → option (list Z) → option (list Z) * error;
  readContents : Z → option (list Z) * error;
  readCaseBits : Z → option (list Z) * error;
  id_fileName : Z → list Z
}.

Record contentProvider : Type := {
  id : indexData;
  stats : Stats;
  err : error;
  idx : Z;
  _cb : option (list Z);
  _data : option (list Z);
  _nl : option (list Z);
  _nlBuf : option (list Z);
  _sects : option (list DocumentSection);
  fileSize : Z
}.

(** A method of [*contentProvider]: it may panic or run out of fuel, and
    otherwise returns a value and the updated provider. *)
Definition M (A : Type) : Type := contentProvider → outcome (A * contentProvider).

Definition ret {A : Type} (a : A) : M A := fun p => Done (a, p).

Definition bind {A B : Type} (m : M A) (k : A → M B) : M B :=
  fun p => do ap <- m p; k (fst ap) (snd ap).

Definition lift {A : Type} (o : outcome A) : M A :=
  fun p => do a <- o; Done (a, p).

Definition get : M contentProvider := fun p => Done (p, p).

Notation "'run' x <- m ; k" := (bind m (fun x => k))
  (at level 10, x pattern, m at level 99, k at level 200).

(** A nil slice read as the empty slice. *)
Definition elems {A : Type} (s : option (list A)) : list A := default [] s.

(** *** The content provider *)

Definition setDocument (docID : Z) : M unit := fun p =>
  do fileStart <-
    (if decide (docID > 0) then index (fileEnds (id p)) (uint32 (docID - 1))
     else Done 0);
  do fileEnd <- index (fileEnds (id p)) docID;
  Done (tt,
        {| id := id p; stats := stats p; err := err p;
           idx := docID;
           fileSize := uint32 (fileEnd - fileStart);
           _nl := None; _sects := None; _data := None; _cb := None;
           _nlBuf := _nlBuf p |}).

Definition docSections : M (option (list DocumentSection)) := fun p =>
  match _sects p with
  | None =>
      let r := readDocSections (id p) (idx p) in
      Done (fst r,
            {| id := id p; stats := stats p; err := snd r; idx := idx p;
               _cb := _cb p; _data := _data p; _nl := _nl p; _nlBuf := _nlBuf p;
               _sects := fst r; fileSize := fileSize p |})
  | Some _ => Done (_sects p, p)
  end.

Definition newlines : M (option (list Z)) := fun p =>
  match _nl p with
  | None =>
      let r := readNewlines (id p) (idx p) (_nlBuf p) in
      Done (fst r,
            {| id := id p; stats := stats p; err := snd r; idx := idx p;
               _cb := _cb p; _data := _data p; _nl := fst r; _nlBuf := fst r;
               _sects := _sects p; fileSize := fileSize p |})
  | Some _ => Done (_nl p, p)
  end.

Definition data (fileName : bool) : M (option (list Z)) := fun p =>
  if fileName then
    do lo <- index (fileNameIndex (id p)) (idx p);
    do hi <- index (fileNameIndex (id p)) (uint32 (idx p + 1));
    do s <- slice (fileNameContent (id p)) lo hi;
    Done (Some s, p)
  else
    match _data p with
    | None =>
        let r := readContents (id p) (idx p) in
        Done (fst r,
              {| id := id p;
                 stats := {| FilesLoaded := FilesLoaded (stats p) + 1;
                             BytesLoaded := BytesLoaded (stats p) + len (elems (fst r)) |};
                 err := snd r; idx := idx p;
                 _cb := _cb p; _data := fst r; _nl := _nl p; _nlBuf := _nlBuf p;
                 _sects := _sects p; fileSize := fileSize p |})
    | Some _ => Done (_data p, p)
    end.

Definition caseBits (fileName : bool) : M (option (list Z)) := fun p =>
  if fileName then
    do lo <- index (fileNameCaseBitsIndex (id p)) (idx p);
    do hi <- index (fileNameCaseBitsIndex (id p)) (uint32 (idx p + 1));
    do s <- slice (fileNameCaseBits (id p)) lo hi;
    Done (Some s, p)
  else
    match _cb p with
    | None =>
        let r := readCaseBits (id p) (idx p) in
        Done (fst r,
              {| id := id p; stats := stats p; err := snd r; idx := idx p;
                 _cb := fst r; _data := _data p; _nl := _nl p; _nlBuf := _nlBuf p;
                 _sects := _sects p; fileSize := fileSize p |})
    | Some _ => Done (_cb p, p)
    end.

Section Verifier.

(** The methods [caseMatches] and [matchContent] of this package's
    [candidateMatch] are declared outside the given files: they take the
    bytes the provider hands them, and having a pointer receiver they may
    update the candidate. *)
Variable candidate_caseMatches :
  candidateMatch → option (list Z) → outcome (bool * candidateMatch).
Variable candidate_matchContent :
  candidateMatch → option (list Z) → outcome (bool * candidateMatch).

Definition caseMatches (m : candidateMatch) : M (bool * candidateMatch) :=
  run cb <- caseBits (fileName m);
  lift (candidate_caseMatches m cb).

Definition matchContent (m : candidateMatch) : M (bool * candidateMatch) :=
  run d <- data (fileName m);
  lift (candidate_matchContent m d).

End Verifier.

(** *** The line assembler *)

(** Modelled from the spec: [candidateMatch.line(newlines, fileSize)], the
    method of this package that [fillContentMatches] calls, declared outside
    the given files.  It binary-searches [newlines] for the first terminator
    at or after the match offset; the line starts after the previous
    terminator (or at 0) and ends at that terminator (or at the content
    length), and lines are numbered from 1.  Its shape is that of
    [codesearch]'s [candidateMatch.line]. *)
Definition line (m : candidateMatch) (newlines : list Z) (fileSize : Z)
    : outcome (Z * Z * Z) :=
  do i <- Search (len newlines)
            (fun n => do nl <- index newlines n; Done (bool_decide (nl >= offset m)));
  do end_ <- (if decide (i < len newlines) then index newlines i else Done fileSize);
  do start <-
    (if decide (i > 0) then do nl <- index newlines (i - 1); Done (uint32 (nl + 1))
     else Done 0);
  Done (i + 1, start, end_).

(** The inner loop of [fillContentMatches]: the candidates that start
    before the line end join the line; [endMatch] follows the last one. *)
Fixpoint take_line (ms : list candidateMatch) (end_ : Z) (endMatch : Z)
    (lineCands : list candidateMatch)
    : list candidateMatch * Z * list candidateMatch :=
  match ms with
  | [] => (lineCands, endMatch, ms)
  | m :: ms' =>
      if decide (offset m < end_) then
        take_line ms' end_ (uint32 (offset m + matchSz m)) (lineCands ++ [m])
      else (lineCands, endMatch, ms)
  end.

(** [for end < len(data) && endMatch > uint32(end) {
       end = bytes.IndexByte(data[end+1:], '\n')
       if end == -1 { end = len(data) } }] *)
Fixpoint extend_line (fuel : nat) (data : list Z) (endMatch : Z) (end_ : Z)
    : outcome Z :=
  if decide (end_ < len data ∧ endMatch > uint32 end_) then
    match fuel with
    | O => OutOfFuel
    | S fuel' =>
        do rest <- slice_from data (end_ + 1);
        let e := IndexByte rest 10 in
        let e := if decide (e = -1) then len data else e in
        extend_line fuel' data endMatch e
    end
  else Done end_.

(** [make([]byte, n)] *)
Definition make_bytes (n : Z) : outcome (list Z) :=
  if decide (0 ≤ n) then Done (replicate (Z.to_nat n) 0) else Panic.

Definition fragment_of (start : Z) (m : candidateMatch) : MatchFragment :=
  {| Offset := offset m;
     LineOff := offset m - start;
     MatchLength := matchSz m |}.

Section Collaborators.

(** The byte utilities are external collaborators: [toOriginal out content
    caseBits start end] restores the original case of [content[start:end]],
    and [byteClass] classifies a byte for boundary detection. *)
Variable toOriginal : list Z → list Z → list Z → Z → Z → outcome (list Z).
Variable byteClass : Z → Z.

(** The outer loop of [fillContentMatches], one line per unit of fuel; the
    same fuel bounds the cross-line loop. *)
Fixpoint fillContentMatches_loop (fuel : nat) (ms : list candidateMatch)
    (result : list Match) : M (list Match) :=
  match ms with
  | [] => ret result
  | m :: _ =>
      match fuel with
      | O => fun _ => OutOfFuel
      | S fuel' =>
          run nl <- newlines;
          run p <- get;
          run nse <- lift (line m (elems nl) (fileSize p));
          let '(num, start, end_) := nse in
          let '(lineCands, endMatch, ms') :=
            take_line ms end_ (uint32 (offset m + matchSz m)) [] in
          run data0 <- data false;
          run end_ <- lift (extend_line fuel (elems data0) endMatch end_);
          run out <- lift (make_bytes (end_ - start + 8));
          run data1 <- data false;
          run cb <- caseBits false;
          run ln <- lift (toOriginal out (elems data1) (elems cb) start end_);
          let finalMatch :=
            {| LineStart := start; LineEnd := end_; LineNum := num;
               Line := ln; FileName := false;
               Fragments := map (fragment_of start) lineCands;
               Score := 0 |} in
          fillContentMatches_loop fuel' ms' (result ++ [finalMatch])
      end
  end.

Definition fillContentMatches (fuel : nat) (ms : list candidateMatch) : M (list Match) :=
  fillContentMatches_loop fuel ms [].

(** *** The scorer *)

Definition scorePartialWordMatch : Z := 50.
Definition scoreWordMatch : Z := 500.
Definition scoreImportantThreshold : Z := 2000.
Definition scorePartialSymbol : Z := 4000.
Definition scoreSymbol : Z := 7000.
Definition scoreFactorAtomMatch : Z := 400.

(** [findSection] returns a pointer into [secs] or [nil]. *)
Definition findSection (secs : list DocumentSection) (off sz : Z)
    : outcome (option DocumentSection) :=
  do j <- Search (len secs)
            (fun i => do s <- index secs i; Done (bool_decide (End s >= uint32 (off + sz))));
  if decide (j = len secs) then Done None
  else
    do s <- index secs j;
    if decide (Start s ≤ off ∧ uint32 (off + sz) ≤ End s) then Done (Some s)
    else Done None.

(** [startBoundary] of a fragment in a line, with Go's short-circuit
    evaluation. *)
Definition startBoundary (ln : list Z) (f : MatchFragment) : outcome bool :=
  if decide (LineOff f < len ln) then
    if decide (LineOff f = 0) then Done true
    else
      do a <- index ln (LineOff f - 1);
      do b <- index ln (LineOff f);
      Done (bool_decide (byteClass a ≠ byteClass b))
  else Done false.

Definition endBoundary (ln : list Z) (f : MatchFragment) : outcome bool :=
  let end_ := LineOff f + MatchLength f in
  if decide (end_ > 0) then
    if decide (end_ = len ln) then Done true
    else
      do a <- index ln (end_ - 1);
      do b <- index ln end_;
      Done (bool_decide (byteClass a ≠ byteClass b))
  else Done false.

(** The word part of a fragment's score. *)
Definition wordScore (startB endB : bool) : Z :=
  if startB && endB then scoreWordMatch
  else if startB || endB then scorePartialWordMatch
  else 0.

(** The symbol part: what the body adds for the section [findSection]
    returned. *)
Definition symbolScore (sec : option DocumentSection) (f : MatchFragment) : Z :=
  match sec with
  | Some sec =>
      let startMatch := bool_decide (Start sec = Offset f) in
      let endMatch := bool_decide (End sec = uint32 (Offset f + uint32 (MatchLength f))) in
      if startMatch && endMatch then scoreSymbol
      else if startMatch || endMatch then (scoreSymbol + scorePartialSymbol) / 2
      else scorePartialSymbol
  | None => 0
  end.

(** The value of [score] at the end of one turn of the loop of
    [matchScore]. *)
Definition fragmentScore (secs : list DocumentSection) (ln : list Z)
    (f : MatchFragment) : outcome Z :=
  do sb <- startBoundary ln f;
  do eb <- endBoundary ln f;
  do sec <- findSection secs (Offset f) (uint32 (MatchLength f));
  Done (wordScore sb eb + symbolScore sec f).

Fixpoint matchScore_loop (secs : list DocumentSection) (ln : list Z)
    (fs : list MatchFragment) (maxScore : Z) : outcome Z :=
  match fs with
  | [] => Done maxScore
  | f :: fs' =>
      do score <- fragmentScore secs ln f;
      matchScore_loop secs ln fs' (if decide (score > maxScore) then score else maxScore)
  end.

Definition matchScore (secs : list DocumentSection) (m : Match) : outcome Z :=
  matchScore_loop secs (Line m) (Fragments m) 0.

(** *** [fillMatches] *)

Definition set_Score (sc : Z) (m : Match) : Match :=
  {| Line := Line m; LineStart := LineStart m; LineEnd := LineEnd m;
     LineNum := LineNum m; FileName := FileName m; Fragments := Fragments m;
     Score := sc |}.

Definition add_Fragment (f : MatchFragment) (m : Match) : Match :=
  {| Line := Line m; LineStart := LineStart m; LineEnd := LineEnd m;
     LineNum := LineNum m; FileName := FileName m;
     Fragments := Fragments m ++ [f];
     Score := Score m |}.

(** The loop of the file-name branch: every candidate appends a fragment
    to [res], and [result] is reset to the one-element slice holding the
    current [res]. *)
Fixpoint fileName_loop (ms : list candidateMatch) (res : Match) (result : list Match)
    : list Match :=
  match ms with
  | [] => result
  | m :: ms' =>
      let res := add_Fragment {| LineOff := offset m;
                                 MatchLength := matchSz m;
                                 Offset := offset m |} res in
      fileName_loop ms' res [res]
  end.

(** [for i, m := range result { result[i].Score = matchScore(sects, &m) }] *)
Fixpoint score_all (sects : list DocumentSection) (result : list Match)
    : outcome (list Match) :=
  match result with
  | [] => Done []
  | m :: rest =>
      do sc <- matchScore sects m;
      do rest' <- score_all sects rest;
      Done (set_Score sc m :: rest')
  end.

Definition fillMatches (fuel : nat) (ms : list candidateMatch) : M (list Match) :=
  run m0 <- lift (index ms 0);
  run result <-
    (if fileName m0 then
       run p <- get;
       let res := {| Line := id_fileName (id p) (idx p); FileName := true;
                     LineStart := 0; LineEnd := 0; LineNum := 0;
                     Fragments := []; Score := 0 |} in
       ret (fileName_loop ms res [])
     else fillContentMatches fuel ms);
  run sects <- docSections;
  lift (score_all (elems sects) result).

End Collaborators.

(** *** The sorters *)

#[export] Instance matchScoreSlice : Interface (list Match) := {|
  Len := fun m => len m;
  Swap := fun m i j => swap_elems m i j;
  Less := fun m i j =>
    do a <- index m i; do b <- index m j; Done (float64_gt (Score a) (Score b))
|}.

#[export] Instance fileMatchSlice : Interface (list FileMatch) := {|
  Len := fun m => len m;
  Swap := fun m i j => swap_elems m i j;
  Less := fun m i j =>
    do a <- index m i; do b <- index m j; Done (float64_gt (FileScore a) (FileScore b))
|}.

Section Sorting.

(** [sort.Sort] belongs to the Go library; the sorters below call it
    through [sort.Interface]. *)
Variable sort_Sort : ∀ S : Type, Interface S → S → outcome S.

Definition sortMatchesByScore (ms : list Match) : outcome (list Match) :=
  sort_Sort (list Match) matchScoreSlice ms.

Definition sortFilesByScore (ms : list FileMatch) : outcome (list FileMatch) :=
  sort_Sort (list FileMatch) fileMatchSlice ms.

End Sorting.

(** *** Vocabulary of the properties *)

(** The section [s] fully contains the range [off, off + sz). *)
Definition contains (s : DocumentSection) (off sz : Z) : Prop :=
  Start s ≤ off ∧ off + sz ≤ End s.

Definition sorted_by_End (secs : list DocumentSection) : Prop :=
  ∀ (i j : nat) (a b : DocumentSection),
    (i < j)%nat → secs !! i = Some a → secs !! j = Some b → End a ≤ End b.

(** No offset belongs to the ranges of two sections of the slice. *)
Definition non_overlapping (secs : list DocumentSection) : Prop :=
  ∀ (i j : nat) (a b : DocumentSection) (x : Z),
    i ≠ j → secs !! i = Some a → secs !! j = Some b →
    Start a ≤ x < End a → Start b ≤ x < End b → False.

Definition non_empty (secs : list DocumentSection) : Prop :=
  ∀ a, a ∈ secs → Start a < End a.

(** The fragment that the file-name branch of [fillMatches] builds for a
    candidate. *)
Definition fileName_fragment (m : candidateMatch) : MatchFragment :=
  {| LineOff := offset m; MatchLength := matchSz m; Offset := offset m |}.

(** The elements with one score stand in the output in the order they
    have in the input. *)
Definition keeps_tie_order {A : Type} (score : A → float64) (input output : list A)
    : Prop :=
  ∀ v : float64, filter (fun a => score a = v) output = filter (fun a => score a = v) input.

(** The scores of the sequence are numbers and do not increase. *)
Definition non_increasing {A : Type} (score : A → float64) (ms : list A) : Prop :=
  ∀ (i j : nat) (a b : A), (i < j)%nat → ms !! i = Some a → ms !! j = Some b →
    ∃ x y : Z, score a = Num x ∧ score b = Num y ∧ y ≤ x.

(** [n] calls of a method in a row. *)
Fixpoint calls {A : Type} (n : nat) (m : M A) : M unit :=
  match n with
  | O => ret tt
  | S n' => run _ <- m; calls n' m
  end.

(** The match that the assembler builds for the candidates [g] of the line
    [num], from [start] to [end_], whose content is [ln]. *)
Definition line_match (num start end_ : Z) (ln : list Z) (g : list candidateMatch) : Match :=
  {| LineStart := start; LineEnd := end_; LineNum := num; Line := ln;
     FileName := false; Fragments := map (fragment_of start) g; Score := 0 |}.

(** The fragment lies in the line [ln]. *)
Definition fragment_in_line (ln : list Z) (f : MatchFragment) : Prop :=
  0 ≤ LineOff f ∧ LineOff f + MatchLength f ≤ len ln.

(** [findSection] finds a section for the fragment, as [matchScore] asks
    for it. *)
Definition in_section (secs : list DocumentSection) (f : MatchFragment) : Prop :=
  ∃ s, findSection secs (Offset f) (uint32 (MatchLength f)) = Done (Some s).



End zoekt.

(** ** The external byte utilities, for running the model *)

Module collaborators.

(** Modelled from the spec: [toOriginal], declared outside the given
    files.  It restores the original letter casing of the lowercased content
    over the byte range [start, end): a letter whose case bit is set is
    given back in upper case.  The buffer [out] is only storage. *)
Definition toOriginal (out content caseBits : list Z) (start end_ : Z)
    : outcome (list Z) :=
  do s <- slice content start end_;
  Done (imap (fun k c =>
                if codesearch.bitmap_bit caseBits (start + Z.of_nat k)
                   && (97 <=? c) && (c <=? 122)
                then c - 32 else c) s).

(** Modelled from the spec: [byteClass], declared outside the given files.
    It separates the identifier-like bytes (letters, digits, underscore)
    from the others. *)
Definition byteClass (c : Z) : Z :=
  if ((97 <=? c) && (c <=? 122)) || ((65 <=? c) && (c <=? 90))
     || ((48 <=? c) && (c <=? 57)) || (c =? 95)
  then 1 else 0.

(** Modelled from the spec: [toLower], declared outside the given files:
    the canonical lowercasing of ASCII letters. *)
Definition toLower (bs : list Z) : list Z :=
  map (fun c => if (65 <=? c) && (c <=? 90) then c + 32 else c) bs.

End collaborators.

(** ** Example inputs *)

Module zoekt_examples.
Import zoekt.

(** An index of one document, named ["a.go"], with the given content and
    newline table, all in lower case, and no sections. *)
Definition one_document (content newlines : list Z) : indexData :=
  {| fileEnds := [len content];
     fileNameContent := [97; 46; 103; 111];
     fileNameIndex := [0; 4];
     fileNameCaseBits := [0];
     fileNameCaseBitsIndex := [0; 1];
     readDocSections := fun _ => (Some [], None);
     readNewlines := fun _ _ => (Some newlines, None);
     readContents := fun _ => (Some content, None);
     readCaseBits := fun _ => (Some (replicate (Z.to_nat ((len content + 7) / 8)) 0), None);
     id_fileName := fun _ => [97; 46; 103; 111] |}.

(** A provider set on document 0 of [one_document], nothing cached. *)
Definition provider (content newlines : list Z) : contentProvider :=
  {| id := one_document content newlines;
     stats := {| FilesLoaded := 0; BytesLoaded := 0 |};
     err := None; idx := 0;
     _cb := None; _data := None; _nl := None; _nlBuf := None; _sects := None;
     fileSize := len content |}.

(** The content ["a\nbcd\nef"], with terminators at 1 and 5. *)
Definition three_lines : list Z := [97; 10; 98; 99; 100; 10; 101; 102].

(** The content ["ab\ncd\nef"], with terminators at 2 and 5. *)
Definition three_pairs : list Z := [97; 98; 10; 99; 100; 10; 101; 102].

(** An index of two documents whose content cannot be decoded. *)
Definition undecodable : indexData :=
  {| fileEnds := [8; 12];
     fileNameContent := []; fileNameIndex := [0; 0; 0];
     fileNameCaseBits := []; fileNameCaseBitsIndex := [0; 0; 0];
     readDocSections := fun _ => (Some [], None);
     readNewlines := fun _ _ => (Some [], None);
     readContents := fun _ => (None, Some 1%nat);
     readCaseBits := fun _ => (Some [], None);
     id_fileName := fun _ => [] |}.

(** Two candidates in the file name ["a.go"]: ["a"] at 0 and ["go"] at 2. *)
Definition two_in_name : list candidateMatch :=
  [ {| fileName := true; offset := 0; matchSz := 1 |};
    {| fileName := true; offset := 2; matchSz := 2 |} ].

(** A match of line [n] with score [sc]. *)
Definition scored (n sc : Z) : Match :=
  {| Line := []; LineStart := 0; LineEnd := 0; LineNum := n; FileName := false;
     Fragments := []; Score := sc |}.

(** A match of line [n] whose score is NaN. *)
Definition unscored (n : Z) : Match :=
  {| Line := []; LineStart := 0; LineEnd := 0; LineNum := n; FileName := false;
     Fragments := []; Score := NaN |}.

(** A match whose score is NaN between two matches of scores 1 and 2. *)
Definition around_NaN : list Match := [scored 1 1; unscored 2; scored 3 2].

(** Six partial-word matches followed by a full-word match. *)
Definition seven_matches : list Match :=
  [scored 1 50; scored 2 50; scored 3 50; scored 4 50; scored 5 50; scored 6 50;
   scored 7 500].

(** The content ["ab\ncdefg\nhi"], with terminators at 2 and 8. *)
Definition round_trip_content : list Z :=
  [97; 98; 10; 99; 100; 101; 102; 103; 10; 104; 105].

(** The content ["ab\ncd"], with a terminator at 2. *)
Definition two_lines : list Z := [97; 98; 10; 99; 100].

(** An index of two documents, ["ab\ncd"] and ["xyz"]; the case bits of
    the first one cannot be decoded. *)
Definition two_documents : indexData :=
  {| fileEnds := [5; 8];
     fileNameContent := [97; 98]; fileNameIndex := [0; 1; 2];
     fileNameCaseBits := [0; 0]; fileNameCaseBitsIndex := [0; 1; 2];
     readDocSections := fun _ => (Some [], None);
     readNewlines := fun d _ => (Some (if decide (d = 0) then [2] else []), None);
     readContents :=
       fun d => (Some (if decide (d = 0) then two_lines else [120; 121; 122]), None);
     readCaseBits := fun d => if decide (d = 0) then (None, Some 1%nat) else (Some [0], None);
     id_fileName := fun d => if decide (d = 0) then [97] else [98] |}.

(** A provider that has read document 0 of [two_documents]: the sections,
    the newline table and the contents are cached, and the read of the case
    bits, which failed, has left its error. *)
Definition after_failed_case_bits : contentProvider :=
  {| id := two_documents;
     stats := {| FilesLoaded := 1; BytesLoaded := 5 |};
     err := Some 1%nat; idx := 0;
     _cb := None; _data := Some two_lines; _nl := Some [2]; _nlBuf := Some [2];
     _sects := Some [];
     fileSize := 5 |}.

(** An index of one document whose newline table cannot be decoded. *)
Definition lost_newlines (content : list Z) : indexData :=
  {| fileEnds := [len content];
     fileNameContent := [97; 46; 103; 111];
     fileNameIndex := [0; 4];
     fileNameCaseBits := [0];
     fileNameCaseBitsIndex := [0; 1];
     readDocSections := fun _ => (Some [], None);
     readNewlines := fun _ _ => (None, Some 2%nat);
     readContents := fun _ => (Some content, None);
     readCaseBits := fun _ => (Some (replicate (Z.to_nat ((len content + 7) / 8)) 0), None);
     id_fileName := fun _ => [97; 46; 103; 111] |}.

(** A provider set on document 0 of [one_document], whose newline table,
    contents and case bits are cached. *)
Definition warm_provider (content newlines : list Z) : contentProvider :=
  {| id := one_document content newlines;
     stats := {| FilesLoaded := 1; BytesLoaded := len content |};
     err := None; idx := 0;
     _cb := Some (replicate (Z.to_nat ((len content + 7) / 8)) 0);
     _data := Some content; _nl := Some newlines; _nlBuf := Some newlines;
     _sects := None;
     fileSize := len content |}.

(** A provider set on document 0 of an index, nothing cached. *)
Definition fresh_provider (ix : indexData) (size : Z) : contentProvider :=
  {| id := ix;
     stats := {| FilesLoaded := 0; BytesLoaded := 0 |};
     err := None; idx := 0;
     _cb := None; _data := None; _nl := None; _nlBuf := None; _sects := None;
     fileSize := size |}.

End zoekt_examples.

Module codesearch_examples.
Import codesearch.

(** The two trigram lists of a five-byte pattern over a shard of two
    ten-byte documents: the pattern occurs at 0, 4, 9 and 12. *)
Definition scan_example : docIterator :=
  {| it_query := {| Pattern := [97; 98; 99; 100; 101]; CaseSensitive := false |};
     patLen := 5;
     first := [0; 4; 9; 12];
     last := [2; 6; 11; 14];
     fileIdx := 0;
     ends := [10; 20] |}.

(** The pattern ["aBc"] at offset 6: its span covers the bits 6, 7 and 8
    of the bitmap, and bit 7 alone stands for an upper-case letter. *)
Definition aBc_at_6 : candidateMatch :=
  {| query := {| Pattern := [97; 66; 99]; CaseSensitive := true |};
     substrBytes := [97; 66; 99]; lowered := [97; 98; 99];
     caseMask := None; caseBits := None; file := 0; offset := 6 |}.

(** The scanner over the document ["ab\ncdefg\nhi"] for the pattern
    ["cdefg"]: its first trigram occurs at 3, its last one at 5. *)
Definition round_trip_scan : docIterator :=
  {| it_query := {| Pattern := [99; 100; 101; 102; 103]; CaseSensitive := true |};
     patLen := 5;
     first := [3];
     last := [5];
     fileIdx := 0;
     ends := [11] |}.

End codesearch_examples.

(** * Properties *)

(** ** Facts about the Go runtime model *)

Lemma index_Done {A : Type} (s : list A) (i : Z) (x : A) :
  index s i = Done x ↔ 0 ≤ i ∧ s !! Z.to_nat i = Some x.
Proof.
  unfold index. destruct (decide (0 ≤ i)) as [Hi|Hi].
  - destruct (s !! Z.to_nat i) as [y|] eqn:E; split.
    + intros [= ->]; auto.
    + intros [_ [= ->]]; reflexivity.
    + discriminate.
    + intros [_ ?]; discriminate.
  - split; [discriminate | intros [? _]; contradiction].
Qed.

Lemma index_in_range {A : Type} (s : list A) (i : Z) :
  0 ≤ i < len s → ∃ x, index s i = Done x.
Proof.
  intros [H0 H1]. unfold len in H1.
  destruct (lookup_lt_is_Some_2 s (Z.to_nat i)) as [x Hx]; [lia|].
  exists x. apply index_Done; auto.
Qed.

Lemma index_nat {A : Type} (s : list A) (n : nat) (x : A) :
  s !! n = Some x → index s (Z.of_nat n) = Done x.
Proof. intros H. apply index_Done. rewrite Nat2Z.id. split; [lia | exact H]. Qed.

Lemma index_len {A : Type} (s : list A) (i : Z) (x : A) :
  index s i = Done x → 0 ≤ i < len s.
Proof.
  intros [H0 H]%index_Done. apply lookup_lt_Some in H. unfold len. lia.
Qed.

Lemma index_out_of_range {A : Type} (s : list A) (i : Z) :
  i < 0 ∨ len s ≤ i → index s i = Panic.
Proof.
  intros H. unfold index. destruct (decide (0 ≤ i)) as [Hi|]; [|reflexivity].
  rewrite lookup_ge_None_2; [reflexivity|]. unfold len in H. lia.
Qed.

Lemma uint32_small (z : Z) : is_uint32 z → uint32 z = z.
Proof. unfold is_uint32, uint32. intros H. apply Z.mod_small. lia. Qed.

Lemma uint32_is_uint32 (z : Z) : is_uint32 (uint32 z).
Proof. unfold is_uint32, uint32. apply Z.mod_pos_bound. lia. Qed.

(** [sort.Search] over a predicate that is defined on [0, n): the loop
    returns an index [k] of [0, n] whose left neighbour fails the predicate
    and which satisfies it itself (when there is such a neighbour, or such
    an index). *)
Lemma Search_loop_spec (g : Z → bool) (n : Z) (f : Z → outcome bool) (fuel : nat) (i j : Z) :
  (∀ h, 0 ≤ h < n → f h = Done (g h)) →
  0 ≤ i ≤ j → j ≤ n → j - i ≤ Z.of_nat fuel →
  ∃ k, Search_loop fuel f i j = Done k ∧ i ≤ k ≤ j
       ∧ (k = i ∨ g (k - 1) = false) ∧ (k = j ∨ g k = true).
Proof.
  intros Hf. revert i j. induction fuel as [|fuel IH]; intros i j Hij Hjn Hfuel.
  - simpl. rewrite decide_False by lia. exists i. repeat split; auto; lia.
  - simpl. destruct (decide (i < j)) as [Hlt|Hge].
    + rewrite Z.shiftr_div_pow2 by lia. change (2 ^ 1) with 2.
      assert (Hh : i ≤ (i + j) / 2 < j).
      { split; [apply Z.div_le_lower_bound; lia | apply Z.div_lt_upper_bound; lia]. }
      set (h := (i + j) / 2) in *.
      rewrite Hf by lia. simpl.
      destruct (g h) eqn:Eg; simpl.
      * destruct (IH i h ltac:(lia) ltac:(lia) ltac:(lia)) as (k & Hk & Hr & Hl & Hu).
        exists k. repeat split; auto; try lia.
        destruct Hu as [->|Hu]; auto.
      * destruct (IH (h + 1) j ltac:(lia) ltac:(lia) ltac:(lia)) as (k & Hk & Hr & Hl & Hu).
        exists k. repeat split; auto; try lia.
        destruct Hl as [->|Hl]; auto. right. rewrite <- Eg. f_equal. lia.
    + exists i. repeat split; auto; lia.
Qed.

Lemma Search_spec (g : Z → bool) (n : Z) (f : Z → outcome bool) :
  0 ≤ n →
  (∀ h, 0 ≤ h < n → f h = Done (g h)) →
  ∃ k, Search n f = Done k ∧ 0 ≤ k ≤ n
       ∧ (k = 0 ∨ g (k - 1) = false) ∧ (k = n ∨ g k = true).
Proof.
  intros Hn Hf. unfold Search.
  apply (Search_loop_spec g n f (Z.to_nat n) 0 n Hf); lia.
Qed.

(** Over a predicate that, once true, stays true, [sort.Search] returns
    the least index that satisfies it, or [n]. *)
Lemma Search_least (g : Z → bool) (n : Z) (f : Z → outcome bool) :
  0 ≤ n →
  (∀ h, 0 ≤ h < n → f h = Done (g h)) →
  (∀ a b, 0 ≤ a ≤ b → b < n → g a = true → g b = true) →
  ∃ k, Search n f = Done k ∧ 0 ≤ k ≤ n
       ∧ (∀ h, 0 ≤ h < k → g h = false) ∧ (∀ h, k ≤ h < n → g h = true).
Proof.
  intros Hn Hf Hmono.
  destruct (Search_spec g n f Hn Hf) as (k & Hk & Hr & Hl & Hu).
  exists k. repeat split; auto; try lia.
  - intros h Hh. destruct Hl as [->|Hl]; [lia|].
    destruct (g h) eqn:Eg; [|reflexivity].
    rewrite (Hmono h (k - 1)) in Hl; [discriminate | lia | lia | exact Eg].
  - intros h Hh. destruct Hu as [->|Hu]; [lia|].
    apply (Hmono k h); [lia | lia | exact Hu].
Qed.

(** ** The content provider *)

Module zoekt_provider.
Import zoekt zoekt_examples.

(** C9, as amended.  [setDocument docID], for a document of the shard,
    returns a provider whose four per-document caches (content, case bits,
    newlines, sections) are nil, whose document index is [docID] and whose
    [fileSize] is the distance between the document's end and its start (the
    previous document's end, or 0); the latched [err] is the one the provider
    held before the call, as are the index data, the statistics and the
    newline buffer.  The error stays until the next read, and no longer: the
    first call of [docSections], [newlines], [data(false)] or
    [caseBits(false)] after the switch reads from the index and sets [err]
    to the error of that read, which is nil when the read succeeds. *)
Theorem setDocument_keeps_err (p : contentProvider) (docID : Z) :
  is_uint32 docID →
  docID < len (fileEnds (id p)) →
  ∃ (p' : contentProvider) (fileStart fileEnd : Z),
    setDocument docID p = Done (tt, p')
    ∧ _data p' = None ∧ _cb p' = None ∧ _nl p' = None ∧ _sects p' = None
    ∧ idx p' = docID
    ∧ fileEnds (id p) !! Z.to_nat docID = Some fileEnd
    ∧ (if decide (docID = 0) then fileStart = 0
       else fileEnds (id p) !! Z.to_nat (docID - 1) = Some fileStart)
    ∧ fileSize p' = uint32 (fileEnd - fileStart)
    ∧ err p' = err p
    ∧ id p' = id p ∧ stats p' = stats p ∧ _nlBuf p' = _nlBuf p
    ∧ (∃ q, docSections p' = Done (fst (readDocSections (id p) docID), q)
            ∧ err q = snd (readDocSections (id p) docID))
    ∧ (∃ q, newlines p' = Done (fst (readNewlines (id p) docID (_nlBuf p)), q)
            ∧ err q = snd (readNewlines (id p) docID (_nlBuf p)))
    ∧ (∃ q, data false p' = Done (fst (readContents (id p) docID), q)
            ∧ err q = snd (readContents (id p) docID))
    ∧ (∃ q, caseBits false p' = Done (fst (readCaseBits (id p) docID), q)
            ∧ err q = snd (readCaseBits (id p) docID)).
Proof.
  intros Hu Hd. unfold is_uint32 in Hu.
  destruct (index_in_range (fileEnds (id p)) docID ltac:(lia)) as [fe Hfe].
  unfold setDocument. rewrite Hfe.
  apply index_Done in Hfe as [_ Hfe].
  destruct (decide (docID > 0)) as [Hpos|Hzero].
  - rewrite uint32_small by (unfold is_uint32; lia).
    destruct (index_in_range (fileEnds (id p)) (docID - 1) ltac:(lia)) as [fs Hfs].
    rewrite Hfs. apply index_Done in Hfs as [_ Hfs].
    exists {| id := id p; stats := stats p; err := err p; idx := docID;
              _cb := None; _data := None; _nl := None; _nlBuf := _nlBuf p;
              _sects := None; fileSize := uint32 (fe - fs) |}, fs, fe.
    simpl. rewrite decide_False by lia.
    repeat split; auto; eexists; split; reflexivity.
  - exists {| id := id p; stats := stats p; err := err p; idx := docID;
              _cb := None; _data := None; _nl := None; _nlBuf := _nlBuf p;
              _sects := None; fileSize := uint32 (fe - 0) |}, 0, fe.
    simpl. rewrite decide_True by lia.
    repeat split; auto; eexists; split; reflexivity.
Qed.

(** The provider has read document 0, three of its caches are filled and
    an error is latched; it is switched to document 1. *)
Lemma setDocument_keeps_err_witness :
  (run _ <- docSections; run _ <- newlines; run _ <- data false; caseBits false)
    (fresh_provider two_documents 5) = Done (None, after_failed_case_bits)
  ∧ ∃ (p' : contentProvider) (fileStart fileEnd : Z),
      setDocument 1 after_failed_case_bits = Done (tt, p')
      ∧ _data p' = None ∧ _cb p' = None ∧ _nl p' = None ∧ _sects p' = None
      ∧ idx p' = 1
      ∧ fileEnds two_documents !! Z.to_nat 1 = Some fileEnd
      ∧ (if decide (1 = 0) then fileStart = 0
         else fileEnds two_documents !! Z.to_nat (1 - 1) = Some fileStart)
      ∧ fileSize p' = uint32 (fileEnd - fileStart)
      ∧ err p' = Some 1%nat
      ∧ id p' = two_documents ∧ stats p' = stats after_failed_case_bits
      ∧ _nlBuf p' = Some [2]
      ∧ (∃ q, docSections p' = Done (fst (readDocSections two_documents 1), q)
              ∧ err q = snd (readDocSections two_documents 1))
      ∧ (∃ q, newlines p' = Done (fst (readNewlines two_documents 1 (Some [2])), q)
              ∧ err q = snd (readNewlines two_documents 1 (Some [2])))
      ∧ (∃ q, data false p' = Done (fst (readContents two_documents 1), q)
              ∧ err q = snd (readContents two_documents 1))
      ∧ (∃ q, caseBits false p' = Done (fst (readCaseBits two_documents 1), q)
              ∧ err q = snd (readCaseBits two_documents 1)).
Proof.
  split; [vm_compute; reflexivity|].
  apply (setDocument_keeps_err after_failed_case_bits 1).
  - unfold is_uint32. lia.
  - vm_compute. reflexivity.
Defined.

(** C9 as stated fails: the latched error does not stay until the caller
    clears it.  The provider of the witness holds the error of the failed
    read of the case bits of document 0; after [setDocument 1] the error is
    still there, and the first read for document 1, a call of [newlines]
    that succeeds, sets [err] to nil. *)
Lemma latched_err_is_lost_at_the_next_read :
  err after_failed_case_bits = Some 1%nat
  ∧ ∃ (p1 p2 : contentProvider),
      setDocument 1 after_failed_case_bits = Done (tt, p1)
      ∧ err p1 = Some 1%nat
      ∧ newlines p1 = Done (Some [], p2)
      ∧ err p2 = None.
Proof.
  split; [reflexivity|]. eexists _, _.
  split; [vm_compute; reflexivity|]. split; [reflexivity|].
  split; [vm_compute; reflexivity|]. reflexivity.
Qed.

(** The contents of a document are read once.  On a provider that holds no
    contents, [data(false)] reads them, counts one file and their length in
    the statistics, and caches them when they are not nil; every later call
    returns the cached bytes and leaves the provider as it is. *)
Theorem data_loads_once (p : contentProvider) (c : list Z) :
  _data p = None → fst (readContents (id p) (idx p)) = Some c →
  ∃ p1, data false p = Done (Some c, p1)
    ∧ FilesLoaded (stats p1) = FilesLoaded (stats p) + 1
    ∧ BytesLoaded (stats p1) = BytesLoaded (stats p) + len c
    ∧ data false p1 = Done (Some c, p1)
    ∧ ∀ n, calls n (data false) p1 = Done (tt, p1).
Proof.
  intros Hnone Hread. unfold data at 1. rewrite Hnone, Hread. cbn [fst elems default].
  eexists. split; [reflexivity|]. cbn [stats FilesLoaded BytesLoaded].
  split; [reflexivity|]. split; [reflexivity|].
  assert (Hagain : ∀ q, _data q = Some c → data false q = Done (Some c, q)).
  { intros q Hq. unfold data. rewrite Hq. reflexivity. }
  split; [apply Hagain; reflexivity|].
  intros n. induction n as [|n IH]; [reflexivity|].
  cbn [calls]. unfold bind. rewrite Hagain by reflexivity. cbn [obind fst snd]. exact IH.
Qed.

Lemma data_loads_once_witness :
  ∃ p1, data false (provider three_lines [1; 5]) = Done (Some three_lines, p1)
    ∧ FilesLoaded (stats p1) = 0 + 1
    ∧ BytesLoaded (stats p1) = 0 + len three_lines
    ∧ data false p1 = Done (Some three_lines, p1)
    ∧ ∀ n, calls n (data false) p1 = Done (tt, p1).
Proof.
  apply (data_loads_once (provider three_lines [1; 5]) three_lines); reflexivity.
Defined.

(** Nil contents are not cached.  When the reader returns nil contents (as
    it does with an error), every call of [data(false)] reads again:
    [n] calls count [n] files, and no bytes, in the statistics. *)
Theorem data_rereads_nil_contents (p : contentProvider) (n : nat) :
  _data p = None → fst (readContents (id p) (idx p)) = None →
  ∃ p', calls n (data false) p = Done (tt, p')
    ∧ FilesLoaded (stats p') = FilesLoaded (stats p) + Z.of_nat n
    ∧ BytesLoaded (stats p') = BytesLoaded (stats p)
    ∧ _data p' = None ∧ id p' = id p ∧ idx p' = idx p
    ∧ (n ≠ 0%nat → err p' = snd (readContents (id p) (idx p))).
Proof.
  revert p. induction n as [|n IH]; intros p Hnone Hread.
  - exists p. cbn [calls]. unfold ret. repeat split; auto; try lia; try congruence.
  - cbn [calls]. unfold bind, data at 1. rewrite Hnone. cbn [obind fst snd].
    match goal with |- context [calls n (data false) ?q] => set (p1 := q) end.
    destruct (IH p1) as (p' & Hrun & Hfiles & Hbytes & Hdata & Hid & Hidx & Herr).
    { unfold p1. cbn [_data]. exact Hread. }
    { unfold p1. cbn [id idx]. exact Hread. }
    exists p'. split; [exact Hrun|].
    unfold p1 in Hfiles, Hbytes, Hid, Hidx, Herr.
    cbn [stats FilesLoaded BytesLoaded id idx] in Hfiles, Hbytes, Hid, Hidx, Herr.
    rewrite Hread in Hbytes. cbn [elems default] in Hbytes.
    repeat split; auto; try (unfold len in *; simpl in *; lia).
    intros _. destruct n as [|n'].
    + cbn [calls] in Hrun. unfold ret in Hrun. injection Hrun as <-. reflexivity.
    + apply Herr. discriminate.
Qed.

Lemma data_rereads_nil_contents_witness :
  ∃ p', calls 3 (data false) (fresh_provider undecodable 8) = Done (tt, p')
    ∧ FilesLoaded (stats p') = 0 + Z.of_nat 3
    ∧ BytesLoaded (stats p') = 0
    ∧ _data p' = None ∧ id p' = undecodable ∧ idx p' = 0
    ∧ (3%nat ≠ 0%nat → err p' = Some 1%nat).
Proof.
  apply (data_rereads_nil_contents (fresh_provider undecodable 8) 3); reflexivity.
Defined.

(** [setDocument] invalidates the caches.  Whatever the provider held
    for the document it was set on, the first call of each reader after
    [setDocument] returns what the index gives for the new document. *)
Theorem setDocument_invalidates_caches (p p1 : contentProvider) (docID : Z) :
  setDocument docID p = Done (tt, p1) →
  (∃ q, data false p1 = Done (fst (readContents (id p) docID), q))
  ∧ (∃ q, caseBits false p1 = Done (fst (readCaseBits (id p) docID), q))
  ∧ (∃ q, newlines p1 = Done (fst (readNewlines (id p) docID (_nlBuf p)), q))
  ∧ (∃ q, docSections p1 = Done (fst (readDocSections (id p) docID), q)).
Proof.
  intros Hset. unfold setDocument in Hset.
  destruct (if decide (docID > 0) then index (fileEnds (id p)) (uint32 (docID - 1))
            else Done 0) as [fs| |]; try discriminate.
  cbn [obind] in Hset.
  destruct (index (fileEnds (id p)) docID) as [fe| |]; try discriminate.
  cbn [obind] in Hset. injection Hset as <-.
  unfold data, caseBits, newlines, docSections.
  cbn [_data _cb _nl _sects id idx _nlBuf]. eauto 10.
Qed.

Lemma setDocument_invalidates_caches_witness :
  ∃ p1, setDocument 0 (warm_provider round_trip_content [2; 8]) = Done (tt, p1)
    ∧ _data (warm_provider round_trip_content [2; 8]) = Some round_trip_content
    ∧ (∃ q, data false p1 = Done (Some round_trip_content, q))
    ∧ (∃ q, newlines p1 = Done (Some [2; 8], q)).
Proof.
  destruct (setDocument 0 (warm_provider round_trip_content [2; 8])) as [[[] p1]| |] eqn:Eset;
    [| vm_compute in Eset; discriminate | vm_compute in Eset; discriminate].
  exists p1. split; [reflexivity|]. split; [reflexivity|].
  destruct (setDocument_invalidates_caches _ p1 0 Eset) as (Hd & _ & Hn & _).
  split; [exact Hd | exact Hn].
Defined.

Section FileNames.

Variable candidate_caseMatches :
  candidateMatch → option (list Z) → outcome (bool * candidateMatch).
Variable candidate_matchContent :
  candidateMatch → option (list Z) → outcome (bool * candidateMatch).

(** The file-name side of the provider reads nothing.  [data(true)] and
    [caseBits(true)] return the bytes that the name tables give for the
    document, between its entry and the next one in the index table, and
    leave the caches, the statistics and [err] as they are; so do
    [matchContent] and [caseMatches] for a file-name candidate. *)
Theorem fileName_lookups_read_nothing (m : candidateMatch) (p p' : contentProvider) :
  (∀ r, data true p = Done (r, p') →
        p' = p
        ∧ ∃ lo hi s, fileNameIndex (id p) !! Z.to_nat (idx p) = Some lo
            ∧ fileNameIndex (id p) !! Z.to_nat (uint32 (idx p + 1)) = Some hi
            ∧ r = Some s ∧ len s = hi - lo
            ∧ codesearch.occurs_at (fileNameContent (id p)) lo s)
  ∧ (∀ r, caseBits true p = Done (r, p') →
        p' = p
        ∧ ∃ lo hi s, fileNameCaseBitsIndex (id p) !! Z.to_nat (idx p) = Some lo
            ∧ fileNameCaseBitsIndex (id p) !! Z.to_nat (uint32 (idx p + 1)) = Some hi
            ∧ r = Some s ∧ len s = hi - lo
            ∧ codesearch.occurs_at (fileNameCaseBits (id p)) lo s)
  ∧ (fileName m = true →
     (∀ r, matchContent candidate_matchContent m p = Done (r, p') → p' = p)
     ∧ (∀ r, caseMatches candidate_caseMatches m p = Done (r, p') → p' = p)).
Proof.
  assert (Hslice : ∀ (tbl : list Z) lo hi s, slice tbl lo hi = Done s →
            len s = hi - lo ∧ codesearch.occurs_at tbl lo s).
  { intros tbl lo hi s. unfold slice.
    destruct (decide (0 ≤ lo ∧ lo ≤ hi ∧ hi ≤ len tbl)) as [Hr|]; [|discriminate].
    intros [= <-]. unfold len in *. split.
    - rewrite length_take, length_drop. lia.
    - exists (take (Z.to_nat lo) tbl), (drop (Z.to_nat hi) tbl). split.
      + rewrite <- (take_drop (Z.to_nat lo) tbl) at 1. f_equal.
        rewrite <- (take_drop (Z.to_nat (hi - lo)) (drop (Z.to_nat lo) tbl)) at 1.
        f_equal. rewrite drop_drop. f_equal. lia.
      + unfold len. rewrite length_take. lia. }
  assert (Hdata : ∀ r, data true p = Done (r, p') →
            p' = p
            ∧ ∃ lo hi s, fileNameIndex (id p) !! Z.to_nat (idx p) = Some lo
                ∧ fileNameIndex (id p) !! Z.to_nat (uint32 (idx p + 1)) = Some hi
                ∧ r = Some s ∧ len s = hi - lo
                ∧ codesearch.occurs_at (fileNameContent (id p)) lo s).
  { intros r. unfold data.
    destruct (index (fileNameIndex (id p)) (idx p)) as [lo| |] eqn:Elo; try discriminate.
    cbn [obind].
    destruct (index (fileNameIndex (id p)) (uint32 (idx p + 1))) as [hi| |] eqn:Ehi;
      try discriminate.
    cbn [obind].
    destruct (slice (fileNameContent (id p)) lo hi) as [s| |] eqn:Es; try discriminate.
    cbn [obind]. intros [= <- <-]. split; [reflexivity|].
    apply index_Done in Elo as [_ Elo]. apply index_Done in Ehi as [_ Ehi].
    destruct (Hslice _ _ _ _ Es) as [Hlen Hocc].
    exists lo, hi, s. auto. }
  assert (Hcb : ∀ r, caseBits true p = Done (r, p') →
            p' = p
            ∧ ∃ lo hi s, fileNameCaseBitsIndex (id p) !! Z.to_nat (idx p) = Some lo
                ∧ fileNameCaseBitsIndex (id p) !! Z.to_nat (uint32 (idx p + 1)) = Some hi
                ∧ r = Some s ∧ len s = hi - lo
                ∧ codesearch.occurs_at (fileNameCaseBits (id p)) lo s).
  { intros r. unfold caseBits.
    destruct (index (fileNameCaseBitsIndex (id p)) (idx p)) as [lo| |] eqn:Elo;
      try discriminate.
    cbn [obind].
    destruct (index (fileNameCaseBitsIndex (id p)) (uint32 (idx p + 1))) as [hi| |] eqn:Ehi;
      try discriminate.
    cbn [obind].
    destruct (slice (fileNameCaseBits (id p)) lo hi) as [s| |] eqn:Es; try discriminate.
    cbn [obind]. intros [= <- <-]. split; [reflexivity|].
    apply index_Done in Elo as [_ Elo]. apply index_Done in Ehi as [_ Ehi].
    destruct (Hslice _ _ _ _ Es) as [Hlen Hocc].
    exists lo, hi, s. auto. }
  split; [exact Hdata|]. split; [exact Hcb|].
  intros Hname. split.
  - intros r. unfold matchContent, bind, lift. rewrite Hname.
    destruct (data true p) as [[d q]| |] eqn:Ed; try discriminate.
    cbn [obind fst snd].
    destruct (candidate_matchContent m d) as [b| |]; try discriminate.
    cbn [obind]. intros [= _ <-].
    (* the provider that [data] returned is the one it was given *)
    unfold data in Ed.
    destruct (index (fileNameIndex (id p)) (idx p)); try discriminate. cbn [obind] in Ed.
    destruct (index (fileNameIndex (id p)) (uint32 (idx p + 1))); try discriminate.
    cbn [obind] in Ed.
    destruct (slice (fileNameContent (id p)) _ _); try discriminate.
    cbn [obind] in Ed. injection Ed as _ <-. reflexivity.
  - intros r. unfold caseMatches, bind, lift. rewrite Hname.
    destruct (caseBits true p) as [[d q]| |] eqn:Ed; try discriminate.
    cbn [obind fst snd].
    destruct (candidate_caseMatches m d) as [b| |]; try discriminate.
    cbn [obind]. intros [= _ <-].
    unfold caseBits in Ed.
    destruct (index (fileNameCaseBitsIndex (id p)) (idx p)); try discriminate.
    cbn [obind] in Ed.
    destruct (index (fileNameCaseBitsIndex (id p)) (uint32 (idx p + 1))); try discriminate.
    cbn [obind] in Ed.
    destruct (slice (fileNameCaseBits (id p)) _ _); try discriminate.
    cbn [obind] in Ed. injection Ed as _ <-. reflexivity.
Qed.

End FileNames.

(** The newline table of one document is the buffer of the next read.
    After [newlines] has read the table of a document, [setDocument] keeps
    it as [_nlBuf], and the next [newlines] hands it to [readNewlines] as
    the buffer to decode into. *)
Theorem newlines_buffer_is_previous_table (p p1 p2 : contentProvider)
    (nl1 : option (list Z)) (docID : Z) :
  _nl p = None →
  newlines p = Done (nl1, p1) →
  setDocument docID p1 = Done (tt, p2) →
  nl1 = fst (readNewlines (id p) (idx p) (_nlBuf p))
  ∧ ∃ p3, newlines p2 = Done (fst (readNewlines (id p) docID nl1), p3)
          ∧ err p3 = snd (readNewlines (id p) docID nl1)
          ∧ _nlBuf p3 = fst (readNewlines (id p) docID nl1).
Proof.
  intros Hnone Hnl Hset. unfold newlines in Hnl. rewrite Hnone in Hnl.
  injection Hnl as <- <-. split; [reflexivity|].
  unfold setDocument in Hset. cbn [id] in Hset.
  destruct (if decide (docID > 0) then index (fileEnds (id p)) (uint32 (docID - 1))
            else Done 0) as [fs| |]; try discriminate.
  cbn [obind] in Hset.
  destruct (index (fileEnds (id p)) docID) as [fe| |]; try discriminate.
  cbn [obind] in Hset. injection Hset as <-.
  unfold newlines. cbn [_nl id idx _nlBuf]. eexists. split; [reflexivity|].
  split; reflexivity.
Qed.

Lemma newlines_buffer_is_previous_table_witness :
  ∃ p1 p2,
    newlines (fresh_provider undecodable 8) = Done (Some [], p1)
    ∧ setDocument 1 p1 = Done (tt, p2)
    ∧ Some [] = fst (readNewlines undecodable 0 None)
    ∧ ∃ p3, newlines p2 = Done (fst (readNewlines undecodable 1 (Some [])), p3)
            ∧ err p3 = snd (readNewlines undecodable 1 (Some []))
            ∧ _nlBuf p3 = fst (readNewlines undecodable 1 (Some [])).
Proof.
  eexists _, _. split; [reflexivity|]. split; [vm_compute; reflexivity|].
  eapply (newlines_buffer_is_previous_table (fresh_provider undecodable 8) _ _ (Some []) 1).
  - reflexivity.
  - reflexivity.
  - vm_compute. reflexivity.
Defined.

End zoekt_provider.

(** ** The candidate scanner *)

Module codesearch_scanner.
Import codesearch codesearch_examples.

Lemma ascending_cons (x : Z) (l : list Z) :
  ascending (x :: l) → ascending l ∧ ∀ y, y ∈ l → x ≤ y.
Proof.
  intros H. split.
  - intros i j a b Hij Ha Hb. apply (H (S i) (S j) a b); [lia | exact Ha | exact Hb].
  - intros y [n Hn]%list_elem_of_lookup.
    apply (H 0%nat (S n) x y); [lia | reflexivity | exact Hn].
Qed.

Lemma ascending_cons_intro (x : Z) (l : list Z) :
  ascending l → (∀ y, y ∈ l → x ≤ y) → ascending (x :: l).
Proof.
  intros Hl Hx i j a b Hij Ha Hb. destruct j as [|j]; [lia|]. simpl in Hb.
  destruct i as [|i]; simpl in Ha.
  - injection Ha as <-. apply Hx. apply list_elem_of_lookup. eauto.
  - apply (Hl i j a b); [lia | exact Ha | exact Hb].
Qed.

Lemma ascending_sublist (l1 l2 : list Z) :
  sublist l1 l2 → ascending l2 → ascending l1.
Proof.
  induction 1 as [|x l1 l2 Hsub IH|x l1 l2 Hsub IH]; intros Hasc.
  - exact Hasc.
  - apply ascending_cons in Hasc as [Hasc Hx].
    apply ascending_cons_intro; [auto|].
    intros y Hy. apply Hx. eapply elem_of_sublist; eauto.
  - apply ascending_cons in Hasc as [Hasc _]. auto.
Qed.

Lemma skip_documents_spec (fuel : nat) (ends : list Z) (i p : Z) :
  0 ≤ i → len ends - i ≤ Z.of_nat fuel →
  ∃ j, skip_documents fuel ends i p = Done j
       ∧ i ≤ j
       ∧ (j < len ends ∨ j = i ∨ j = len ends)
       ∧ (∀ k e, i ≤ k < j → ends !! Z.to_nat k = Some e → e ≤ p)
       ∧ (∀ e, ends !! Z.to_nat j = Some e → p < e).
Proof.
  revert i. induction fuel as [|fuel IH]; intros i Hi Hfuel.
  - simpl. destruct (decide (i < len ends)) as [Hlt|Hge]; [lia|].
    exists i. repeat split; auto; try lia.
    intros e He. apply lookup_lt_Some in He. unfold len in *. lia.
  - simpl. destruct (decide (i < len ends)) as [Hlt|Hge].
    + destruct (index_in_range ends i ltac:(lia)) as [e He]. rewrite He. simpl.
      apply index_Done in He as [_ He].
      destruct (decide (e ≤ p)) as [Hle|Hgt].
      * destruct (IH (i + 1) ltac:(lia) ltac:(lia)) as (j & Hj & Hij & Hlen & Hbelow & Habove).
        exists j. repeat split; auto; try lia.
        intros k e' Hk Hk'. destruct (decide (k = i)) as [->|Hne].
        -- rewrite He in Hk'. injection Hk' as <-. exact Hle.
        -- apply (Hbelow k e'); [lia | exact Hk'].
      * exists i. repeat split; auto; try lia.
        intros e' He'. rewrite He in He'. injection He' as <-. lia.
    + exists i. repeat split; auto; try lia.
      intros e He. apply lookup_lt_Some in He. unfold len in *. lia.
Qed.

Lemma next_loop_emits (fuel : nat) (pb lb : list Z) (dist : Z) (s : docIterator)
    (acc cands : list candidateMatch) (s' : docIterator) :
  cursor_ok s → ascending (first s) → Forall is_uint32 (ends s) →
  next_loop fuel pb lb dist s acc = Done (cands, s') →
  ∃ (ps : list Z) (new : list candidateMatch),
    cands = acc ++ new ∧ sublist ps (first s)
    ∧ Forall2 (emitted_from (ends s) (patLen s)) ps new.
Proof.
  assert (Hstop : ∀ (s0 : docIterator) (acc0 : list candidateMatch),
            ∃ (ps : list Z) (new : list candidateMatch),
              acc0 = acc0 ++ new ∧ sublist ps (first s0)
              ∧ Forall2 (emitted_from (ends s0) (patLen s0)) ps new).
  { intros s0 acc0. exists [], []. rewrite app_nil_r.
    repeat split; auto using sublist_nil_l. }
  revert s acc. induction fuel as [|fuel IH]; intros s acc Hinv Hasc Hends Hrun.
  - simpl in Hrun. destruct (first s) as [|p1 f'] eqn:Ef.
    + injection Hrun as <- <-. rewrite <- Ef. apply Hstop.
    + destruct (last s) as [|p2 l'] eqn:El; [|discriminate].
      injection Hrun as <- <-. rewrite <- Ef. apply Hstop.
  - simpl in Hrun. destruct (first s) as [|p1 f'] eqn:Ef.
    { injection Hrun as <- <-. rewrite <- Ef. apply Hstop. }
    destruct (last s) as [|p2 l'] eqn:El.
    { injection Hrun as <- <-. rewrite <- Ef. apply Hstop. }
    destruct Hinv as [Hidx Hpassed].
    destruct (ascending_cons _ _ Hasc) as [Hasc' Hhead].
    destruct (skip_documents_spec (length (ends s)) (ends s) (fileIdx s) p1 Hidx
                ltac:(unfold len; lia)) as (j & Hj & Hij & _ & Hbelow & Habove).
    rewrite Hj in Hrun. simpl in Hrun.
    assert (Hinv' : ∀ f l, (∀ p, p ∈ f → p = p1 ∨ p ∈ f') →
              cursor_ok (set_last l (set_first f (set_fileIdx j s)))).
    { intros f l Hsub. split; simpl; [lia|].
      intros k e p Hk He Hp. apply Hsub in Hp.
      destruct (decide (k < fileIdx s)) as [Hlt|Hge].
      - apply (Hpassed k e p); [lia | exact He |].
        rewrite Ef. apply elem_of_cons. exact Hp.
      - specialize (Hbelow k e ltac:(lia) He).
        destruct Hp as [->|Hp]; [lia|]. specialize (Hhead p Hp). lia. }
    destruct (decide (uint32 (p1 + dist) < p2)) as [Hlt|Hnlt].
    { apply IH in Hrun; [| apply (Hinv' f' (last s)); auto | exact Hasc' | exact Hends].
      destruct Hrun as (ps & new & -> & Hsub & Hall). simpl in *.
      exists ps, new. repeat split; auto. apply sublist_cons. exact Hsub. }
    destruct (decide (uint32 (p1 + dist) > p2)) as [Hgt|Hngt].
    { apply IH in Hrun; [| | simpl; rewrite Ef; exact Hasc | exact Hends].
      - destruct Hrun as (ps & new & -> & Hsub & Hall). simpl in *.
        exists ps, new. rewrite Ef in Hsub. repeat split; auto.
      - apply (Hinv' (first s) l'). intros p Hp. rewrite Ef in Hp.
        apply elem_of_cons in Hp. exact Hp. }
    simpl in Hrun.
    destruct (index (ends s) j) as [e| |] eqn:He; simpl in Hrun; try discriminate.
    apply index_Done in He as [_ He].
    destruct (decide (uint32 (p1 + uint32 (patLen s)) >= e)) as [Hout|Hin].
    { apply IH in Hrun; [| apply (Hinv' f' l'); auto | exact Hasc' | exact Hends].
      destruct Hrun as (ps & new & -> & Hsub & Hall). simpl in *.
      exists ps, new. repeat split; auto. apply sublist_cons. exact Hsub. }
    assert (Hcur : current_doc (ends s) 0 p1 j e).
    { repeat split; [lia | exact He | apply Habove; exact He |].
      intros k e' Hk He'. destruct (decide (k < fileIdx s)) as [Hlt'|Hge].
      - apply (Hpassed k e' p1); [lia | exact He' | rewrite Ef; left].
      - apply (Hbelow k e'); [lia | exact He']. }
    assert (Hfs : (if decide (j > 0) then
                     do e' <- index (ends s) (j - 1); Done (uint32 (0 + e'))
                   else Done 0) = Done (doc_start (ends s) j)).
    { unfold doc_start. destruct (decide (j > 0)) as [Hpos|]; [|reflexivity].
      destruct (index_in_range (ends s) (j - 1)) as [e' He'].
      { apply lookup_lt_Some in He. unfold len. lia. }
      rewrite He'. simpl. apply index_Done in He' as [_ He']. rewrite He'. simpl.
      f_equal. apply uint32_small.
      rewrite Forall_forall in Hends. apply Hends.
      apply list_elem_of_lookup. eauto. }
    rewrite Hfs in Hrun. simpl in Hrun.
    apply IH in Hrun; [| apply (Hinv' f' l'); auto | exact Hasc' | exact Hends].
    destruct Hrun as (ps & new & -> & Hsub & Hall). simpl in *.
    eexists (p1 :: ps), (_ :: new).
    split; [rewrite <- app_assoc; reflexivity|].
    split; [apply sublist_skip; exact Hsub|].
    constructor; [|exact Hall].
    exists j, e. simpl. repeat split; try apply Hcur; auto. lia.
Qed.

Lemma next_loop_returns (fuel : nat) (pb lb : list Z) (dist : Z) (s : docIterator)
    (acc : list candidateMatch) :
  (length (first s) + length (last s) < fuel)%nat →
  0 ≤ fileIdx s < len (ends s) →
  positions_in_shard s →
  ∃ r, next_loop fuel pb lb dist s acc = Done r.
Proof.
  revert s acc. induction fuel as [|fuel IH]; intros s acc Hfuel Hidx Hpos; [lia|].
  simpl. destruct (first s) as [|p1 f'] eqn:Ef; [eauto|].
  destruct (last s) as [|p2 l'] eqn:El; [eauto|].
  simpl in Hfuel. destruct Hpos as (elast & Hlast & Hpos).
  destruct (skip_documents_spec (length (ends s)) (ends s) (fileIdx s) p1
              ltac:(lia) ltac:(unfold len; lia)) as (j & Hj & Hij & Hlen & Hbelow & Habove).
  rewrite Hj. simpl.
  assert (Hjlen : j < len (ends s)).
  { destruct Hlen as [?|[?|Hlen]]; [lia | lia |].
    rewrite last_lookup in Hlast.
    specialize (Hbelow (len (ends s) - 1) elast ltac:(lia)).
    unfold len in Hbelow at 1.
    replace (Z.to_nat (Z.of_nat (length (ends s)) - 1)) with (pred (length (ends s))) in Hbelow by lia.
    specialize (Hbelow Hlast). specialize (Hpos p1). rewrite Ef in Hpos.
    specialize (Hpos ltac:(left)). lia. }
  assert (Hpos' : ∀ f l, (∀ p, p ∈ f → p ∈ p1 :: f') →
            positions_in_shard (set_last l (set_first f (set_fileIdx j s)))).
  { intros f l Hsub. exists elast. split; [exact Hlast|]. simpl.
    intros p Hp. apply Hpos. rewrite Ef. auto. }
  destruct (decide (uint32 (p1 + dist) < p2)).
  { apply IH; simpl; [rewrite El; simpl; lia | lia |].
    apply (Hpos' f' (last s)). intros p Hp. right. exact Hp. }
  destruct (decide (uint32 (p1 + dist) > p2)).
  { apply IH; simpl; [rewrite Ef; simpl; lia | lia |].
    apply (Hpos' (first s) l'). intros p Hp. rewrite <- Ef. exact Hp. }
  simpl. destruct (index_in_range (ends s) j ltac:(lia)) as [e He]. rewrite He. simpl.
  destruct (decide (uint32 (p1 + uint32 (patLen s)) >= e)).
  { apply IH; simpl; [lia | lia |].
    apply (Hpos' f' l'). intros p Hp. right. exact Hp. }
  destruct (decide (j > 0)).
  - destruct (index_in_range (ends s) (j - 1) ltac:(lia)) as [e' He']. rewrite He'. simpl.
    apply IH; simpl; [lia | lia |].
    apply (Hpos' f' l'). intros p Hp. right. exact Hp.
  - simpl. apply IH; simpl; [lia | lia |].
    apply (Hpos' f' l'). intros p Hp. right. exact Hp.
Qed.

Lemma emitted_from_order (ends : list Z) (patLen p q : Z) (c d : candidateMatch) :
  Forall is_uint32 ends → len ends ≤ 2 ^ 32 → is_uint32 p → is_uint32 q →
  p ≤ q →
  emitted_from ends patLen p c → emitted_from ends patLen q d →
  file c ≤ file d ∧ (file c = file d → offset c ≤ offset d).
Proof.
  intros Hends Hlen Hp Hq Hpq (j & e & Hc & _ & Hfc & Hoc) (j' & e' & Hd & _ & Hfd & Hod).
  destruct Hc as (Hj0 & He & Hpe & Hbelow). destruct Hd as (Hj0' & He' & Hqe & Hbelow').
  assert (Hjj : j ≤ j').
  { destruct (decide (j ≤ j')) as [|Hn]; [assumption|].
    specialize (Hbelow j' e' ltac:(lia) He'). lia. }
  assert (Hjr : is_uint32 j).
  { apply lookup_lt_Some in He. unfold is_uint32, len in *. lia. }
  assert (Hjr' : is_uint32 j').
  { apply lookup_lt_Some in He'. unfold is_uint32, len in *. lia. }
  rewrite Hfc, Hfd, !uint32_small by assumption. split; [exact Hjj|].
  intros <-. rewrite Hoc, Hod.
  assert (Hstart : 0 ≤ doc_start ends j ≤ p).
  { unfold doc_start. destruct (decide (j > 0)); [|unfold is_uint32 in Hp; lia].
    destruct (ends !! Z.to_nat (j - 1)) as [e0|] eqn:E0; simpl.
    - split.
      + rewrite Forall_forall in Hends.
        assert (He0 : is_uint32 e0) by (apply Hends, list_elem_of_lookup; eauto).
        unfold is_uint32 in He0. lia.
      + apply (Hbelow (j - 1) e0); [lia | exact E0].
    - unfold is_uint32 in Hp. lia. }
  rewrite !uint32_small; unfold is_uint32 in *; lia.
Qed.

Lemma fresh_cursor_ok (s : docIterator) : fileIdx s = 0 → cursor_ok s.
Proof. intros H. split; [lia | intros; lia]. Qed.

(** C4.  Take a scanner state whose cursor has only passed documents
    that end at or before the remaining positions (a fresh cursor, at
    document 0, is one) and whose first position list is ascending.  The
    candidates that [docIterator.next] returns are in non-decreasing
    document-index order and, within a document, in non-decreasing offset
    order; and [next] returns whenever every position of the first list
    lies in the shard. *)
Theorem next_monotone (toLower : list Z → list Z) (s : docIterator) :
  cursor_ok s →
  ascending (first s) →
  Forall is_uint32 (first s) → Forall is_uint32 (ends s) → len (ends s) ≤ 2 ^ 32 →
  (fileIdx s < len (ends s) → positions_in_shard s → ∃ r, next toLower s = Done r)
  ∧ ∀ (cands : list candidateMatch) (s' : docIterator),
      next toLower s = Done (cands, s') →
      ∀ (i j : nat) (c d : candidateMatch),
        (i < j)%nat → cands !! i = Some c → cands !! j = Some d →
        file c ≤ file d ∧ (file c = file d → offset c ≤ offset d).
Proof.
  intros Hcur Hasc Hfirst Hends Hlen. split.
  - intros Hidx Hpos. unfold next. apply next_loop_returns; [lia | | exact Hpos].
    destruct Hcur as [H0 _]. lia.
  - intros cands s' Hrun i j c d Hij Hc Hd. unfold next in Hrun.
    apply next_loop_emits in Hrun; [| exact Hcur | exact Hasc | exact Hends].
    destruct Hrun as (ps & new & -> & Hsub & Hall). simpl in Hc, Hd.
    destruct (Forall2_lookup_r _ _ _ _ _ Hall Hc) as (p & Hp & Hpc).
    destruct (Forall2_lookup_r _ _ _ _ _ Hall Hd) as (q & Hq & Hqd).
    assert (Hps : ascending ps) by (eapply ascending_sublist; eauto).
    assert (Hin : ∀ x, x ∈ ps → is_uint32 x).
    { intros x Hx. rewrite Forall_forall in Hfirst. apply Hfirst.
      eapply elem_of_sublist; eauto. }
    apply (emitted_from_order (ends s) (patLen s) p q); auto.
    + apply Hin, list_elem_of_lookup; eauto.
    + apply Hin, list_elem_of_lookup; eauto.
    + apply (Hps i j); auto.
Qed.

Lemma next_loop_equal_heads (fuel : nat) (pb lb : list Z) (dist : Z) (s : docIterator)
    (acc : list candidateMatch) (p1 p2 : Z) (f' l' : list Z) (j e : Z) :
  first s = p1 :: f' → last s = p2 :: l' →
  uint32 (p1 + dist) = p2 →
  0 ≤ fileIdx s → current_doc (ends s) (fileIdx s) p1 j e →
  Forall is_uint32 (ends s) → is_uint32 (patLen s) → 0 ≤ p1 →
  p1 + patLen s < 2 ^ 32 →
  next_loop (S fuel) pb lb dist s acc =
  next_loop fuel pb lb dist (set_last l' (set_first f' (set_fileIdx j s)))
    (if decide (p1 + patLen s >= e) then acc
     else acc ++ [ {| query := it_query s; substrBytes := pb; lowered := lb;
                      caseMask := None; caseBits := None;
                      file := uint32 j;
                      offset := uint32 (p1 - doc_start (ends s) j) |} ]).
Proof.
  intros Ef El Heq Hidx (Hij & He & Hpe & Hbelow) Hends Hpat Hp1 Hfit.
  simpl. rewrite Ef, El.
  destruct (skip_documents_spec (length (ends s)) (ends s) (fileIdx s) p1 Hidx
              ltac:(unfold len; lia)) as (j' & Hj' & Hij' & _ & Hbelow' & Habove').
  assert (j' = j) as ->.
  { destruct (decide (j' < j)) as [Hlt|Hnlt].
    - destruct (lookup_lt_is_Some_2 (ends s) (Z.to_nat j')) as [e' He'].
      { apply lookup_lt_Some in He. lia. }
      specialize (Hbelow j' e' ltac:(lia) He'). specialize (Habove' e' He'). lia.
    - destruct (decide (j < j')) as [Hgt|Hngt]; [|lia].
      specialize (Hbelow' j e ltac:(lia) He). lia. }
  rewrite Hj'. simpl.
  rewrite !decide_False by lia. simpl.
  assert (Hje : index (ends s) j = Done e) by (apply index_Done; split; [lia | exact He]).
  rewrite Hje. simpl.
  rewrite (uint32_small (patLen s)) by exact Hpat.
  rewrite (uint32_small (p1 + patLen s)) by (unfold is_uint32 in *; lia).
  destruct (decide (p1 + patLen s >= e)) as [Hout|Hin]; [reflexivity|].
  destruct (decide (j > 0)) as [Hpos|Hzero].
  - destruct (index_in_range (ends s) (j - 1)) as [e' He'].
    { apply lookup_lt_Some in He. unfold len. lia. }
    rewrite He'. simpl. apply index_Done in He' as [_ He'].
    unfold doc_start. rewrite decide_True by lia. rewrite He'. simpl.
    rewrite Z.add_0_l, (uint32_small e'); [reflexivity|].
    rewrite Forall_forall in Hends. apply Hends, list_elem_of_lookup. eauto.
  - simpl. unfold doc_start. rewrite decide_False by lia. reflexivity.
Qed.

Lemma emitted_from_fits (ends : list Z) (patLen p : Z) (c : candidateMatch) :
  Forall is_uint32 ends → len ends ≤ 2 ^ 32 → is_uint32 p → is_uint32 patLen →
  p + patLen < 2 ^ 32 →
  emitted_from ends patLen p c →
  ∃ e, ends !! Z.to_nat (file c) = Some e
       ∧ 0 ≤ offset c
       ∧ offset c + patLen < doc_length ends (file c) e.
Proof.
  intros Hends Hlen Hp Hpat Hfit (j & e & (Hj0 & He & Hpe & Hbelow) & Hin & Hfc & Hoc).
  assert (Hjr : is_uint32 j).
  { apply lookup_lt_Some in He. unfold is_uint32, len in *. lia. }
  rewrite Hfc, Hoc, (uint32_small j) by exact Hjr.
  rewrite (uint32_small patLen), (uint32_small (p + patLen)) in Hin
    by (unfold is_uint32 in *; lia).
  assert (Hstart : 0 ≤ doc_start ends j ≤ p).
  { unfold doc_start. destruct (decide (j > 0)); [|unfold is_uint32 in Hp; lia].
    destruct (ends !! Z.to_nat (j - 1)) as [e0|] eqn:E0; simpl.
    - split.
      + rewrite Forall_forall in Hends.
        assert (He0 : is_uint32 e0) by (apply Hends, list_elem_of_lookup; eauto).
        unfold is_uint32 in He0. lia.
      + apply (Hbelow (j - 1) e0); [lia | exact E0].
    - unfold is_uint32 in Hp. lia. }
  exists e. unfold doc_length.
  rewrite uint32_small by (unfold is_uint32 in *; lia).
  split; [exact He | lia].
Qed.

(** C3, as amended.  Take a scanner state whose cursor has only passed
    documents that end at or before the remaining positions (a fresh cursor
    is one), an ascending first list, and positions [p] for which
    [p + patLen] stays below 2^32.  Then (a) a turn of the loop that finds
    equal adjusted heads advances both lists and the cursor to the current
    document [j] of [p1], and it discards the candidate exactly when
    [p1 + patLen >= e], the exclusive end of that document; otherwise it
    appends the candidate of document [j] at offset [p1 - doc_start j];
    (b) every candidate that [next] returns lies in a document of the shard,
    and its end offset [offset + patLen] stays below the length of that
    document; (c) [next] returns whenever the positions lie in the shard. *)
Theorem next_keeps_candidates_in_document (toLower : list Z → list Z) (s : docIterator) :
  cursor_ok s →
  ascending (first s) →
  Forall is_uint32 (first s) → Forall is_uint32 (ends s) → len (ends s) ≤ 2 ^ 32 →
  is_uint32 (patLen s) →
  (∀ p, p ∈ first s → p + patLen s < 2 ^ 32) →
  (∀ (fuel : nat) (acc : list candidateMatch) (p1 p2 : Z) (f' l' : list Z) (j e : Z),
      let pb := Pattern (it_query s) in
      let dist := uint32 (patLen s - NGRAM) in
      first s = p1 :: f' → last s = p2 :: l' →
      uint32 (p1 + dist) = p2 →
      current_doc (ends s) (fileIdx s) p1 j e →
      next_loop (S fuel) pb (toLower pb) dist s acc =
      next_loop fuel pb (toLower pb) dist (set_last l' (set_first f' (set_fileIdx j s)))
        (if decide (p1 + patLen s >= e) then acc
         else acc ++ [ {| query := it_query s; substrBytes := pb; lowered := toLower pb;
                          caseMask := None; caseBits := None;
                          file := uint32 j;
                          offset := uint32 (p1 - doc_start (ends s) j) |} ]))
  ∧ (∀ (cands : list candidateMatch) (s' : docIterator),
      next toLower s = Done (cands, s') →
      Forall (fun c => ∃ e, ends s !! Z.to_nat (file c) = Some e
                            ∧ 0 ≤ offset c
                            ∧ offset c + patLen s < doc_length (ends s) (file c) e) cands)
  ∧ (fileIdx s < len (ends s) → positions_in_shard s → ∃ r, next toLower s = Done r).
Proof.
  intros Hcur Hasc Hfirst Hends Hlen Hpat Hfit. split; [|split].
  - intros fuel acc p1 p2 f' l' j e pb dist Ef El Heq Hdoc.
    assert (Hp1 : p1 ∈ first s) by (rewrite Ef; left).
    apply (next_loop_equal_heads fuel pb (toLower pb) dist s acc p1 p2 f' l' j e); auto.
    + apply Hcur.
    + rewrite Forall_forall in Hfirst. apply Hfirst in Hp1. unfold is_uint32 in Hp1. lia.
  - intros cands s' Hrun. unfold next in Hrun.
    apply next_loop_emits in Hrun; auto.
    destruct Hrun as (ps & new & -> & Hsub & Hall). simpl.
    apply Forall_forall. intros c Hc.
    apply list_elem_of_lookup in Hc as [i Hc].
    destruct (Forall2_lookup_r _ _ _ _ _ Hall Hc) as (p & Hp & Hpc).
    assert (Hpin : p ∈ first s).
    { eapply elem_of_sublist; [|exact Hsub]. apply list_elem_of_lookup. eauto. }
    apply (emitted_from_fits (ends s) (patLen s) p c); auto.
    rewrite Forall_forall in Hfirst. auto.
  - intros Hidx Hpos. unfold next.
    apply next_loop_returns; [lia | | exact Hpos].
    destruct Hcur as [H0 _]. lia.
Qed.

Lemma ascending_nil : ascending [].
Proof. intros i j x y _ H. rewrite lookup_nil in H. discriminate. Qed.

(** Discharges [ascending l] for a list of numerals. *)
Ltac solve_ascending :=
  repeat (apply ascending_cons_intro;
          [| intros ? ?;
             repeat match goal with
                    | H : _ ∈ _ :: _ |- _ => apply elem_of_cons in H as [->|H]
                    | H : _ ∈ [] |- _ => apply not_elem_of_nil in H; destruct H
                    end; lia ]);
  apply ascending_nil.

Ltac solve_uint32s := repeat constructor; unfold is_uint32; lia.

Lemma scan_example_in_shard : positions_in_shard scan_example.
Proof.
  exists 20. split; [reflexivity|]. simpl. intros p Hp.
  repeat match goal with
         | H : _ ∈ _ :: _ |- _ => apply elem_of_cons in H as [->|H]
         | H : _ ∈ [] |- _ => apply not_elem_of_nil in H; destruct H
         end; lia.
Qed.

Lemma next_keeps_candidates_in_document_witness :
  ∃ (cands : list candidateMatch) (s' : docIterator),
    next (fun b => b) scan_example = Done (cands, s')
    ∧ map (fun c => (file c, offset c)) cands = [(0, 0); (0, 4); (1, 2)]
    ∧ Forall (fun c => ∃ e, ends scan_example !! Z.to_nat (file c) = Some e
                            ∧ 0 ≤ offset c
                            ∧ offset c + patLen scan_example
                              < doc_length (ends scan_example) (file c) e) cands.
Proof.
  eexists _, _. split; [vm_compute; reflexivity|]. split; [reflexivity|].
  refine (proj1 (proj2 (next_keeps_candidates_in_document (fun b => b) scan_example
                          _ _ _ _ _ _ _)) _ _ _).
  - apply fresh_cursor_ok. reflexivity.
  - simpl. solve_ascending.
  - simpl. solve_uint32s.
  - simpl. solve_uint32s.
  - vm_compute. discriminate.
  - unfold is_uint32. simpl. lia.
  - simpl. intros p Hp.
    repeat match goal with
           | H : _ ∈ _ :: _ |- _ => apply elem_of_cons in H as [->|H]
           | H : _ ∈ [] |- _ => apply not_elem_of_nil in H; destruct H
           end; lia.
  - vm_compute. reflexivity.
Defined.

(** C3 as stated fails when [p1 + patLen] wraps around 2^32.  In a shard
    of one document of 2^32 - 1 bytes, for a seven-byte pattern whose first
    trigram occurs at 2^32 - 4 and whose last trigram occurs at 0 (both
    trigrams lie in the shard), the adjusted heads are equal, [p1 + patLen]
    is at least the document end, and still the candidate is emitted, ending
    past the end of the document. *)
Lemma next_emits_past_document_end :
  let s := {| it_query := {| Pattern := [97; 98; 99; 100; 101; 102; 103];
                             CaseSensitive := false |};
              patLen := 7;
              first := [4294967292];
              last := [0];
              fileIdx := 0;
              ends := [4294967295] |} in
  ascending (first s) ∧ ascending (last s) ∧ ascending (ends s)
  ∧ Forall (fun p => 0 ≤ p ∧ p + NGRAM ≤ 4294967295) (first s ++ last s)
  ∧ uint32 (4294967292 + uint32 (patLen s - NGRAM)) = 0
  ∧ 4294967292 + patLen s >= 4294967295
  ∧ ∃ (c : candidateMatch) (s' : docIterator),
      next (fun b => b) s = Done ([c], s')
      ∧ file c = 0 ∧ offset c = 4294967292
      ∧ offset c + patLen s > doc_length (ends s) 0 4294967295.
Proof.
  simpl. split; [solve_ascending|]. split; [solve_ascending|]. split; [solve_ascending|].
  split; [repeat constructor; unfold NGRAM; lia|].
  split; [reflexivity|]. split; [lia|].
  eexists _, _. split; [vm_compute; reflexivity|]. simpl.
  split; [reflexivity|]. split; [reflexivity|]. vm_compute. reflexivity.
Qed.

Lemma next_monotone_witness :
  ∃ (cands : list candidateMatch) (s' : docIterator),
    next (fun b => b) scan_example = Done (cands, s')
    ∧ map (fun c => (file c, offset c)) cands = [(0, 0); (0, 4); (1, 2)]
    ∧ ∀ (i j : nat) (c d : candidateMatch),
        (i < j)%nat → cands !! i = Some c → cands !! j = Some d →
        file c ≤ file d ∧ (file c = file d → offset c ≤ offset d).
Proof.
  eexists _, _. split; [vm_compute; reflexivity|]. split; [reflexivity|].
  refine (proj2 (next_monotone (fun b => b) scan_example _ _ _ _ _) _ _ _).
  - apply fresh_cursor_ok. reflexivity.
  - simpl. solve_ascending.
  - simpl. solve_uint32s.
  - simpl. solve_uint32s.
  - vm_compute. discriminate.
  - vm_compute. reflexivity.
Defined.

(** *** What the scanner leaves, and what it finds *)

Lemma next_loop_shape (fuel : nat) (pb lb : list Z) (dist : Z) (s : docIterator)
    (acc cands : list candidateMatch) (s' : docIterator) :
  next_loop fuel pb lb dist s acc = Done (cands, s') →
  (first s' = [] ∨ last s' = [])
  ∧ ends s' = ends s ∧ patLen s' = patLen s ∧ it_query s' = it_query s
  ∧ ∃ new, cands = acc ++ new
      ∧ (length new ≤ length (first s))%nat ∧ (length new ≤ length (last s))%nat
      ∧ Forall (fun c => query c = it_query s ∧ substrBytes c = pb ∧ lowered c = lb
                         ∧ caseMask c = None ∧ caseBits c = None
                         ∧ is_uint32 (offset c)) new.
Proof.
  revert s acc. induction fuel as [|fuel IH]; intros s acc Hrun.
  - simpl in Hrun. destruct (first s) as [|p1 f'] eqn:Ef.
    + injection Hrun as <- <-. rewrite Ef. repeat split; auto.
      exists []. rewrite app_nil_r. repeat split; auto; simpl; lia.
    + destruct (last s) as [|p2 l'] eqn:El; [|discriminate].
      injection Hrun as <- <-. rewrite El. repeat split; auto.
      exists []. rewrite app_nil_r. repeat split; auto; simpl; lia.
  - simpl in Hrun. destruct (first s) as [|p1 f'] eqn:Ef.
    { injection Hrun as <- <-. rewrite Ef. repeat split; auto.
      exists []. rewrite app_nil_r. repeat split; auto; simpl; lia. }
    destruct (last s) as [|p2 l'] eqn:El.
    { injection Hrun as <- <-. rewrite El. repeat split; auto.
      exists []. rewrite app_nil_r. repeat split; auto; simpl; lia. }
    destruct (skip_documents (length (ends s)) (ends s) (fileIdx s) p1) as [j| |];
      try discriminate.
    simpl in Hrun.
    destruct (decide (uint32 (p1 + dist) < p2)).
    { apply IH in Hrun. simpl in Hrun. rewrite El in Hrun.
      destruct Hrun as (Hd & He & Hp & Hq & new & -> & Hl1 & Hl2 & Hall).
      repeat split; auto. exists new. simpl in *. repeat split; auto; lia. }
    destruct (decide (uint32 (p1 + dist) > p2)).
    { apply IH in Hrun. simpl in Hrun. rewrite Ef in Hrun.
      destruct Hrun as (Hd & He & Hp & Hq & new & -> & Hl1 & Hl2 & Hall).
      repeat split; auto. exists new. simpl in *. repeat split; auto; lia. }
    simpl in Hrun.
    destruct (index (ends s) j) as [e| |]; try discriminate. simpl in Hrun.
    destruct (decide (uint32 (p1 + uint32 (patLen s)) >= e)).
    { apply IH in Hrun. simpl in Hrun.
      destruct Hrun as (Hd & He & Hp & Hq & new & -> & Hl1 & Hl2 & Hall).
      repeat split; auto. exists new. simpl in *. repeat split; auto; lia. }
    destruct (if decide (j > 0) then do e' <- index (ends s) (j - 1); Done (uint32 (0 + e'))
              else Done 0) as [fileStart| |]; try discriminate.
    simpl in Hrun. apply IH in Hrun. simpl in Hrun.
    destruct Hrun as (Hd & He & Hp & Hq & new & -> & Hl1 & Hl2 & Hall).
    repeat split; auto. eexists (_ :: new). rewrite <- app_assoc. simpl.
    split; [reflexivity|]. split; [lia|]. split; [lia|].
    constructor; [|exact Hall]. simpl.
    refine (conj eq_refl (conj eq_refl (conj eq_refl (conj eq_refl (conj eq_refl _))))).
    apply uint32_is_uint32.
Qed.

(** [next] runs the two position lists until one of them is empty.  The
    scanner it leaves holds the same pattern and document ends, and gives no
    candidate when it is asked again; the candidates are at most as many as
    the shorter list has positions, and every one of them carries the query,
    its pattern and the lower-cased pattern, and no case masks yet. *)
Theorem next_drains_the_lists (toLower : list Z → list Z) (s : docIterator)
    (cands : list candidateMatch) (s' : docIterator) :
  next toLower s = Done (cands, s') →
  (first s' = [] ∨ last s' = [])
  ∧ next toLower s' = Done ([], s')
  ∧ (length cands ≤ length (first s))%nat ∧ (length cands ≤ length (last s))%nat
  ∧ Forall (carries_pattern toLower s) cands
  ∧ ends s' = ends s ∧ patLen s' = patLen s ∧ it_query s' = it_query s.
Proof.
  intros Hrun. unfold next in Hrun. apply next_loop_shape in Hrun.
  destruct Hrun as (Hd & He & Hp & Hq & new & -> & Hl1 & Hl2 & Hall). simpl.
  split; [exact Hd|]. split.
  { unfold next. simpl. destruct Hd as [-> | Hl].
    - reflexivity.
    - rewrite Hl. destruct (first s'); reflexivity. }
  split; [exact Hl1|]. split; [exact Hl2|]. split; [|auto].
  eapply Forall_impl; [exact Hall|].
  intros c (H1 & H2 & H3 & H4 & H5 & _). repeat split; assumption.
Qed.

Lemma next_drains_the_lists_witness :
  ∃ (cands : list candidateMatch) (s' : docIterator),
    next (fun b => b) scan_example = Done (cands, s')
    ∧ (first s' = [] ∨ last s' = [])
    ∧ next (fun b => b) s' = Done ([], s')
    ∧ (length cands ≤ 4)%nat ∧ (length cands ≤ 4)%nat
    ∧ Forall (carries_pattern (fun b => b) scan_example) cands
    ∧ ends s' = [10; 20] ∧ patLen s' = 5 ∧ it_query s' = it_query scan_example.
Proof.
  eexists _, _. split; [vm_compute; reflexivity|].
  eapply (next_drains_the_lists (fun b => b) scan_example). vm_compute. reflexivity.
Defined.

Lemma next_loop_ends (fuel : nat) (pb lb : list Z) (dist : Z) (s : docIterator)
    (acc : list candidateMatch) :
  (length (first s) + length (last s) < fuel)%nat →
  next_loop fuel pb lb dist s acc ≠ OutOfFuel.
Proof.
  revert s acc. induction fuel as [|fuel IH]; intros s acc Hfuel; [lia|].
  simpl. destruct (first s) as [|p1 f'] eqn:Ef; [discriminate|].
  destruct (last s) as [|p2 l'] eqn:El; [discriminate|].
  simpl in Hfuel.
  assert (Hskip : skip_documents (length (ends s)) (ends s) (fileIdx s) p1 ≠ OutOfFuel).
  { destruct (decide (0 ≤ fileIdx s)) as [Hnn|Hneg].
    - destruct (skip_documents_spec (length (ends s)) (ends s) (fileIdx s) p1 Hnn
                  ltac:(unfold len; lia)) as (j & -> & _). discriminate.
    - destruct (length (ends s)); simpl;
        rewrite decide_True by (unfold len; lia);
        rewrite index_out_of_range by lia; discriminate. }
  destruct (skip_documents (length (ends s)) (ends s) (fileIdx s) p1) as [j| |];
    [| discriminate | contradiction].
  simpl.
  destruct (decide (uint32 (p1 + dist) < p2)).
  { apply IH. simpl. rewrite El. simpl. lia. }
  destruct (decide (uint32 (p1 + dist) > p2)).
  { apply IH. simpl. rewrite Ef. simpl. lia. }
  simpl.
  assert (Hindex : ∀ i, index (ends s) i ≠ OutOfFuel).
  { intros i. unfold index. destruct (decide (0 ≤ i)); [|discriminate].
    destruct (ends s !! Z.to_nat i); discriminate. }
  destruct (index (ends s) j) as [e| |] eqn:He;
    [| discriminate | destruct (Hindex j He)].
  simpl. destruct (decide (uint32 (p1 + uint32 (patLen s)) >= e)).
  { apply IH. simpl. lia. }
  destruct (decide (j > 0)).
  - destruct (index (ends s) (j - 1)) as [e'| |] eqn:He';
      [| discriminate | destruct (Hindex (j - 1) He')].
    simpl. apply IH. simpl. lia.
  - simpl. apply IH. simpl. lia.
Qed.

(** The loop of [next] ends.  Every turn takes a position off one of the
    two lists at least, so the loop makes at most
    [len(first) + len(last)] turns, and the skipping of documents at most
    [len(ends)] steps in each: whatever the scanner, [next] returns or
    panics. *)
Theorem next_always_ends (toLower : list Z → list Z) (s : docIterator) :
  (∃ r, next toLower s = Done r) ∨ next toLower s = Panic.
Proof.
  pose proof (next_loop_ends (S (length (first s) + length (last s)))
                (Pattern (it_query s)) (toLower (Pattern (it_query s)))
                (uint32 (patLen s - NGRAM)) s [] ltac:(lia)) as Hends.
  unfold next. destruct (next_loop _ _ _ _ s []) as [r| |]; [eauto | auto | contradiction].
Qed.

(** [next] panics on an occurrence that lies past the last document.  When
    the heads of the two lists are one occurrence of the pattern and no
    document ends after its first trigram, the cursor has run through every
    document and [s.ends[s.fileIdx]] is out of range. *)
Theorem next_panics_past_the_shard (toLower : list Z → list Z) (s : docIterator)
    (p1 p2 : Z) (f' l' : list Z) :
  first s = p1 :: f' → last s = p2 :: l' →
  uint32 (p1 + uint32 (patLen s - NGRAM)) = p2 →
  (∀ e, e ∈ ends s → e ≤ p1) →
  next toLower s = Panic.
Proof.
  intros Ef El Heq Hends. unfold next. rewrite Ef, El.
  cbn [next_loop length]. rewrite Ef, El.
  assert (Hskip : skip_documents (length (ends s)) (ends s) (fileIdx s) p1 = Panic
                  ∨ ∃ j, skip_documents (length (ends s)) (ends s) (fileIdx s) p1 = Done j
                         ∧ index (ends s) j = Panic).
  { destruct (decide (fileIdx s < 0)) as [Hneg|Hnn].
    - left. destruct (length (ends s)) as [|n]; simpl.
      + rewrite decide_True by (unfold len; lia).
        unfold index. rewrite decide_False by lia. reflexivity.
      + rewrite decide_True by (unfold len; lia).
        unfold index. rewrite decide_False by lia. reflexivity.
    - right. destruct (decide (fileIdx s < len (ends s))) as [Hlt|Hge].
      + destruct (skip_documents_spec (length (ends s)) (ends s) (fileIdx s) p1
                    ltac:(lia) ltac:(unfold len; lia)) as (j & Hj & Hij & _ & _ & Habove).
        exists j. split; [exact Hj|].
        unfold index. destruct (decide (0 ≤ j)); [|reflexivity].
        destruct (ends s !! Z.to_nat j) as [e|] eqn:Ee; [|reflexivity].
        specialize (Habove e eq_refl).
        specialize (Hends e ltac:(apply list_elem_of_lookup; eauto)). lia.
      + exists (fileIdx s). split.
        * destruct (length (ends s)); simpl; rewrite decide_False by exact Hge; reflexivity.
        * unfold index. destruct (decide (0 ≤ fileIdx s)); [|reflexivity].
          rewrite lookup_ge_None_2; [reflexivity|]. unfold len in Hge. lia. }
  destruct Hskip as [->|(j & -> & Hj)]; [reflexivity|].
  cbn [obind]. rewrite !decide_False by lia. simpl. rewrite Hj. reflexivity.
Qed.

Lemma next_panics_past_the_shard_witness :
  next (fun b => b)
    {| it_query := {| Pattern := [97; 98; 99; 100; 101]; CaseSensitive := false |};
       patLen := 5; first := [12]; last := [14]; fileIdx := 0; ends := [10] |} = Panic.
Proof.
  apply (next_panics_past_the_shard (fun b => b) _ 12 14 [] []).
  - reflexivity.
  - reflexivity.
  - reflexivity.
  - simpl. intros e He. apply list_elem_of_singleton in He as ->. lia.
Defined.

Lemma next_loop_sound (fuel : nat) (pb lb : list Z) (dist : Z) (s : docIterator)
    (acc cands : list candidateMatch) (s' : docIterator) :
  cursor_ok s → ascending (first s) → Forall is_uint32 (ends s) →
  next_loop fuel pb lb dist s acc = Done (cands, s') →
  ∃ new, cands = acc ++ new
    ∧ Forall (fun c => ∃ p, p ∈ first s ∧ uint32 (p + dist) ∈ last s
                            ∧ emitted_from (ends s) (patLen s) p c) new.
Proof.
  revert s acc. induction fuel as [|fuel IH]; intros s acc Hinv Hasc Hends Hrun.
  - simpl in Hrun. destruct (first s) as [|p1 f'] eqn:Ef.
    + injection Hrun as <- <-. exists []. rewrite app_nil_r. auto.
    + destruct (last s) as [|p2 l'] eqn:El; [|discriminate].
      injection Hrun as <- <-. exists []. rewrite app_nil_r. auto.
  - simpl in Hrun. destruct (first s) as [|p1 f'] eqn:Ef.
    { injection Hrun as <- <-. exists []. rewrite app_nil_r. auto. }
    destruct (last s) as [|p2 l'] eqn:El.
    { injection Hrun as <- <-. exists []. rewrite app_nil_r. auto. }
    destruct Hinv as [Hidx Hpassed].
    destruct (ascending_cons _ _ Hasc) as [Hasc' Hhead].
    destruct (skip_documents_spec (length (ends s)) (ends s) (fileIdx s) p1 Hidx
                ltac:(unfold len; lia)) as (j & Hj & Hij & _ & Hbelow & Habove).
    rewrite Hj in Hrun. simpl in Hrun.
    assert (Hinv' : ∀ f l, (∀ p, p ∈ f → p = p1 ∨ p ∈ f') →
              cursor_ok (set_last l (set_first f (set_fileIdx j s)))).
    { intros f l Hsub. split; simpl; [lia|].
      intros k e p Hk He Hp. apply Hsub in Hp.
      destruct (decide (k < fileIdx s)) as [Hlt|Hge].
      - apply (Hpassed k e p); [lia | exact He |].
        rewrite Ef. apply elem_of_cons. exact Hp.
      - specialize (Hbelow k e ltac:(lia) He).
        destruct Hp as [->|Hp]; [lia|]. specialize (Hhead p Hp). lia. }
    assert (Hweaken : ∀ (f l : list Z) (new : list candidateMatch),
              (∀ p, p ∈ f → p ∈ p1 :: f') → (∀ q, q ∈ l → q ∈ p2 :: l') →
              Forall (fun c => ∃ p, p ∈ f ∧ uint32 (p + dist) ∈ l
                                    ∧ emitted_from (ends s) (patLen s) p c) new →
              Forall (fun c => ∃ p, p ∈ p1 :: f' ∧ uint32 (p + dist) ∈ p2 :: l'
                                    ∧ emitted_from (ends s) (patLen s) p c) new).
    { intros f l new Hf Hl Hall. eapply Forall_impl; [exact Hall|].
      intros c (p & Hp & Hq & Hc). exists p. auto. }
    destruct (decide (uint32 (p1 + dist) < p2)) as [Hlt|Hnlt].
    { apply IH in Hrun; [| apply (Hinv' f' (last s)); auto | exact Hasc' | exact Hends].
      destruct Hrun as (new & -> & Hall). simpl in Hall. rewrite El in Hall.
      exists new. split; [reflexivity|].
      apply (Hweaken f' (p2 :: l')); auto. intros p Hp. right. exact Hp. }
    destruct (decide (uint32 (p1 + dist) > p2)) as [Hgt|Hngt].
    { apply IH in Hrun; [| | simpl; rewrite Ef; exact Hasc | exact Hends].
      - destruct Hrun as (new & -> & Hall). simpl in Hall. rewrite Ef in Hall.
        exists new. split; [reflexivity|].
        apply (Hweaken (p1 :: f') l'); auto. intros q Hq. right. exact Hq.
      - apply (Hinv' (first s) l'). intros p Hp. rewrite Ef in Hp.
        apply elem_of_cons in Hp. exact Hp. }
    simpl in Hrun.
    destruct (index (ends s) j) as [e| |] eqn:He; simpl in Hrun; try discriminate.
    apply index_Done in He as [_ He].
    destruct (decide (uint32 (p1 + uint32 (patLen s)) >= e)) as [Hout|Hin].
    { apply IH in Hrun; [| apply (Hinv' f' l'); auto | exact Hasc' | exact Hends].
      destruct Hrun as (new & -> & Hall). simpl in Hall.
      exists new. split; [reflexivity|].
      apply (Hweaken f' l'); auto; intros x Hx; right; exact Hx. }
    assert (Hcur : current_doc (ends s) 0 p1 j e).
    { repeat split; [lia | exact He | apply Habove; exact He |].
      intros k e' Hk He'. destruct (decide (k < fileIdx s)) as [Hlt'|Hge].
      - apply (Hpassed k e' p1); [lia | exact He' | rewrite Ef; left].
      - apply (Hbelow k e'); [lia | exact He']. }
    assert (Hfs : (if decide (j > 0) then
                     do e' <- index (ends s) (j - 1); Done (uint32 (0 + e'))
                   else Done 0) = Done (doc_start (ends s) j)).
    { unfold doc_start. destruct (decide (j > 0)) as [Hpos|]; [|reflexivity].
      destruct (index_in_range (ends s) (j - 1)) as [e' He'].
      { apply lookup_lt_Some in He. unfold len. lia. }
      rewrite He'. simpl. apply index_Done in He' as [_ He']. rewrite He'. simpl.
      f_equal. apply uint32_small.
      rewrite Forall_forall in Hends. apply Hends.
      apply list_elem_of_lookup. eauto. }
    rewrite Hfs in Hrun. simpl in Hrun.
    apply IH in Hrun; [| apply (Hinv' f' l'); auto | exact Hasc' | exact Hends].
    destruct Hrun as (new & -> & Hall). simpl in Hall.
    eexists (_ :: new). split; [rewrite <- app_assoc; reflexivity|].
    constructor.
    + exists p1. split; [left|]. split; [replace (uint32 (p1 + dist)) with p2 by lia; left|].
      exists j, e. simpl. repeat split; try apply Hcur; auto. lia.
    + apply (Hweaken f' l'); auto; intros x Hx; right; exact Hx.
Qed.

(** [next] emits occurrences only.  For a scanner whose cursor has only
    passed documents that end at or before the remaining positions (a fresh
    one is such), over an ascending first list, every candidate comes from a
    position [p] of the first list whose partner [p + distance], taken in 32
    bits, is in the last list: it lies in the first document that ends after
    [p], at the offset of [p] in it, and the end of the pattern as the code
    computes it, [p + patLen] in 32 bits, is below the end of that document.
    When [p + patLen] does not overflow 32 bits (and the shard has at most
    2^32 documents), the pattern does end before the document does:
    [offset + patLen] is below the length of the document. *)
Theorem next_emits_only_occurrences (toLower : list Z → list Z) (s : docIterator)
    (cands : list candidateMatch) (s' : docIterator) :
  cursor_ok s → ascending (first s) → Forall is_uint32 (ends s) →
  next toLower s = Done (cands, s') →
  Forall (fun c =>
            ∃ p, p ∈ first s
                 ∧ uint32 (p + uint32 (patLen s - NGRAM)) ∈ last s
                 ∧ (∃ (j e : Z),
                      current_doc (ends s) 0 p j e
                      ∧ uint32 (p + uint32 (patLen s)) < e
                      ∧ file c = uint32 j
                      ∧ offset c = uint32 (p - doc_start (ends s) j))
                 ∧ (is_uint32 p → is_uint32 (patLen s) → len (ends s) ≤ 2 ^ 32 →
                    p + patLen s < 2 ^ 32 →
                    ∃ e, ends s !! Z.to_nat (file c) = Some e
                         ∧ 0 ≤ offset c
                         ∧ offset c + patLen s < doc_length (ends s) (file c) e))
    cands.
Proof.
  intros Hcur Hasc Hends Hrun. unfold next in Hrun.
  apply next_loop_sound in Hrun; auto.
  destruct Hrun as (new & -> & Hall). simpl.
  eapply Forall_impl; [exact Hall|].
  intros c (p & Hp & Hq & Hem). exists p.
  split; [exact Hp|]. split; [exact Hq|]. split; [exact Hem|].
  intros Hpu Hpat Hlen Hfit.
  apply (emitted_from_fits (ends s) (patLen s) p c); auto.
Qed.

Lemma next_emits_only_occurrences_witness :
  ∃ (cands : list candidateMatch) (s' : docIterator),
    next (fun b => b) scan_example = Done (cands, s')
    ∧ length cands = 3%nat
    ∧ Forall (fun c =>
                ∃ p, p ∈ first scan_example
                     ∧ uint32 (p + uint32 (patLen scan_example - NGRAM))
                       ∈ last scan_example
                     ∧ (∃ (j e : Z),
                          current_doc (ends scan_example) 0 p j e
                          ∧ uint32 (p + uint32 (patLen scan_example)) < e
                          ∧ file c = uint32 j
                          ∧ offset c = uint32 (p - doc_start (ends scan_example) j))
                     ∧ (is_uint32 p → is_uint32 (patLen scan_example) →
                        len (ends scan_example) ≤ 2 ^ 32 →
                        p + patLen scan_example < 2 ^ 32 →
                        ∃ e, ends scan_example !! Z.to_nat (file c) = Some e
                             ∧ 0 ≤ offset c
                             ∧ offset c + patLen scan_example
                               < doc_length (ends scan_example) (file c) e))
        cands.
Proof.
  destruct (next (fun b => b) scan_example) as [[cands s']| |] eqn:Erun;
    [| vm_compute in Erun; discriminate | vm_compute in Erun; discriminate].
  exists cands, s'. split; [reflexivity|]. split.
  - vm_compute in Erun. injection Erun as <- _. reflexivity.
  - apply (next_emits_only_occurrences (fun b => b) scan_example cands s').
    + apply fresh_cursor_ok. reflexivity.
    + simpl. solve_ascending.
    + simpl. solve_uint32s.
    + exact Erun.
Defined.

Lemma next_loop_complete (fuel : nat) (pb lb : list Z) (dist : Z) (s : docIterator)
    (acc cands : list candidateMatch) (s' : docIterator) :
  cursor_ok s → ascending (first s) → ascending (last s) →
  Forall is_uint32 (first s) → Forall is_uint32 (ends s) →
  0 ≤ dist → (∀ p, p ∈ first s → p + dist < 2 ^ 32) →
  next_loop fuel pb lb dist s acc = Done (cands, s') →
  ∀ p j e, p ∈ first s → (p + dist) ∈ last s →
    current_doc (ends s) 0 p j e → uint32 (p + uint32 (patLen s)) < e →
    ∃ c, c ∈ cands ∧ file c = uint32 j ∧ offset c = uint32 (p - doc_start (ends s) j).
Proof.
  revert s acc. induction fuel as [|fuel IH];
    intros s acc Hinv Hasc Hascl Hfirst Hends Hdist Hfit Hrun p j e Hp Hq Hdoc Hin.
  - simpl in Hrun. destruct (first s) as [|p1 f'] eqn:Ef.
    + apply not_elem_of_nil in Hp. destruct Hp.
    + destruct (last s) as [|p2 l'] eqn:El; [|discriminate].
      apply not_elem_of_nil in Hq. destruct Hq.
  - simpl in Hrun. destruct (first s) as [|p1 f'] eqn:Ef.
    { apply not_elem_of_nil in Hp. destruct Hp. }
    destruct (last s) as [|p2 l'] eqn:El.
    { apply not_elem_of_nil in Hq. destruct Hq. }
    destruct Hinv as [Hidx Hpassed].
    destruct (ascending_cons _ _ Hasc) as [Hasc' Hhead].
    destruct (ascending_cons _ _ Hascl) as [Hascl' Hheadl].
    pose proof (Forall_inv Hfirst) as Hp1. pose proof (Forall_inv_tail Hfirst) as Hfirst'.
    assert (Hw : uint32 (p1 + dist) = p1 + dist).
    { apply uint32_small. specialize (Hfit p1 ltac:(left)).
      unfold is_uint32 in *. lia. }
    destruct (skip_documents_spec (length (ends s)) (ends s) (fileIdx s) p1 Hidx
                ltac:(unfold len; lia)) as (j' & Hj' & Hij & _ & Hbelow & Habove).
    rewrite Hj', Hw in Hrun. simpl in Hrun.
    assert (Hinv' : ∀ f l, (∀ x, x ∈ f → x = p1 ∨ x ∈ f') →
              cursor_ok (set_last l (set_first f (set_fileIdx j' s)))).
    { intros f l Hsub. split; simpl; [lia|].
      intros k e0 x Hk He0 Hx. apply Hsub in Hx.
      destruct (decide (k < fileIdx s)) as [Hlt|Hge].
      - apply (Hpassed k e0 x); [lia | exact He0 |].
        rewrite Ef. apply elem_of_cons. exact Hx.
      - specialize (Hbelow k e0 ltac:(lia) He0).
        destruct Hx as [->|Hx]; [lia|]. specialize (Hhead x Hx). lia. }
    apply elem_of_cons in Hp. apply elem_of_cons in Hq.
    destruct (decide (p1 + dist < p2)) as [Hlt|Hnlt].
    { (* the head of the first list has no partner *)
      assert (Hp' : p ∈ f').
      { destruct Hp as [->|Hp]; [|exact Hp]. exfalso.
        destruct Hq as [Hq|Hq]; [lia|]. specialize (Hheadl _ Hq). lia. }
      apply (IH _ _ (Hinv' f' (last s) ltac:(auto))) with (p := p) (j := j) (e := e) in Hrun;
        simpl; auto.
      - rewrite El. exact Hascl.
      - intros x Hx. apply Hfit. right. exact Hx.
      - rewrite El. apply elem_of_cons. exact Hq. }
    destruct (decide (p1 + dist > p2)) as [Hgt|Hngt].
    { (* the head of the last list has no partner *)
      assert (Hq' : p + dist ∈ l').
      { destruct Hq as [Hq|Hq]; [|exact Hq]. exfalso.
        destruct Hp as [->|Hp]; [lia|]. specialize (Hhead _ Hp). lia. }
      apply (IH _ _ (Hinv' (first s) l' ltac:(intros x Hx; rewrite Ef in Hx;
                                              apply elem_of_cons in Hx; exact Hx)))
        with (p := p) (j := j) (e := e) in Hrun; simpl; auto.
      - rewrite Ef. exact Hasc.
      - rewrite Ef. exact Hfirst.
      - rewrite Ef. exact Hfit.
      - rewrite Ef. apply elem_of_cons. exact Hp. }
    simpl in Hrun.
    destruct (index (ends s) j') as [e'| |] eqn:He'; simpl in Hrun; try discriminate.
    destruct (decide (p = p1)) as [->|Hne].
    + (* the occurrence at the heads *)
      destruct Hdoc as (Hj0 & He & Hpe & Hbefore).
      assert (j' = j) as ->.
      { apply index_Done in He' as [Hj'0 He'].
        destruct (decide (j' < j)) as [Hlt'|Hnlt'].
        - specialize (Hbefore j' e' ltac:(lia) He'). specialize (Habove e' He'). lia.
        - destruct (decide (j < j')) as [Hgt'|Hngt']; [|lia]. exfalso.
          destruct (decide (j < fileIdx s)) as [Hpast|Hnpast].
          + specialize (Hpassed j e p1 ltac:(lia) He). rewrite Ef in Hpassed.
            specialize (Hpassed ltac:(left)). lia.
          + specialize (Hbelow j e ltac:(lia) He). lia. }
      apply index_Done in He' as [_ He']. rewrite He in He'. injection He' as <-.
      rewrite decide_False in Hrun by lia.
      assert (Hfs : (if decide (j > 0) then
                       do e0 <- index (ends s) (j - 1); Done (uint32 (0 + e0))
                     else Done 0) = Done (doc_start (ends s) j)).
      { unfold doc_start. destruct (decide (j > 0)) as [Hpos|]; [|reflexivity].
        destruct (index_in_range (ends s) (j - 1)) as [e0 He0].
        { apply lookup_lt_Some in He. unfold len. lia. }
        rewrite He0. simpl. apply index_Done in He0 as [_ He0]. rewrite He0. simpl.
        f_equal. apply uint32_small.
        rewrite Forall_forall in Hends. apply Hends.
        apply list_elem_of_lookup. eauto. }
      rewrite Hfs in Hrun. simpl in Hrun.
      apply next_loop_shape in Hrun.
      destruct Hrun as (_ & _ & _ & _ & new & -> & _).
      eexists. split.
      * apply elem_of_app. left. apply elem_of_app. right. left.
      * simpl. auto.
    + (* an occurrence in the tails *)
      assert (Hp' : p ∈ f') by (destruct Hp as [?|Hp]; [contradiction | exact Hp]).
      assert (Hq' : p + dist ∈ l') by (destruct Hq as [Hq|Hq]; [lia | exact Hq]).
      assert (Hrest : ∀ acc', next_loop fuel pb lb dist
                                (set_last l' (set_first f' (set_fileIdx j' s))) acc'
                              = Done (cands, s') →
                ∃ c, c ∈ cands ∧ file c = uint32 j
                     ∧ offset c = uint32 (p - doc_start (ends s) j)).
      { intros acc' Hrun'.
        apply (IH _ _ (Hinv' f' l' ltac:(auto))) with (p := p) (j := j) (e := e) in Hrun';
          simpl; auto.
        intros x Hx. apply Hfit. right. exact Hx. }
      destruct (decide (uint32 (p1 + uint32 (patLen s)) >= e')); [eapply Hrest; eauto|].
      destruct (if decide (j' > 0) then do e0 <- index (ends s) (j' - 1); Done (uint32 (0 + e0))
                else Done 0) as [fileStart| |]; try discriminate.
      simpl in Hrun. eapply Hrest; eauto.
Qed.

(** [next] finds every occurrence.  Take a fresh scanner (or one whose
    cursor has only passed documents that end at or before the remaining
    positions) over two ascending position lists, with positions [p] for
    which [p + distance] stays below 2^32.  Whenever [p] is in the first
    list and [p + distance] in the last one, and the pattern at [p] ends
    before the end [e] of the document [j] that holds [p], the candidates
    that [next] returns include the one of document [j] at the offset of
    [p] from the start of that document. *)
Theorem next_finds_every_occurrence (toLower : list Z → list Z) (s : docIterator)
    (cands : list candidateMatch) (s' : docIterator) :
  cursor_ok s → ascending (first s) → ascending (last s) →
  Forall is_uint32 (first s) → Forall is_uint32 (ends s) →
  (∀ p, p ∈ first s → p + uint32 (patLen s - NGRAM) < 2 ^ 32) →
  next toLower s = Done (cands, s') →
  ∀ p j e, p ∈ first s → (p + uint32 (patLen s - NGRAM)) ∈ last s →
    current_doc (ends s) 0 p j e → uint32 (p + uint32 (patLen s)) < e →
    ∃ c, c ∈ cands ∧ file c = uint32 j ∧ offset c = uint32 (p - doc_start (ends s) j)
         ∧ carries_pattern toLower s c.
Proof.
  intros Hcur Hasc Hascl Hfirst Hends Hfit Hrun p j e Hp Hq Hdoc Hin.
  unfold next in Hrun.
  destruct (next_loop_shape _ _ _ _ _ _ _ _ Hrun) as (_ & _ & _ & _ & new & Hnew & _ & _ & Hshape).
  simpl in Hnew. subst new.
  assert (Hdist : 0 ≤ uint32 (patLen s - NGRAM)).
  { pose proof (uint32_is_uint32 (patLen s - NGRAM)) as H. unfold is_uint32 in H. lia. }
  destruct (next_loop_complete _ _ _ _ s [] cands s' Hcur Hasc Hascl Hfirst Hends
              Hdist Hfit Hrun p j e Hp Hq Hdoc Hin) as (c & Hc & Hfile & Hoff).
  exists c. split; [exact Hc|]. split; [exact Hfile|]. split; [exact Hoff|].
  rewrite Forall_forall in Hshape.
  destruct (Hshape c Hc) as (H1 & H2 & H3 & H4 & H5 & _). repeat split; assumption.
Qed.

Lemma next_finds_every_occurrence_witness :
  ∃ (cands : list candidateMatch) (s' : docIterator),
    next (fun b => b) scan_example = Done (cands, s')
    ∧ ∃ c, c ∈ cands ∧ file c = uint32 1 ∧ offset c = uint32 (12 - doc_start [10; 20] 1)
           ∧ carries_pattern (fun b => b) scan_example c.
Proof.
  destruct (next (fun b => b) scan_example) as [[cands s']| |] eqn:Erun;
    [| vm_compute in Erun; discriminate | vm_compute in Erun; discriminate].
  exists cands, s'. split; [reflexivity|].
  apply (next_finds_every_occurrence (fun b => b) scan_example) with (s' := s') (e := 20).
  - apply fresh_cursor_ok. reflexivity.
  - simpl. solve_ascending.
  - simpl. solve_ascending.
  - simpl. solve_uint32s.
  - simpl. solve_uint32s.
  - simpl. intros p Hp.
    repeat match goal with
           | H : _ ∈ _ :: _ |- _ => apply elem_of_cons in H as [->|H]
           | H : _ ∈ [] |- _ => apply not_elem_of_nil in H; destruct H
           end; vm_compute; reflexivity.
  - exact Erun.
  - apply list_elem_of_lookup. exists 3%nat. reflexivity.
  - apply list_elem_of_lookup. exists 3%nat. reflexivity.
  - repeat split; simpl; try lia; try reflexivity.
    intros k e' Hk He'. assert (k = 0) as -> by lia. simpl in He'. injection He' as <-. lia.
  - vm_compute. reflexivity.
Defined.

End codesearch_scanner.

(** ** The scorer *)

Module zoekt_scorer.
Import zoekt.

(** What [findSection] computes: with [k] the least index whose section
    ends at or after the (wrapped) end of the range, the section at [k] if
    it passes the containment test. *)
Lemma findSection_first (secs : list DocumentSection) (off sz : Z) :
  sorted_by_End secs →
  ∃ (k : nat),
    (∀ (h : nat) s, (h < k)%nat → secs !! h = Some s → End s < uint32 (off + sz))
    ∧ (∀ (h : nat) s, (k ≤ h)%nat → secs !! h = Some s → uint32 (off + sz) ≤ End s)
    ∧ findSection secs off sz =
      Done (match secs !! k with
            | Some s =>
                if decide (Start s ≤ off ∧ uint32 (off + sz) ≤ End s) then Some s else None
            | None => None
            end).
Proof.
  intros Hsorted. set (t := uint32 (off + sz)).
  set (g := fun i : Z => match secs !! Z.to_nat i with
                         | Some s => bool_decide (End s >= t)
                         | None => false
                         end).
  set (f := fun i : Z => do s <- index secs i; Done (bool_decide (End s >= t))).
  assert (Hf : ∀ h, 0 ≤ h < len secs → f h = Done (g h)).
  { intros h Hh. unfold f, g. destruct (index_in_range secs h Hh) as [s Hs].
    rewrite Hs. simpl. apply index_Done in Hs as [_ ->]. reflexivity. }
  assert (Hmono : ∀ a b, 0 ≤ a ≤ b → b < len secs → g a = true → g b = true).
  { intros a b Hab Hb. unfold g.
    destruct (secs !! Z.to_nat a) as [sa|] eqn:Ea; [|discriminate].
    destruct (lookup_lt_is_Some_2 secs (Z.to_nat b)) as [sb Eb]; [unfold len in Hb; lia|].
    rewrite Eb. intros Hga%bool_decide_eq_true. apply bool_decide_eq_true.
    destruct (decide (a = b)) as [->|Hne].
    - rewrite Ea in Eb. injection Eb as <-. exact Hga.
    - specialize (Hsorted (Z.to_nat a) (Z.to_nat b) sa sb ltac:(lia) Ea Eb). lia. }
  destruct (Search_least g (len secs) f ltac:(unfold len; lia) Hf Hmono)
    as (k & Hk & Hr & Hbelow & Habove).
  exists (Z.to_nat k). split; [|split].
  - intros h s Hh Hs. specialize (Hbelow (Z.of_nat h) ltac:(lia)).
    unfold g in Hbelow. rewrite Nat2Z.id, Hs in Hbelow.
    apply bool_decide_eq_false in Hbelow. lia.
  - intros h s Hh Hs. pose proof (lookup_lt_Some _ _ _ Hs) as Hlen.
    specialize (Habove (Z.of_nat h) ltac:(unfold len; lia)).
    unfold g in Habove. rewrite Nat2Z.id, Hs in Habove.
    apply bool_decide_eq_true in Habove. lia.
  - unfold findSection. fold t. fold f. rewrite Hk. simpl.
    destruct (decide (k = len secs)) as [->|Hne].
    + unfold len. rewrite Nat2Z.id, lookup_ge_None_2 by lia. reflexivity.
    + destruct (index_in_range secs k ltac:(lia)) as [s Hs]. rewrite Hs. simpl.
      apply index_Done in Hs as [_ ->].
      destruct (decide (Start s ≤ off ∧ t ≤ End s)); reflexivity.
Qed.

(** Whatever the slice, [findSection] returns, and a section it returns is
    one of the slice that passes the containment test. *)
Lemma findSection_sound (secs : list DocumentSection) (off sz : Z) :
  ∃ r, findSection secs off sz = Done r
       ∧ ∀ a, r = Some a → a ∈ secs ∧ Start a ≤ off ∧ uint32 (off + sz) ≤ End a.
Proof.
  set (t := uint32 (off + sz)).
  set (g := fun i : Z => match secs !! Z.to_nat i with
                         | Some s => bool_decide (End s >= t)
                         | None => false
                         end).
  set (f := fun i : Z => do s <- index secs i; Done (bool_decide (End s >= t))).
  assert (Hf : ∀ h, 0 ≤ h < len secs → f h = Done (g h)).
  { intros h Hh. unfold f, g. destruct (index_in_range secs h Hh) as [s Hs].
    rewrite Hs. simpl. apply index_Done in Hs as [_ ->]. reflexivity. }
  destruct (Search_spec g (len secs) f ltac:(unfold len; lia) Hf) as (k & Hk & Hr & _).
  unfold findSection. fold t. fold f. rewrite Hk. simpl.
  destruct (decide (k = len secs)) as [->|Hne].
  - exists None. split; [reflexivity | discriminate].
  - destruct (index_in_range secs k ltac:(lia)) as [s Hs]. rewrite Hs. simpl.
    apply index_Done in Hs as [_ Hs].
    destruct (decide (Start s ≤ off ∧ t ≤ End s)) as [[H1 H2]|Hn].
    + exists (Some s). split; [reflexivity|]. intros a [= <-].
      split; [apply list_elem_of_lookup; eauto | auto].
    + exists None. split; [reflexivity | discriminate].
Qed.

(** In a slice sorted by [End] whose ranges are non-empty and do not
    overlap, every section ends where a later one starts, or before. *)
Lemma sections_in_sequence (secs : list DocumentSection) (i j : nat) (a b : DocumentSection) :
  sorted_by_End secs → non_overlapping secs → non_empty secs →
  (i < j)%nat → secs !! i = Some a → secs !! j = Some b → End a ≤ Start b.
Proof.
  intros Hsorted Hdisj Hne Hij Ha Hb.
  destruct (decide (End a ≤ Start b)) as [|Hn]; [assumption|]. exfalso.
  pose proof (Hsorted i j a b Hij Ha Hb) as Hle.
  assert (Hae : Start a < End a) by (apply Hne, list_elem_of_lookup; eauto).
  apply (Hdisj i j a b (End a - 1)); auto; lia.
Qed.


(** C10, as amended.  For a slice of sections that is sorted ascending by
    [End] and whose ranges are non-empty and pairwise non-overlapping, and
    for a range [off, off + sz) whose end does not wrap around 2^32,
    [findSection] returns; it returns a section exactly when some section
    of the slice fully contains the range; the section it returns is the
    first whose [End] is at least [off + sz]; and for a non-empty range it
    is the only section of the slice that contains the range. *)
Theorem findSection_finds_containing (secs : list DocumentSection) (off sz : Z) :
  sorted_by_End secs → non_overlapping secs → non_empty secs →
  0 ≤ off → 0 ≤ sz → off + sz < 2 ^ 32 →
  ∃ r, findSection secs off sz = Done r
       ∧ (r ≠ None ↔ ∃ a, a ∈ secs ∧ contains a off sz)
       ∧ ∀ a, r = Some a →
           contains a off sz
           ∧ (∃ k : nat, secs !! k = Some a
                         ∧ ∀ (h : nat) s, (h < k)%nat → secs !! h = Some s → End s < off + sz)
           ∧ (0 < sz → ∀ b, b ∈ secs → contains b off sz → b = a).
Proof.
  intros Hsorted Hdisj Hne Hoff Hsz Hfit.
  destruct (findSection_first secs off sz Hsorted) as (k & Hbelow & Habove & Hrun).
  rewrite uint32_small in * by (unfold is_uint32; lia).
  rewrite Hrun. eexists. split; [reflexivity|].
  assert (Huniq : ∀ (s : DocumentSection) (h : nat) b,
            secs !! k = Some s → secs !! h = Some b → contains b off sz →
            (h = k) ∨ (sz = 0 ∧ (k < h)%nat ∧ End s = off ∧ Start s ≤ off)).
  { intros s h b Hs Hb [Hb1 Hb2].
    destruct (decide (h < k)%nat) as [Hlt|Hge].
    { specialize (Hbelow h b Hlt Hb). lia. }
    destruct (decide (h = k)) as [|Hneq]; [left; assumption|]. right.
    pose proof (sections_in_sequence secs k h s b Hsorted Hdisj Hne ltac:(lia) Hs Hb) as Hseq.
    pose proof (Habove k s ltac:(lia) Hs) as Hks.
    assert (Hse : Start s < End s) by (apply Hne, list_elem_of_lookup; eauto).
    lia. }
  split.
  - split.
    + destruct (secs !! k) as [s|] eqn:Es; [|congruence].
      destruct (decide (Start s ≤ off ∧ off + sz ≤ End s)) as [Hc|]; [|congruence].
      intros _. exists s. split; [apply list_elem_of_lookup; eauto | exact Hc].
    + intros (b & [h Hb]%list_elem_of_lookup & Hc).
      destruct (secs !! k) as [s|] eqn:Es.
      * destruct (Huniq s h b eq_refl Hb Hc) as [->|(Hz & Hkh & He & Hs)].
        -- rewrite Es in Hb. injection Hb as <-.
           rewrite decide_True by exact Hc. discriminate.
        -- rewrite decide_True by lia. discriminate.
      * apply lookup_ge_None_1 in Es. destruct Hc as [Hc1 Hc2].
        pose proof (lookup_lt_Some _ _ _ Hb) as Hlen.
        specialize (Hbelow h b ltac:(lia) Hb). lia.
  - intros a Ha. destruct (secs !! k) as [s|] eqn:Es; [|discriminate].
    destruct (decide (Start s ≤ off ∧ off + sz ≤ End s)) as [Hc|]; [|discriminate].
    injection Ha as <-. split; [exact Hc|]. split.
    + exists k. split; [exact Es | exact Hbelow].
    + intros Hpos b [h Hb]%list_elem_of_lookup Hcb.
      destruct (Huniq s h b eq_refl Hb Hcb) as [->|(Hz & _)]; [|lia].
      rewrite Es in Hb. injection Hb as <-. reflexivity.
Qed.

(** Discharges [sorted_by_End] and [non_overlapping] for a slice of one
    or two literal sections. *)
Ltac solve_sections :=
  first
    [ intros [|[|?]] [|[|?]] ? ? ? ? ? ; simpl in *; intros; simplify_eq; simpl in *; lia
    | intros [|[|?]] [|[|?]] ? ? ? ? ? ? ?; simpl in *; simplify_eq; simpl in *; lia ].

Lemma findSection_finds_containing_witness :
  let secs := [ {| Start := 0; End := 4 |}; {| Start := 10; End := 18 |} ] in
  ∃ r, findSection secs 12 3 = Done r
       ∧ r = Some {| Start := 10; End := 18 |}
       ∧ (r ≠ None ↔ ∃ a, a ∈ secs ∧ contains a 12 3).
Proof.
  simpl.
  destruct (findSection_finds_containing
              [ {| Start := 0; End := 4 |}; {| Start := 10; End := 18 |} ] 12 3)
    as (r & Hr & Hiff & _).
  - solve_sections.
  - solve_sections.
  - intros a Ha. repeat (apply elem_of_cons in Ha as [->|Ha]; [simpl; lia|]).
    apply not_elem_of_nil in Ha. destruct Ha.
  - lia.
  - lia.
  - lia.
  - exists r. split; [exact Hr|]. split; [|exact Hiff].
    vm_compute in Hr. injection Hr as <-. reflexivity.
Defined.

(** C10 as stated fails in three places.  (1) The end of the range is
    computed in 32 bits: for [off = 2^32 - 1] and [sz = 2] it wraps to 1,
    and a section [0, 5) that does not contain the range is returned.  (2) An
    empty section counts for the search: with the sections [10, 10) and
    [0, 10), sorted by [End] and sharing no offset, the range [9, 10) lies in
    the second one, and [nil] is returned because the search stops at the
    first one.  (3) For an empty range two sections can pass the
    containment test, so the one returned is not the only one. *)
Lemma findSection_wrap_empty_section_empty_range :
  (let secs := [ {| Start := 0; End := 5 |} ] in
   sorted_by_End secs ∧ non_overlapping secs
   ∧ findSection secs 4294967295 2 = Done (Some {| Start := 0; End := 5 |})
   ∧ ¬ ∃ a, a ∈ secs ∧ contains a 4294967295 2)
  ∧ (let a := {| Start := 10; End := 10 |} in
     let b := {| Start := 0; End := 10 |} in
     sorted_by_End [a; b] ∧ non_overlapping [a; b]
     ∧ ¬ (Start a < End b ∧ Start b < End a)
     ∧ findSection [a; b] 9 1 = Done None
     ∧ b ∈ [a; b] ∧ contains b 9 1)
  ∧ (let secs := [ {| Start := 0; End := 4 |}; {| Start := 4; End := 8 |} ] in
     sorted_by_End secs ∧ non_overlapping secs ∧ non_empty secs
     ∧ findSection secs 4 0 = Done (Some {| Start := 0; End := 4 |})
     ∧ ∃ b, b ∈ secs ∧ contains b 4 0 ∧ b ≠ {| Start := 0; End := 4 |}).
Proof.
  simpl. split; [|split].
  - split; [solve_sections|]. split; [solve_sections|]. split; [vm_compute; reflexivity|].
    intros (a & Ha & Hc). apply elem_of_cons in Ha as [->|Ha].
    + unfold contains in Hc. simpl in Hc. lia.
    + apply not_elem_of_nil in Ha. destruct Ha.
  - split; [solve_sections|]. split; [solve_sections|]. split; [lia|].
    split; [vm_compute; reflexivity|]. split; [right; left|].
    unfold contains. simpl. lia.
  - split; [solve_sections|]. split; [solve_sections|]. split.
    { intros a Ha. repeat (apply elem_of_cons in Ha as [->|Ha]; [simpl; lia|]).
      apply not_elem_of_nil in Ha. destruct Ha. }
    split; [vm_compute; reflexivity|].
    exists {| Start := 4; End := 8 |}. split; [right; left|]. split.
    + unfold contains. simpl. lia.
    + discriminate.
Qed.

(** [findSection] returns on every slice of sections, sorted or not, and
    on every range: the search stays inside the slice.  It returns nil on an
    empty slice and when every section ends before the end of the range; a
    section it returns is one of the slice, starts at or before [off] and
    ends at or after [off + sz], taken in 32 bits. *)
Theorem findSection_never_panics (secs : list DocumentSection) (off sz : Z) :
  ∃ r, findSection secs off sz = Done r
       ∧ (secs = [] → r = None)
       ∧ ((∀ s, s ∈ secs → End s < uint32 (off + sz)) → r = None)
       ∧ ∀ a, r = Some a → a ∈ secs ∧ Start a ≤ off ∧ uint32 (off + sz) ≤ End a.
Proof.
  destruct (findSection_sound secs off sz) as (r & Hr & Hsound).
  exists r. split; [exact Hr|]. split; [|split; [|exact Hsound]].
  - intros ->. destruct r as [a|]; [|reflexivity].
    destruct (Hsound a eq_refl) as [Hin _]. apply not_elem_of_nil in Hin. destruct Hin.
  - intros Hshort. destruct r as [a|]; [|reflexivity].
    destruct (Hsound a eq_refl) as (Hin & _ & Hend). specialize (Hshort a Hin). lia.
Qed.

(** In a slice sorted by [End], [findSection] examines one section: the
    first that ends at or after the end of the range.  It returns that
    section when it starts at or before [off], and nil when it starts
    later, whatever the sections that follow: a section that encloses the
    range and follows a shorter one ending at or after the end of the range
    is not found. *)
Theorem findSection_examines_one_section (secs : list DocumentSection) (off sz : Z) :
  sorted_by_End secs →
  ∃ r, findSection secs off sz = Done r
    ∧ (((∀ s, s ∈ secs → End s < uint32 (off + sz)) ∧ r = None)
       ∨ ∃ (k : nat) (a : DocumentSection),
           secs !! k = Some a ∧ uint32 (off + sz) ≤ End a
           ∧ (∀ (h : nat) s, (h < k)%nat → secs !! h = Some s → End s < uint32 (off + sz))
           ∧ r = (if decide (Start a ≤ off) then Some a else None)).
Proof.
  intros Hsorted.
  destruct (findSection_first secs off sz Hsorted) as (k & Hbelow & Habove & Hrun).
  rewrite Hrun. eexists. split; [reflexivity|].
  destruct (secs !! k) as [a|] eqn:Ea.
  - right. exists k, a. pose proof (Habove k a ltac:(lia) Ea) as Hend.
    split; [exact Ea|]. split; [exact Hend|]. split; [exact Hbelow|].
    destruct (decide (Start a ≤ off)) as [Hs|Hs].
    + rewrite decide_True by (split; assumption). reflexivity.
    + rewrite decide_False by (intros [? _]; contradiction). reflexivity.
  - left. split; [|reflexivity].
    intros s' [h Hs']%list_elem_of_lookup. apply (Hbelow h s'); [|exact Hs'].
    apply lookup_ge_None_1 in Ea. apply lookup_lt_Some in Hs'. lia.
Qed.

(** The section [0, 20) encloses the range [1, 3) and follows the section
    [5, 8): no section is returned. *)
Lemma findSection_examines_one_section_witness :
  let secs := [ {| Start := 5; End := 8 |}; {| Start := 0; End := 20 |} ] in
  findSection secs 1 2 = Done None
  ∧ contains {| Start := 0; End := 20 |} 1 2
  ∧ ∃ r, findSection secs 1 2 = Done r
      ∧ (((∀ s, s ∈ secs → End s < uint32 (1 + 2)) ∧ r = None)
         ∨ ∃ (k : nat) (a : DocumentSection),
             secs !! k = Some a ∧ uint32 (1 + 2) ≤ End a
             ∧ (∀ (h : nat) s, (h < k)%nat → secs !! h = Some s → End s < uint32 (1 + 2))
             ∧ r = (if decide (Start a ≤ 1) then Some a else None)).
Proof.
  intros secs. split; [vm_compute; reflexivity|].
  split; [unfold contains; simpl; lia|].
  apply (findSection_examines_one_section secs 1 2).
  intros [|[|?]] [|[|?]] a b Hij Ha Hb; simpl in *; simplify_eq; simpl; lia.
Defined.

Section Scoring.

Variable byteClass : Z → Z.



Lemma wordScore_range (sb eb : bool) : 0 ≤ wordScore sb eb.
Proof. destruct sb, eb; vm_compute; discriminate. Qed.

Lemma symbolScore_range (sec : option DocumentSection) (f : MatchFragment) :
  0 ≤ symbolScore sec f.
Proof.
  unfold symbolScore. destruct sec as [s|]; [|lia].
  destruct (bool_decide _), (bool_decide _); vm_compute; discriminate.
Qed.

Lemma fragmentScore_nonneg (secs : list DocumentSection) (ln : list Z)
    (f : MatchFragment) (sc : Z) :
  fragmentScore byteClass secs ln f = Done sc → 0 ≤ sc.
Proof.
  unfold fragmentScore.
  destruct (startBoundary byteClass ln f) as [sb| |]; try discriminate. simpl.
  destruct (endBoundary byteClass ln f) as [eb| |]; try discriminate. simpl.
  destruct (findSection secs (Offset f) (uint32 (MatchLength f))) as [sec| |];
    try discriminate. simpl.
  intros [= <-]. pose proof (wordScore_range sb eb).
  pose proof (symbolScore_range sec f). lia.
Qed.


Lemma matchScore_loop_spec (secs : list DocumentSection) (ln : list Z)
    (fs : list MatchFragment) (scores : list Z) (acc : Z) :
  Forall2 (fun f sc => fragmentScore byteClass secs ln f = Done sc) fs scores →
  matchScore_loop byteClass secs ln fs acc = Done (foldl Z.max acc scores).
Proof.
  intros H. revert acc. induction H as [|f sc fs scores Hf _ IH]; intros acc.
  - reflexivity.
  - simpl. rewrite Hf. simpl. rewrite IH. f_equal. f_equal.
    destruct (decide (sc > acc)); lia.
Qed.

Lemma foldl_max_ge (scores : list Z) (acc : Z) :
  acc ≤ foldl Z.max acc scores ∧ ∀ sc, sc ∈ scores → sc ≤ foldl Z.max acc scores.
Proof.
  revert acc. induction scores as [|x scores IH]; intros acc; simpl.
  - split; [lia|]. intros sc H. apply not_elem_of_nil in H. destruct H.
  - destruct (IH (Z.max acc x)) as [H1 H2]. split; [lia|].
    intros sc [->|Hin]%elem_of_cons; [lia | auto].
Qed.

Lemma foldl_max_in (scores : list Z) (acc : Z) :
  foldl Z.max acc scores = acc ∨ foldl Z.max acc scores ∈ scores.
Proof.
  revert acc. induction scores as [|x scores IH]; intros acc; simpl; [auto|].
  destruct (IH (Z.max acc x)) as [->|Hin].
  - destruct (Z.max_spec acc x) as [[_ ->]|[_ ->]]; [right; left | left; reflexivity].
  - right. right. exact Hin.
Qed.

(** C7.  For a match with at least one fragment, [matchScore] returns
    the greatest of the scores of its fragments: one of the scores, and
    none of them exceeds it. *)
Theorem matchScore_is_max (secs : list DocumentSection) (m : Match) (scores : list Z) :
  Fragments m ≠ [] →
  Forall2 (fun f sc => fragmentScore byteClass secs (Line m) f = Done sc)
    (Fragments m) scores →
  ∃ r, matchScore byteClass secs m = Done r
       ∧ r ∈ scores
       ∧ ∀ sc, sc ∈ scores → sc ≤ r.
Proof.
  intros Hne Hall. unfold matchScore.
  rewrite (matchScore_loop_spec secs (Line m) (Fragments m) scores 0 Hall).
  eexists. split; [reflexivity|].
  destruct (foldl_max_ge scores 0) as [H0 Hge]. split; [|exact Hge].
  destruct (foldl_max_in scores 0) as [Heq|Hin]; [|exact Hin].
  destruct Hall as [|f sc fs scs Hf Hrest]; [congruence|].
  assert (Hsc : 0 ≤ sc) by (eapply fragmentScore_nonneg; eauto).
  specialize (Hge sc ltac:(left)). assert (sc = 0) as -> by lia.
  rewrite Heq. left.
Qed.

(** *** When the scorer returns, and what passes the threshold *)

Lemma fragmentScore_cases (secs : list DocumentSection) (ln : list Z) (f : MatchFragment) :
  (fragment_in_line ln f ∧ ∃ sc, fragmentScore byteClass secs ln f = Done sc)
  ∨ (¬ fragment_in_line ln f ∧ fragmentScore byteClass secs ln f = Panic).
Proof.
  unfold fragment_in_line, fragmentScore.
  assert (Hlen : 0 ≤ len ln) by (unfold len; lia).
  destruct (decide (LineOff f < 0)) as [Hneg|Hnn].
  { right. split; [lia|]. unfold startBoundary.
    rewrite decide_True, decide_False by lia.
    rewrite (index_out_of_range ln (LineOff f - 1)) by lia. reflexivity. }
  assert (Hsb : ∃ sb, startBoundary byteClass ln f = Done sb).
  { unfold startBoundary. destruct (decide (LineOff f < len ln)); [|eauto].
    destruct (decide (LineOff f = 0)); [eauto|].
    destruct (index_in_range ln (LineOff f - 1) ltac:(lia)) as [a ->].
    destruct (index_in_range ln (LineOff f) ltac:(lia)) as [b ->]. simpl. eauto. }
  destruct Hsb as [sb ->]. cbn [obind].
  destruct (decide (LineOff f + MatchLength f ≤ len ln)) as [Hfits|Hpast].
  - left. split; [lia|].
    assert (Heb : ∃ eb, endBoundary byteClass ln f = Done eb).
    { unfold endBoundary. destruct (decide (LineOff f + MatchLength f > 0)); [|eauto].
      destruct (decide (LineOff f + MatchLength f = len ln)); [eauto|].
      destruct (index_in_range ln (LineOff f + MatchLength f - 1) ltac:(lia)) as [a ->].
      destruct (index_in_range ln (LineOff f + MatchLength f) ltac:(lia)) as [b ->].
      simpl. eauto. }
    destruct Heb as [eb ->]. cbn [obind].
    destruct (findSection_sound secs (Offset f) (uint32 (MatchLength f))) as (sec & -> & _).
    cbn [obind]. eauto.
  - right. split; [lia|]. unfold endBoundary.
    rewrite decide_True, decide_False by lia.
    destruct (decide (LineOff f + MatchLength f - 1 < len ln)) as [Hlast|Hlast].
    + destruct (index_in_range ln (LineOff f + MatchLength f - 1) ltac:(lia)) as [a ->].
      cbn [obind]. rewrite (index_out_of_range ln (LineOff f + MatchLength f)) by lia.
      reflexivity.
    + rewrite (index_out_of_range ln (LineOff f + MatchLength f - 1)) by lia. reflexivity.
Qed.

Lemma matchScore_loop_cases (secs : list DocumentSection) (ln : list Z)
    (fs : list MatchFragment) (acc : Z) :
  (Forall (fragment_in_line ln) fs
   ∧ ∃ r, matchScore_loop byteClass secs ln fs acc = Done r)
  ∨ (¬ Forall (fragment_in_line ln) fs
     ∧ matchScore_loop byteClass secs ln fs acc = Panic).
Proof.
  revert acc. induction fs as [|f fs IH]; intros acc.
  - left. split; [constructor | simpl; eauto].
  - cbn [matchScore_loop].
    destruct (fragmentScore_cases secs ln f) as [[Hin [sc ->]]|[Hout ->]].
    + cbn [obind].
      destruct (IH (if decide (sc > acc) then sc else acc)) as [[Hall Hr]|[Hnot Hr]].
      * left. split; [constructor; assumption | exact Hr].
      * right. split; [|exact Hr]. intros Hall. apply Hnot. exact (Forall_inv_tail Hall).
    + right. split; [|reflexivity]. intros Hall. apply Hout. exact (Forall_inv Hall).
Qed.

(** [matchScore] returns exactly when every fragment of the match lies in
    the line of the match, which is to say when its line offset is not
    negative and it ends at or before the end of the line; for any other
    match it panics, on an index of [m.Line] that is out of range. *)
Theorem matchScore_returns_iff_fragments_in_line (secs : list DocumentSection) (m : Match) :
  ((∃ r, matchScore byteClass secs m = Done r)
   ↔ Forall (fragment_in_line (Line m)) (Fragments m))
  ∧ (¬ Forall (fragment_in_line (Line m)) (Fragments m)
     ↔ matchScore byteClass secs m = Panic).
Proof.
  unfold matchScore.
  destruct (matchScore_loop_cases secs (Line m) (Fragments m) 0) as [[Hall [r Hr]]|[Hnot Hr]].
  - split; split.
    + intros _. exact Hall.
    + intros _. eauto.
    + intros Hnot. contradiction.
    + rewrite Hr. discriminate.
  - split; split.
    + rewrite Hr. intros [r [=]].
    + intros Hall. contradiction.
    + intros _. exact Hr.
    + intros _. exact Hnot.
Qed.

Lemma fragmentScore_bands (secs : list DocumentSection) (ln : list Z) (f : MatchFragment)
    (sc : Z) :
  fragmentScore byteClass secs ln f = Done sc →
  (0 ≤ sc ≤ scoreWordMatch ∧ ¬ in_section secs f)
  ∨ (scorePartialSymbol ≤ sc ≤ scoreSymbol + scoreWordMatch ∧ in_section secs f).
Proof.
  unfold fragmentScore, in_section.
  destruct (startBoundary byteClass ln f) as [sb| |]; try discriminate. cbn [obind].
  destruct (endBoundary byteClass ln f) as [eb| |]; try discriminate. cbn [obind].
  destruct (findSection secs (Offset f) (uint32 (MatchLength f))) as [[s|]| |];
    try discriminate; cbn [obind]; intros [= <-].
  - right. split; [|eauto]. unfold symbolScore.
    destruct sb, eb, (bool_decide _), (bool_decide _); vm_compute; split; discriminate.
  - left. split; [|intros [s [=]]].
    destruct sb, eb; vm_compute; split; discriminate.
Qed.

Lemma matchScore_loop_bands (secs : list DocumentSection) (ln : list Z)
    (fs : list MatchFragment) (acc r : Z) :
  matchScore_loop byteClass secs ln fs acc = Done r →
  0 ≤ acc ≤ scoreSymbol + scoreWordMatch →
  (acc ≤ scoreWordMatch ∨ scorePartialSymbol ≤ acc) →
  0 ≤ r ≤ scoreSymbol + scoreWordMatch
  ∧ (r ≤ scoreWordMatch ∨ scorePartialSymbol ≤ r)
  ∧ (r > scoreImportantThreshold
     ↔ acc > scoreImportantThreshold ∨ ∃ f, f ∈ fs ∧ in_section secs f).
Proof.
  unfold scoreSymbol, scoreWordMatch, scorePartialSymbol, scoreImportantThreshold.
  revert acc. induction fs as [|f fs IH]; intros acc Hrun Hacc Hband.
  - simpl in Hrun. injection Hrun as <-. split; [exact Hacc|]. split; [exact Hband|].
    split; [auto|]. intros [H|(f & Hf & _)]; [exact H|].
    apply not_elem_of_nil in Hf. destruct Hf.
  - cbn [matchScore_loop] in Hrun.
    destruct (fragmentScore byteClass secs ln f) as [sc| |] eqn:Esc; try discriminate.
    cbn [obind] in Hrun.
    apply fragmentScore_bands in Esc.
    unfold scoreSymbol, scoreWordMatch, scorePartialSymbol in Esc.
    apply IH in Hrun.
    + destruct Hrun as (Hr & Hb & Hiff). split; [exact Hr|]. split; [exact Hb|].
      rewrite Hiff. split.
      * intros [Hbig|(g & Hg & Hsec)].
        -- destruct (decide (sc > acc)) as [Hgt|Hle]; [|left; exact Hbig].
           destruct Esc as [[Hsc _]|[_ Hsec]]; [lia|].
           right. exists f. split; [left | exact Hsec].
        -- right. exists g. split; [right; exact Hg | exact Hsec].
      * intros [Hbig|(g & Hg & Hsec)].
        -- left. destruct (decide (sc > acc)); lia.
        -- apply elem_of_cons in Hg as [->|Hg].
           ++ left. destruct Esc as [[_ Hno]|[Hsc _]]; [contradiction|].
              destruct (decide (sc > acc)); lia.
           ++ right. exists g. auto.
    + destruct (decide (sc > acc)); [|exact Hacc]. destruct Esc as [[? _]|[? _]]; lia.
    + destruct (decide (sc > acc)); [|exact Hband]. destruct Esc as [[? _]|[? _]]; lia.
Qed.

(** A match passes [scoreImportantThreshold] exactly when [findSection]
    finds a symbol section for one of its fragments.  The score that
    [matchScore] returns lies between 0 and [scoreSymbol + scoreWordMatch];
    it is at most [scoreWordMatch] when no fragment has a section, and at
    least [scorePartialSymbol] when one has. *)
Theorem matchScore_important_iff_in_section (secs : list DocumentSection) (m : Match)
    (r : Z) :
  matchScore byteClass secs m = Done r →
  0 ≤ r ≤ scoreSymbol + scoreWordMatch
  ∧ (r ≤ scoreWordMatch ∨ scorePartialSymbol ≤ r)
  ∧ (r > scoreImportantThreshold ↔ ∃ f, f ∈ Fragments m ∧ in_section secs f).
Proof.
  intros Hrun. unfold matchScore in Hrun.
  apply matchScore_loop_bands in Hrun.
  - destruct Hrun as (Hr & Hb & Hiff). split; [exact Hr|]. split; [exact Hb|].
    rewrite Hiff. split; [|auto].
    intros [H|H]; [|exact H]. unfold scoreImportantThreshold in H. lia.
  - vm_compute. split; discriminate.
  - left. vm_compute. discriminate.
Qed.

End Scoring.

(** The line ["ab cd"]: the fragment ["c"] alone scores 50; with the
    section [3, 5) of ["cd"] it scores 5550. *)
Lemma matchScore_important_iff_in_section_witness :
  let m := {| Line := [97; 98; 32; 99; 100]; LineStart := 0; LineEnd := 5; LineNum := 1;
              FileName := false;
              Fragments := [ {| LineOff := 3; MatchLength := 1; Offset := 3 |} ];
              Score := 0 |} in
  let secs := [ {| Start := 3; End := 5 |} ] in
  matchScore collaborators.byteClass [] m = Done 50
  ∧ matchScore collaborators.byteClass secs m = Done 5550
  ∧ 0 ≤ 5550 ≤ scoreSymbol + scoreWordMatch
  ∧ (5550 ≤ scoreWordMatch ∨ scorePartialSymbol ≤ 5550)
  ∧ (5550 > scoreImportantThreshold ↔ ∃ f, f ∈ Fragments m ∧ in_section secs f).
Proof.
  simpl. split; [vm_compute; reflexivity|]. split; [vm_compute; reflexivity|].
  apply (matchScore_important_iff_in_section collaborators.byteClass
           [ {| Start := 3; End := 5 |} ]
           {| Line := [97; 98; 32; 99; 100]; LineStart := 0; LineEnd := 5; LineNum := 1;
              FileName := false;
              Fragments := [ {| LineOff := 3; MatchLength := 1; Offset := 3 |} ];
              Score := 0 |} 5550).
  vm_compute. reflexivity.
Defined.



(** The line ["ab cd"] with the fragments ["ab"] (a full word, 500) and
    ["c"] (a partial word, 50): the match scores 500, not 550. *)
Lemma matchScore_is_max_witness :
  let m := {| Line := [97; 98; 32; 99; 100]; LineStart := 0; LineEnd := 5; LineNum := 1;
              FileName := false;
              Fragments := [ {| LineOff := 0; MatchLength := 2; Offset := 0 |};
                             {| LineOff := 3; MatchLength := 1; Offset := 3 |} ];
              Score := 0 |} in
  Forall2 (fun f sc => fragmentScore collaborators.byteClass [] (Line m) f = Done sc)
    (Fragments m) [500; 50]
  ∧ matchScore collaborators.byteClass [] m = Done 500
  ∧ ∃ r, matchScore collaborators.byteClass [] m = Done r
         ∧ r ∈ [500; 50]
         ∧ ∀ sc, sc ∈ [500; 50] → sc ≤ r.
Proof.
  simpl.
  assert (Hall : Forall2 (fun f sc =>
                   fragmentScore collaborators.byteClass [] [97; 98; 32; 99; 100] f = Done sc)
                   [ {| LineOff := 0; MatchLength := 2; Offset := 0 |};
                     {| LineOff := 3; MatchLength := 1; Offset := 3 |} ] [500; 50]).
  { repeat constructor. }
  split; [exact Hall|]. split; [vm_compute; reflexivity|].
  apply (matchScore_is_max collaborators.byteClass []
           {| Line := [97; 98; 32; 99; 100]; LineStart := 0; LineEnd := 5; LineNum := 1;
              FileName := false;
              Fragments := [ {| LineOff := 0; MatchLength := 2; Offset := 0 |};
                             {| LineOff := 3; MatchLength := 1; Offset := 3 |} ];
              Score := 0 |} [500; 50]).
  - discriminate.
  - exact Hall.
Defined.

End zoekt_scorer.

(** ** The line assembler *)

Module zoekt_assembler.
Import zoekt.

Lemma fileName_loop_cons (m : candidateMatch) (ms : list candidateMatch) (res : Match)
    (result : list Match) :
  fileName_loop (m :: ms) res result =
  [ {| Line := Line res; LineStart := LineStart res; LineEnd := LineEnd res;
       LineNum := LineNum res; FileName := FileName res;
       Fragments := Fragments res ++ map fileName_fragment (m :: ms);
       Score := Score res |} ].
Proof.
  revert m res result. induction ms as [|m' ms IH]; intros m res result.
  - reflexivity.
  - change (fileName_loop (m :: m' :: ms) res result)
      with (fileName_loop (m' :: ms) (add_Fragment (fileName_fragment m) res)
              [add_Fragment (fileName_fragment m) res]).
    rewrite IH. simpl. rewrite <- app_assoc. reflexivity.
Qed.

Section Assembling.

Variable toOriginal : list Z → list Z → list Z → Z → Z → outcome (list Z).
Variable byteClass : Z → Z.

(** C8, as amended.  For a non-empty sequence of file-name candidates
    that all lie in the file name, [fillMatches] returns exactly one match,
    flagged as a file-name match, whose line is the file name and which has
    one fragment for every candidate of the sequence, in order, at the
    offset of the candidate (a single fragment for a single candidate only);
    no line is looked up: the line bounds and number stay 0, and the newline
    table and the contents are not read.  The score is the one [matchScore]
    gives this match over the sections of the document. *)
Theorem fillMatches_fileName (fuel : nat) (ms : list candidateMatch) (p : contentProvider) :
  ms ≠ [] →
  Forall (fun m => fileName m = true) ms →
  Forall (fun m => 0 ≤ offset m
                   ∧ offset m + matchSz m ≤ len (id_fileName (id p) (idx p))) ms →
  ∃ (res : Match) (p1 : contentProvider) (sects : option (list DocumentSection)) (sc : Z),
    fillMatches toOriginal byteClass fuel ms p = Done ([res], p1)
    ∧ docSections p = Done (sects, p1)
    ∧ FileName res = true
    ∧ Line res = id_fileName (id p) (idx p)
    ∧ Fragments res = map fileName_fragment ms
    ∧ length (Fragments res) = length ms
    ∧ LineStart res = 0 ∧ LineEnd res = 0 ∧ LineNum res = 0
    ∧ _nl p1 = _nl p ∧ _data p1 = _data p
    ∧ matchScore byteClass (elems sects) res = Done sc
    ∧ Score res = Num sc.
Proof.
  intros Hne Hnames Hin.
  destruct ms as [|m0 ms]; [contradiction|].
  pose proof (Forall_inv Hnames) as Hname. cbv beta in Hname.
  assert (Hsects : ∃ sects p1, docSections p = Done (sects, p1)
                               ∧ _nl p1 = _nl p ∧ _data p1 = _data p).
  { unfold docSections. destruct (_sects p); eauto. }
  destruct Hsects as (sects & p1 & Hsects & Hnl & Hdata).
  set (raw := {| Line := id_fileName (id p) (idx p); FileName := true;
                 LineStart := 0; LineEnd := 0; LineNum := 0;
                 Fragments := map fileName_fragment (m0 :: ms); Score := 0 |}).
  assert (Hscore : ∃ sc, matchScore byteClass (elems sects) raw = Done sc).
  { unfold matchScore.
    destruct (zoekt_scorer.matchScore_loop_cases byteClass (elems sects) (Line raw)
                (Fragments raw) 0) as [[_ Hr]|[Hnot _]]; [exact Hr|].
    destruct Hnot. unfold raw. cbn [Line Fragments].
    apply Forall_fmap. eapply Forall_impl; [exact Hin|].
    intros m Hm. exact Hm. }
  destruct Hscore as [sc Hscore].
  exists (set_Score sc raw), p1, sects, sc.
  split.
  { unfold fillMatches, bind, lift, get, ret.
    change (index (m0 :: ms) 0) with (Done m0). cbn [obind fst snd].
    rewrite Hname. cbn [obind fst snd].
    rewrite fileName_loop_cons, Hsects. cbn [obind fst snd Fragments app score_all].
    cbn [Line LineStart LineEnd LineNum FileName Score].
    fold raw. rewrite Hscore. cbn [obind]. reflexivity. }
  split; [exact Hsects|].
  cbn [set_Score raw FileName Line Fragments LineStart LineEnd LineNum Score].
  repeat split; auto. rewrite length_map. reflexivity.
Qed.

End Assembling.

Import zoekt_examples.

Lemma fillMatches_fileName_witness :
  ∃ (res : Match) (p1 : contentProvider) (sects : option (list DocumentSection)) (sc : Z),
    fillMatches collaborators.toOriginal collaborators.byteClass 0 two_in_name
      (provider three_lines [1; 5]) = Done ([res], p1)
    ∧ docSections (provider three_lines [1; 5]) = Done (sects, p1)
    ∧ FileName res = true
    ∧ Line res = [97; 46; 103; 111]
    ∧ Fragments res = map fileName_fragment two_in_name
    ∧ length (Fragments res) = length two_in_name
    ∧ LineStart res = 0 ∧ LineEnd res = 0 ∧ LineNum res = 0
    ∧ _nl p1 = None ∧ _data p1 = None
    ∧ matchScore collaborators.byteClass (elems sects) res = Done sc
    ∧ Score res = Num sc.
Proof.
  apply (fillMatches_fileName collaborators.toOriginal collaborators.byteClass 0
           two_in_name (provider three_lines [1; 5])).
  - discriminate.
  - repeat constructor.
  - repeat constructor; vm_compute; discriminate.
Defined.

(** C8 as stated fails in two places.  (1) For two candidates the single
    file-name match that [fillMatches] returns holds two fragments, not one.
    (2) For a candidate that reaches past the end of the file name there is
    no match: the name ["a.go"] has four bytes, and for the candidate of two
    bytes at offset 3 [fillMatches] panics in [matchScore]. *)
Lemma fillMatches_fileName_two_fragments_or_none :
  (∃ (res : Match) (p' : contentProvider),
     fillMatches collaborators.toOriginal collaborators.byteClass 0 two_in_name
       (provider three_lines [1; 5]) = Done ([res], p')
     ∧ FileName res = true
     ∧ Fragments res = [ {| LineOff := 0; MatchLength := 1; Offset := 0 |};
                         {| LineOff := 2; MatchLength := 2; Offset := 2 |} ]
     ∧ length (Fragments res) = 2%nat)
  ∧ (id_fileName (id (provider three_lines [1; 5])) 0 = [97; 46; 103; 111]
     ∧ fillMatches collaborators.toOriginal collaborators.byteClass 0
         [ {| fileName := true; offset := 3; matchSz := 2 |} ]
         (provider three_lines [1; 5]) = Panic).
Proof.
  split.
  - eexists _, _. split; [vm_compute; reflexivity|]. simpl. auto.
  - split; [reflexivity | vm_compute; reflexivity].
Qed.

(** *** The cross-line loop *)

Lemma IndexByte_from_spec (s : list Z) (c i0 : Z) (k : nat) :
  s !! k = Some c → (∀ h : nat, (h < k)%nat → s !! h ≠ Some c) →
  IndexByte_from i0 s c = i0 + Z.of_nat k.
Proof.
  revert i0 k. induction s as [|b s IH]; intros i0 k Hk Hbefore.
  - rewrite lookup_nil in Hk. discriminate.
  - simpl. destruct k as [|k]; simpl in Hk.
    + injection Hk as ->. rewrite decide_True by reflexivity. lia.
    + rewrite decide_False.
      * rewrite (IH (i0 + 1) k Hk); [lia|].
        intros h Hh. apply (Hbefore (S h)). lia.
      * intros ->. apply (Hbefore 0%nat); [lia | reflexivity].
Qed.

(** When the match end lies past the line end and the next terminator after
    the line end stands at offset [t], a turn of the cross-line loop sets
    the line end to [t - (end + 1)], the index of the terminator in
    [data[end+1:]], which is below [t]. *)
Lemma extend_line_step (fuel : nat) (data : list Z) (endMatch end_ : Z) (t : Z) :
  0 ≤ end_ < t → data !! Z.to_nat t = Some 10 →
  (∀ h, end_ < h < t → data !! Z.to_nat h ≠ Some 10) →
  endMatch > uint32 end_ →
  extend_line (S fuel) data endMatch end_ =
  extend_line fuel data endMatch (t - (end_ + 1)).
Proof.
  intros Hend Ht Hbefore Hpast.
  pose proof (lookup_lt_Some _ _ _ Ht) as Hlen.
  simpl. rewrite decide_True by (unfold len; lia).
  unfold slice_from, slice. rewrite decide_True by (unfold len; lia). simpl.
  rewrite take_ge by (rewrite length_drop; unfold len; lia).
  unfold IndexByte.
  rewrite (IndexByte_from_spec _ 10 0 (Z.to_nat (t - (end_ + 1)))).
  - rewrite decide_False by lia. f_equal. lia.
  - rewrite lookup_drop. rewrite <- Ht. f_equal. lia.
  - intros h Hh. rewrite lookup_drop.
    replace (Z.to_nat (end_ + 1) + h)%nat with (Z.to_nat (end_ + 1 + Z.of_nat h)) by lia.
    apply Hbefore. lia.
Qed.

Lemma extend_line_diverges (fuel : nat) : extend_line fuel three_pairs 4 2 = OutOfFuel.
Proof.
  induction fuel as [|fuel IH]; [reflexivity|].
  rewrite (extend_line_step fuel three_pairs 4 2 5).
  - exact IH.
  - lia.
  - reflexivity.
  - intros h Hh. assert (h = 3 ∨ h = 4) as [->| ->] by lia; discriminate.
  - vm_compute. reflexivity.
Qed.

(** A turn of the outer loop whose cross-line loop does not end does not
    end either. *)
Lemma fillContentMatches_loop_cross_line_stuck
    (toOriginal : list Z → list Z → list Z → Z → Z → outcome (list Z))
    (fuel : nat) (m : candidateMatch) (ms : list candidateMatch) (result : list Match)
    (p p1 p2 : contentProvider) (nl data0 : option (list Z)) (num start end_ : Z)
    (lineCands ms' : list candidateMatch) (endMatch : Z) :
  newlines p = Done (nl, p1) →
  line m (elems nl) (fileSize p1) = Done (num, start, end_) →
  take_line (m :: ms) end_ (uint32 (offset m + matchSz m)) [] = (lineCands, endMatch, ms') →
  data false p1 = Done (data0, p2) →
  extend_line (S fuel) (elems data0) endMatch end_ = OutOfFuel →
  fillContentMatches_loop toOriginal (S fuel) (m :: ms) result p = OutOfFuel.
Proof.
  intros Hnl Hline Htake Hdata Hext.
  cbn [fillContentMatches_loop]. unfold bind, lift, get.
  rewrite Hnl. cbn [obind fst snd]. rewrite Hline. cbn [obind fst snd].
  rewrite Htake, Hdata. cbn [obind fst snd]. rewrite Hext. reflexivity.
Qed.

Lemma data_content_frame (p p' : contentProvider) (d : option (list Z)) :
  data false p = Done (d, p') → _nl p' = _nl p ∧ fileSize p' = fileSize p.
Proof.
  unfold data. destruct (_data p); intros [= <- <-]; auto.
Qed.

Lemma caseBits_content_frame (p p' : contentProvider) (d : option (list Z)) :
  caseBits false p = Done (d, p') → _nl p' = _nl p ∧ fileSize p' = fileSize p.
Proof.
  unfold caseBits. destruct (_cb p); intros [= <- <-]; auto.
Qed.

Lemma newlines_cached (p : contentProvider) (nl : list Z) :
  _nl p = Some nl → newlines p = Done (Some nl, p).
Proof. intros H. unfold newlines. rewrite H. reflexivity. Qed.

Lemma take_line_none (m : candidateMatch) (ms : list candidateMatch) (end_ endMatch : Z) :
  ¬ offset m < end_ →
  take_line (m :: ms) end_ endMatch [] = ([], endMatch, m :: ms).
Proof. intros H. simpl. rewrite decide_False by exact H. reflexivity. Qed.

(** When the head candidate does not start before the end of its line,
    the inner loop takes no candidate, and the outer loop meets the same
    candidates again at every turn. *)
Lemma fillContentMatches_loop_stuck
    (toOriginal : list Z → list Z → list Z → Z → Z → outcome (list Z))
    (m : candidateMatch) (ms : list candidateMatch) (nl : list Z) (num start end_ : Z)
    (fuel : nat) (result : list Match) (p : contentProvider) (r : list Match * contentProvider) :
  _nl p = Some nl →
  line m nl (fileSize p) = Done (num, start, end_) →
  ¬ offset m < end_ →
  fillContentMatches_loop toOriginal fuel (m :: ms) result p ≠ Done r.
Proof.
  intros Hnl Hline Hstuck. revert result p Hnl Hline.
  induction fuel as [|fuel IH]; intros result p Hnl Hline; [discriminate|].
  cbn [fillContentMatches_loop]. unfold bind, lift, get.
  rewrite (newlines_cached p nl Hnl). cbn [obind fst snd].
  change (elems (Some nl)) with nl. rewrite Hline. cbn [obind fst snd].
  rewrite (take_line_none m ms end_ _ Hstuck).
  destruct (data false p) as [[d0 p0]| |] eqn:Ed0; try discriminate.
  cbn [obind fst snd].
  destruct (data_content_frame _ _ _ Ed0) as [Hnl0 Hfs0].
  destruct (extend_line (S fuel) (elems d0) _ end_) as [e| |]; try discriminate.
  cbn [obind fst snd].
  destruct (make_bytes (e - start + 8)) as [out| |]; try discriminate.
  cbn [obind fst snd].
  destruct (data false p0) as [[d1 p1]| |] eqn:Ed1; try discriminate.
  cbn [obind fst snd].
  destruct (data_content_frame _ _ _ Ed1) as [Hnl1 Hfs1].
  destruct (caseBits false p1) as [[cb p2]| |] eqn:Ecb; try discriminate.
  cbn [obind fst snd].
  destruct (caseBits_content_frame _ _ _ Ecb) as [Hnl2 Hfs2].
  destruct (toOriginal out (elems d1) (elems cb) start e) as [ln| |];
    try discriminate.
  cbn [obind fst snd].
  apply IH.
  - rewrite Hnl2, Hnl1, Hnl0. exact Hnl.
  - rewrite Hfs2, Hfs1, Hfs0. exact Hline.
Qed.

(** [fillContentMatches] never returns when the line of the head candidate,
    as [line] computes it, ends at or before the offset of the candidate:
    this is the case of a candidate that starts at a line terminator. *)
Theorem fillContentMatches_stuck_at_terminator
    (toOriginal : list Z → list Z → list Z → Z → Z → outcome (list Z))
    (m : candidateMatch) (ms : list candidateMatch) (p p1 : contentProvider)
    (nl : list Z) (num start end_ : Z) :
  newlines p = Done (Some nl, p1) → _nl p1 = Some nl → fileSize p1 = fileSize p →
  line m nl (fileSize p) = Done (num, start, end_) →
  ¬ offset m < end_ →
  ∀ (fuel : nat) (r : list Match * contentProvider),
    fillContentMatches toOriginal fuel (m :: ms) p ≠ Done r.
Proof.
  intros Hnew Hnl Hfs Hline Hstuck fuel r. unfold fillContentMatches.
  destruct fuel as [|fuel]; [discriminate|].
  pose proof (fillContentMatches_loop_stuck toOriginal m ms nl num start end_
                (S fuel) [] p1 r Hnl ltac:(rewrite Hfs; exact Hline) Hstuck) as Hloop.
  cbn [fillContentMatches_loop] in Hloop |- *. unfold bind, lift, get in Hloop |- *.
  rewrite (newlines_cached p1 nl Hnl) in Hloop. rewrite Hnew.
  cbn [obind fst snd] in Hloop |- *. exact Hloop.
Qed.

(** On ["ab\ncd"] a candidate ["\nc"] starts at the terminator at 2. *)
Lemma fillContentMatches_stuck_at_terminator_witness :
  ¬ ∃ (fuel : nat) (r : list Match * contentProvider),
      fillContentMatches collaborators.toOriginal fuel
        [ {| fileName := false; offset := 2; matchSz := 2 |} ]
        (provider two_lines [2]) = Done r.
Proof.
  intros (fuel & r & Hrun). revert Hrun.
  eapply (fillContentMatches_stuck_at_terminator collaborators.toOriginal
            {| fileName := false; offset := 2; matchSz := 2 |} []
            (provider two_lines [2]) _ [2]).
  - vm_compute. reflexivity.
  - reflexivity.
  - reflexivity.
  - vm_compute. reflexivity.
  - simpl. lia.
Defined.

(** The worked example of the specification: on ["ab\ncdefg\nhi"] the
    scanner finds the pattern ["cdefg"] at offset 3 of document 0, the case
    verifier accepts it over an all-lower-case bitmap, and the assembler
    returns one match, of line 2, from 3 to 8, reading ["cdefg"]. *)
Theorem worked_example_round_trip :
  (∃ (c : codesearch.candidateMatch) (s' : codesearch.docIterator)
     (c' : codesearch.candidateMatch),
     codesearch.next collaborators.toLower codesearch_examples.round_trip_scan
     = Done ([c], s')
     ∧ codesearch.file c = 0 ∧ codesearch.offset c = 3
     ∧ codesearch.caseMatches c [0; 0] = Done (true, c'))
  ∧ ∃ (m : Match) (p' : contentProvider),
      fillContentMatches collaborators.toOriginal 2
        [ {| fileName := false; offset := 3; matchSz := 5 |} ]
        (provider round_trip_content [2; 8]) = Done ([m], p')
      ∧ LineNum m = 2 ∧ LineStart m = 3 ∧ LineEnd m = 8
      ∧ Line m = [99; 100; 101; 102; 103]
      ∧ Fragments m = [ {| LineOff := 0; MatchLength := 5; Offset := 3 |} ].
Proof.
  split.
  - eexists _, _, _. split; [vm_compute; reflexivity|].
    split; [reflexivity|]. split; [reflexivity|]. vm_compute. reflexivity.
  - eexists _, _. split; [vm_compute; reflexivity|]. simpl. auto.
Qed.

(** C1 (what the code does).  On the content ["a\nbcd\nef"] a match
    ["a\nb"] at offset 0 crosses the terminator at 1; the terminator that
    follows is at 5, and the assembled match has its line end at 3, the
    index of that terminator counted from offset 2, and the line
    ["a\nb"].  On ["ab\ncd\nef"] a match ["b\nc"] at offset 1 crosses
    the terminator at 2; the loop sets the line end to 2 again at every
    turn and never ends, whatever the fuel. *)
Theorem fillContentMatches_line_end_is_relative :
  (∃ (m : Match) (p' : contentProvider),
     fillContentMatches collaborators.toOriginal 8
       [ {| fileName := false; offset := 0; matchSz := 3 |} ]
       (provider three_lines [1; 5]) = Done ([m], p')
     ∧ LineStart m = 0 ∧ LineEnd m = 3 ∧ Line m = [97; 10; 98]
     ∧ three_lines !! 1%nat = Some 10 ∧ three_lines !! 5%nat = Some 10
     ∧ ∀ h : nat, (1 < h < 5)%nat → three_lines !! h ≠ Some 10)
  ∧ (∀ (toOriginal : list Z → list Z → list Z → Z → Z → outcome (list Z)) (fuel : nat),
       fillContentMatches toOriginal fuel
         [ {| fileName := false; offset := 1; matchSz := 3 |} ]
         (provider three_pairs [2; 5]) = OutOfFuel).
Proof.
  split.
  - eexists _, _. split; [vm_compute; reflexivity|]. simpl.
    repeat split; auto.
    intros h Hh. assert (h = 2 ∨ h = 3 ∨ h = 4)%nat as [->|[->| ->]] by lia; discriminate.
  - intros toOriginal fuel. destruct fuel as [|fuel]; [reflexivity|].
    unfold fillContentMatches.
    eapply fillContentMatches_loop_cross_line_stuck.
    + vm_compute. reflexivity.
    + vm_compute. reflexivity.
    + vm_compute. reflexivity.
    + vm_compute. reflexivity.
    + apply extend_line_diverges.
Qed.

Lemma IndexByte_from_none (s : list Z) (c i0 : Z) :
  (∀ h : nat, s !! h ≠ Some c) → IndexByte_from i0 s c = -1.
Proof.
  revert i0. induction s as [|b s IH]; intros i0 Hnone; [reflexivity|].
  simpl. rewrite decide_False.
  - apply IH. intros h. apply (Hnone (S h)).
  - intros ->. apply (Hnone 0%nat). reflexivity.
Qed.

(** One turn of the cross-line loop.  The loop is entered when the last
    match of the line ends past the line end [end_].  When a terminator
    follows the line end, the first one at offset [t], the turn sets the line
    end to [t - (end_ + 1)], the place of that terminator counted from
    [end_ + 1], which lies before [t]; when none follows, the turn sets it to
    the length of the contents, and the loop ends there. *)
Theorem cross_line_turn_counts_from_the_line_end (fuel : nat) (data : list Z)
    (endMatch end_ : Z) :
  0 ≤ end_ < len data → endMatch > uint32 end_ →
  (∀ t, end_ < t → data !! Z.to_nat t = Some 10 →
        (∀ h, end_ < h < t → data !! Z.to_nat h ≠ Some 10) →
        extend_line (S fuel) data endMatch end_
        = extend_line fuel data endMatch (t - (end_ + 1))
        ∧ t - (end_ + 1) < t)
  ∧ ((∀ h, end_ < h → data !! Z.to_nat h ≠ Some 10) →
     extend_line (S fuel) data endMatch end_ = Done (len data)).
Proof.
  intros Hend Hpast. split.
  - intros t Ht Hnl Hbefore. split; [|lia].
    apply extend_line_step; auto. lia.
  - intros Hnone. cbn [extend_line]. rewrite decide_True by lia.
    unfold slice_from, slice. rewrite decide_True by lia. cbn [obind].
    unfold IndexByte. rewrite IndexByte_from_none.
    + cbn zeta. destruct (decide (-1 = -1)) as [_|Hn]; [|destruct Hn; reflexivity].
      destruct fuel; cbn [extend_line]; rewrite decide_False by lia; reflexivity.
    + intros h Hh. apply lookup_take_Some in Hh as [Hh _].
      rewrite lookup_drop in Hh.
      apply (Hnone (end_ + 1 + Z.of_nat h)); [lia|].
      rewrite <- Hh. f_equal. lia.
Qed.

Lemma cross_line_turn_counts_from_the_line_end_witness :
  (extend_line 2 three_lines 3 1 = extend_line 1 three_lines 3 (5 - (1 + 1))
   ∧ 5 - (1 + 1) < 5)
  ∧ extend_line 1 two_lines 4 2 = Done (len two_lines).
Proof.
  split.
  - apply (proj1 (cross_line_turn_counts_from_the_line_end 1 three_lines 3 1
                    ltac:(vm_compute; split; [discriminate | reflexivity])
                    ltac:(vm_compute; reflexivity)) 5).
    + lia.
    + reflexivity.
    + intros h Hh. assert (h = 2 ∨ h = 3 ∨ h = 4) as [->|[->| ->]] by lia; discriminate.
  - apply (proj2 (cross_line_turn_counts_from_the_line_end 0 two_lines 4 2
                    ltac:(vm_compute; split; [discriminate | reflexivity])
                    ltac:(vm_compute; reflexivity))).
    intros h Hh. destruct (decide (h = 3)) as [->|?]; [discriminate|].
    destruct (decide (h = 4)) as [->|?]; [discriminate|].
    rewrite lookup_ge_None_2; [discriminate|]. simpl. lia.
Defined.

(** *** What the assembler keeps *)

Lemma take_line_split (ms : list candidateMatch) (end_ endMatch : Z)
    (acc lineCands : list candidateMatch) (endMatch' : Z) (ms' : list candidateMatch) :
  take_line ms end_ endMatch acc = (lineCands, endMatch', ms') →
  ∃ g, lineCands = acc ++ g ∧ ms = g ++ ms'.
Proof.
  revert endMatch acc. induction ms as [|m ms IH]; intros endMatch acc Htake.
  - simpl in Htake. injection Htake as <- <- <-. exists []. rewrite app_nil_r. auto.
  - simpl in Htake. destruct (decide (offset m < end_)).
    + apply IH in Htake as (g & -> & ->). exists (m :: g).
      rewrite <- app_assoc. auto.
    + injection Htake as <- <- <-. exists []. rewrite app_nil_r. auto.
Qed.

Lemma take_line_takes (g rest : list candidateMatch) (end_ endMatch : Z)
    (acc : list candidateMatch) :
  Forall (fun c => offset c < end_) g →
  (∀ c, head rest = Some c → ¬ offset c < end_) →
  take_line (g ++ rest) end_ endMatch acc
  = (acc ++ g,
     from_option (fun l => uint32 (offset l + matchSz l)) endMatch (last g),
     rest).
Proof.
  intros Hg Hrest. revert endMatch acc.
  induction Hg as [|m g Hm Hg IH]; intros endMatch acc.
  - rewrite app_nil_r. simpl. destruct rest as [|c rest]; [reflexivity|].
    simpl. rewrite decide_False by (apply Hrest; reflexivity). reflexivity.
  - cbn [take_line app]. rewrite decide_True by exact Hm.
    rewrite IH, <- app_assoc. cbn [app].
    f_equal. f_equal. destruct g as [|m' g]; [reflexivity|].
    rewrite last_cons_cons.
    destruct (last (m' :: g)) as [l|] eqn:El; [reflexivity|].
    apply last_None in El. discriminate.
Qed.

Section Keeping.

Variable toOriginal : list Z → list Z → list Z → Z → Z → outcome (list Z).
Variable byteClass : Z → Z.

Lemma reader_frames (p : contentProvider) :
  (∀ r p', newlines p = Done (r, p') →
     id p' = id p ∧ idx p' = idx p ∧ _sects p' = _sects p ∧ fileSize p' = fileSize p)
  ∧ (∀ r p', data false p = Done (r, p') →
     id p' = id p ∧ idx p' = idx p ∧ _sects p' = _sects p ∧ fileSize p' = fileSize p)
  ∧ (∀ r p', caseBits false p = Done (r, p') →
     id p' = id p ∧ idx p' = idx p ∧ _sects p' = _sects p ∧ fileSize p' = fileSize p).
Proof.
  split; [|split]; intros r p'.
  - unfold newlines. destruct (_nl p); intros [= <- <-]; auto.
  - unfold data. destruct (_data p); intros [= <- <-]; auto.
  - unfold caseBits. destruct (_cb p); intros [= <- <-]; auto.
Qed.

(** What a run of the outer loop adds: one match for each of the
    consecutive groups the candidates fall into; the provider keeps its
    index, its document and its sections. *)
Lemma fillContentMatches_loop_groups (fuel : nat) (ms : list candidateMatch)
    (result : list Match) (p : contentProvider) (res : list Match) (p' : contentProvider) :
  fillContentMatches_loop toOriginal fuel ms result p = Done (res, p') →
  (∃ new groups,
     res = result ++ new ∧ concat groups = ms
     ∧ Forall2 (fun r g => Fragments r = map (fragment_of (LineStart r)) g
                           ∧ FileName r = false ∧ Score r = 0) new groups)
  ∧ id p' = id p ∧ idx p' = idx p ∧ _sects p' = _sects p ∧ fileSize p' = fileSize p.
Proof.
  revert ms result p. induction fuel as [|fuel IH]; intros ms result p Hrun.
  - destruct ms as [|m ms]; [|discriminate]. simpl in Hrun. injection Hrun as <- <-.
    split; [|auto]. exists [], []. rewrite app_nil_r. repeat split; auto.
  - destruct ms as [|m ms].
    { simpl in Hrun. injection Hrun as <- <-.
      split; [|auto]. exists [], []. rewrite app_nil_r. repeat split; auto. }
    cbn [fillContentMatches_loop] in Hrun. unfold bind, lift, get in Hrun.
    destruct (newlines p) as [[nl p1]| |] eqn:Enl; try discriminate.
    cbn [obind fst snd] in Hrun.
    destruct (line m (elems nl) (fileSize p1)) as [[[num start] end_]| |];
      try discriminate.
    cbn [obind fst snd] in Hrun.
    destruct (take_line (m :: ms) end_ (uint32 (offset m + matchSz m)) [])
      as [[lineCands endMatch] ms'] eqn:Etake.
    destruct (data false p1) as [[d0 p2]| |] eqn:Ed0; try discriminate.
    cbn [obind fst snd] in Hrun.
    destruct (extend_line (S fuel) (elems d0) endMatch end_) as [e| |]; try discriminate.
    cbn [obind fst snd] in Hrun.
    destruct (make_bytes (e - start + 8)) as [out| |]; try discriminate.
    cbn [obind fst snd] in Hrun.
    destruct (data false p2) as [[d1 p3]| |] eqn:Ed1; try discriminate.
    cbn [obind fst snd] in Hrun.
    destruct (caseBits false p3) as [[cb p4]| |] eqn:Ecb; try discriminate.
    cbn [obind fst snd] in Hrun.
    destruct (toOriginal out (elems d1) (elems cb) start e) as [ln| |]; try discriminate.
    cbn [obind fst snd] in Hrun.
    apply IH in Hrun.
    destruct Hrun as ((new & groups & -> & Hcat & Hall) & Hid & Hidx & Hsects & Hfs).
    apply take_line_split in Etake as (g & -> & Hms).
    destruct (proj1 (reader_frames p) _ _ Enl) as (Hid1 & Hidx1 & Hsects1 & Hfs1).
    destruct (proj1 (proj2 (reader_frames p1)) _ _ Ed0) as (Hid2 & Hidx2 & Hsects2 & Hfs2).
    destruct (proj1 (proj2 (reader_frames p2)) _ _ Ed1) as (Hid3 & Hidx3 & Hsects3 & Hfs3).
    destruct (proj2 (proj2 (reader_frames p3)) _ _ Ecb) as (Hid4 & Hidx4 & Hsects4 & Hfs4).
    split; [|repeat split; congruence].
    eexists (_ :: new), (g :: groups). rewrite <- app_assoc.
    split; [reflexivity|]. split; [simpl; rewrite Hcat; symmetry; exact Hms|].
    constructor; [|exact Hall]. simpl. auto.
Qed.

(** [fillContentMatches] keeps every candidate, once, and in order.  The
    matches it returns stand for consecutive groups of the candidates: the
    fragments of a match are the candidates of its group, each at the offset
    and with the length of the candidate and at the line offset
    [Offset - LineStart]; no match is flagged as a file-name match, and the
    scores are still 0. *)
Theorem fillContentMatches_keeps_candidates (fuel : nat) (ms : list candidateMatch)
    (p : contentProvider) (res : list Match) (p' : contentProvider) :
  fillContentMatches toOriginal fuel ms p = Done (res, p') →
  (∃ groups, concat groups = ms
     ∧ Forall2 (fun r g => Fragments r = map (fragment_of (LineStart r)) g) res groups)
  ∧ map Offset (concat (map Fragments res)) = map offset ms
  ∧ map MatchLength (concat (map Fragments res)) = map matchSz ms
  ∧ Forall (fun r => FileName r = false ∧ Score r = 0
                     ∧ Forall (fun f => LineOff f = Offset f - LineStart r) (Fragments r))
      res.
Proof.
  intros Hrun. unfold fillContentMatches in Hrun.
  apply fillContentMatches_loop_groups in Hrun as ((new & groups & -> & Hcat & Hall) & _).
  simpl. subst ms. clear p p'.
  induction Hall as [|r g new groups (Hfr & Hname & Hscore) Hall IH].
  - split; [exists []; split; [reflexivity | constructor]|]. repeat split; constructor.
  - destruct IH as ((groups' & Hcat' & Hall') & Hoff & Hlen & Hshape).
    split; [|split; [|split]].
    + exists (g :: groups). split; [reflexivity|]. constructor; [exact Hfr|].
      eapply Forall2_impl; [exact Hall|]. intros r' g' (H & _). exact H.
    + simpl. rewrite !map_app, Hoff, Hfr, map_map. reflexivity.
    + simpl. rewrite !map_app, Hlen, Hfr, map_map. reflexivity.
    + constructor; [|exact Hshape]. split; [exact Hname|]. split; [exact Hscore|].
      rewrite Hfr. apply Forall_forall. intros f [c [-> _]]%list_elem_of_fmap.
      reflexivity.
Qed.

(** The accumulator of the outer loop is only appended to. *)
Lemma fillContentMatches_loop_acc (fuel : nat) (ms : list candidateMatch)
    (result : list Match) (p : contentProvider) :
  fillContentMatches_loop toOriginal fuel ms result p =
  do rp <- fillContentMatches_loop toOriginal fuel ms [] p;
  Done (result ++ fst rp, snd rp).
Proof.
  revert ms result p. induction fuel as [|fuel IH]; intros ms result p.
  - destruct ms; simpl; [rewrite app_nil_r|]; reflexivity.
  - destruct ms as [|m ms]; [simpl; rewrite app_nil_r; reflexivity|].
    cbn [fillContentMatches_loop]. unfold bind, lift, get.
    destruct (newlines p) as [[nl p1]| |]; try reflexivity. cbn [obind fst snd].
    destruct (line m (elems nl) (fileSize p1)) as [[[num start] end_]| |]; try reflexivity.
    cbn [obind fst snd].
    destruct (take_line (m :: ms) end_ (uint32 (offset m + matchSz m)) [])
      as [[lineCands endMatch] ms'].
    destruct (data false p1) as [[d0 p2]| |]; try reflexivity. cbn [obind fst snd].
    destruct (extend_line (S fuel) (elems d0) endMatch end_) as [e| |]; try reflexivity.
    cbn [obind fst snd].
    destruct (make_bytes (e - start + 8)) as [out| |]; try reflexivity.
    cbn [obind fst snd].
    destruct (data false p2) as [[d1 p3]| |]; try reflexivity. cbn [obind fst snd].
    destruct (caseBits false p3) as [[cb p4]| |]; try reflexivity. cbn [obind fst snd].
    destruct (toOriginal out (elems d1) (elems cb) start e) as [ln| |]; try reflexivity.
    cbn [obind fst snd].
    rewrite (IH ms' (result ++ _)), (IH ms' ([] ++ _)).
    destruct (fillContentMatches_loop toOriginal fuel ms' [] p4) as [[r q]| |];
      try reflexivity.
    cbn [obind fst snd]. rewrite <- app_assoc. reflexivity.
Qed.

(** [fillContentMatches] works line by line.  On a provider that holds
    the newline table, the contents and the case bits of its document, take
    candidates [g] that all start before the end of the line of the first of
    them, followed by candidates [rest] of which the first one does not;
    when the last candidate of [g] ends in the line (or the line is the last
    of the contents), the result is the match of that line, with the bounds
    and the number that [line] gives and one fragment for each candidate of
    [g], followed by the matches of [rest]. *)
Theorem fillContentMatches_line_by_line (fuel : nat) (g rest : list candidateMatch)
    (m0 : candidateMatch) (p : contentProvider) (nl d cb : list Z)
    (num start end_ : Z) (ln : list Z) :
  _nl p = Some nl → _data p = Some d → _cb p = Some cb →
  head g = Some m0 →
  line m0 nl (fileSize p) = Done (num, start, end_) →
  Forall (fun c => offset c < end_) g →
  (∀ c, head rest = Some c → ¬ offset c < end_) →
  (∀ l, last g = Some l → len d ≤ end_ ∨ uint32 (offset l + matchSz l) ≤ uint32 end_) →
  0 ≤ end_ - start + 8 →
  toOriginal (replicate (Z.to_nat (end_ - start + 8)) 0) d cb start end_ = Done ln →
  fillContentMatches toOriginal (S fuel) (g ++ rest) p =
  do rp <- fillContentMatches toOriginal fuel rest p;
  Done (line_match num start end_ ln g :: fst rp, snd rp).
Proof.
  intros Hnl Hd Hcb Hhead Hline Hg Hrest Hlast Hsize Hln.
  destruct g as [|m g']; [discriminate|]. injection Hhead as ->.
  unfold fillContentMatches.
  change ((m0 :: g') ++ rest) with (m0 :: (g' ++ rest)).
  cbn [fillContentMatches_loop]. unfold bind, lift, get.
  rewrite (newlines_cached p nl Hnl). cbn [obind fst snd].
  change (elems (Some nl)) with nl. rewrite Hline. cbn [obind fst snd].
  change (m0 :: (g' ++ rest)) with ((m0 :: g') ++ rest).
  rewrite (take_line_takes (m0 :: g') rest end_ _ [] Hg Hrest).
  assert (Hdata : data false p = Done (Some d, p)) by (unfold data; rewrite Hd; reflexivity).
  assert (Hcase : caseBits false p = Done (Some cb, p))
    by (unfold caseBits; rewrite Hcb; reflexivity).
  rewrite Hdata. cbn [obind fst snd]. change (elems (Some d)) with d.
  destruct (last (m0 :: g')) as [l|] eqn:El; [|apply last_None in El; discriminate].
  cbn [from_option].
  assert (Hext : extend_line (S fuel) d (uint32 (offset l + matchSz l)) end_ = Done end_).
  { cbn [extend_line]. rewrite decide_False; [reflexivity|].
    specialize (Hlast l eq_refl). lia. }
  rewrite Hext. cbn [obind fst snd].
  unfold make_bytes. rewrite decide_True by exact Hsize. cbn [obind fst snd].
  rewrite Hdata. cbn [obind fst snd]. rewrite Hcase. cbn [obind fst snd].
  change (elems (Some d)) with d. change (elems (Some cb)) with cb.
  rewrite Hln. cbn [obind fst snd].
  rewrite fillContentMatches_loop_acc. reflexivity.
Qed.

(** No candidates.  [fillContentMatches] returns no match for an empty
    sequence of candidates and reads nothing; [fillMatches] panics on it, as
    it looks at the first candidate. *)
Theorem no_candidates_no_lines (fuel : nat) (p : contentProvider) :
  fillContentMatches toOriginal fuel [] p = Done ([], p)
  ∧ fillMatches toOriginal byteClass fuel [] p = Panic.
Proof.
  split.
  - unfold fillContentMatches. destruct fuel; reflexivity.
  - reflexivity.
Qed.

Lemma score_all_spec (sects : list DocumentSection) (result res : list Match) :
  score_all byteClass sects result = Done res →
  Forall2 (fun r0 r => ∃ sc, matchScore byteClass sects r0 = Done sc ∧ r = set_Score sc r0)
    result res.
Proof.
  revert res. induction result as [|m rest IH]; intros res Hrun.
  - simpl in Hrun. injection Hrun as <-. constructor.
  - cbn [score_all] in Hrun.
    destruct (matchScore byteClass sects m) as [sc| |] eqn:Esc; try discriminate.
    cbn [obind] in Hrun.
    destruct (score_all byteClass sects rest) as [rest'| |]; try discriminate.
    cbn [obind] in Hrun. injection Hrun as <-.
    constructor; [eauto | apply IH; reflexivity].
Qed.

(** What [fillMatches] leaves in the provider and in the scores.  The
    last thing it reads is the section table: on a provider that holds no
    sections, [err] is afterwards the error of that read alone, so that an
    error of reading the newlines, the contents or the case bits while the
    lines were assembled is no longer there.  Every match returned carries
    the score that [matchScore] gives it over the sections the provider
    then holds. *)
Theorem fillMatches_err_is_the_sections_error (fuel : nat) (ms : list candidateMatch)
    (p : contentProvider) (res : list Match) (p' : contentProvider) :
  _sects p = None →
  fillMatches toOriginal byteClass fuel ms p = Done (res, p') →
  err p' = snd (readDocSections (id p) (idx p))
  ∧ _sects p' = fst (readDocSections (id p) (idx p))
  ∧ Forall (fun r => ∃ sc : Z, matchScore byteClass (elems (_sects p')) r = Done sc
                               ∧ Score r = Num sc) res.
Proof.
  intros Hnone Hrun. unfold fillMatches, bind, lift, get, ret in Hrun.
  destruct (index ms 0) as [m0| |]; try discriminate. cbn [obind fst snd] in Hrun.
  assert (Hmid : ∃ raw p1,
            id p1 = id p ∧ idx p1 = idx p ∧ _sects p1 = None
            ∧ (do ap <- docSections p1;
               do a <- score_all byteClass (elems (fst ap)) raw; Done (a, snd ap))
              = Done (res, p')).
  { destruct (fileName m0).
    - cbn [obind fst snd] in Hrun. eexists _, p. repeat split; eauto.
    - destruct (fillContentMatches toOriginal fuel ms p) as [[raw p1]| |] eqn:Eraw;
        try discriminate.
      cbn [obind fst snd] in Hrun. unfold fillContentMatches in Eraw.
      apply fillContentMatches_loop_groups in Eraw as (_ & Hid & Hidx & Hsects & _).
      exists raw, p1. repeat split; auto. congruence. }
  destruct Hmid as (raw & p1 & Hid & Hidx & Hsects & Hrest).
  unfold docSections in Hrest. rewrite Hsects, Hid, Hidx in Hrest.
  cbn [obind fst snd] in Hrest.
  destruct (score_all byteClass (elems (fst (readDocSections (id p) (idx p)))) raw)
    as [scored| |] eqn:Escore; try discriminate.
  cbn [obind] in Hrest. injection Hrest as <- <-. cbn [err _sects].
  split; [reflexivity|]. split; [reflexivity|].
  apply score_all_spec in Escore. apply Forall_forall. intros r Hr.
  apply list_elem_of_lookup in Hr as [i Hr].
  destruct (Forall2_lookup_r _ _ _ _ _ Escore Hr) as (r0 & _ & sc & Hsc & ->).
  exists sc. split; [exact Hsc | reflexivity].
Qed.

End Keeping.

Import zoekt_examples.

(** On ["ab\ncdefg\nhi"] the candidates at 0, 3 and 5 fall into the
    lines 1 and 2. *)
Lemma fillContentMatches_keeps_candidates_witness :
  let ms := [ {| fileName := false; offset := 0; matchSz := 2 |};
              {| fileName := false; offset := 3; matchSz := 2 |};
              {| fileName := false; offset := 5; matchSz := 2 |} ] in
  ∃ (res : list Match) (p' : contentProvider),
    fillContentMatches collaborators.toOriginal 3 ms (provider round_trip_content [2; 8])
    = Done (res, p')
    ∧ map LineNum res = [1; 2]
    ∧ (∃ groups, concat groups = ms
         ∧ Forall2 (fun r g => Fragments r = map (fragment_of (LineStart r)) g) res groups)
    ∧ map Offset (concat (map Fragments res)) = map offset ms
    ∧ map MatchLength (concat (map Fragments res)) = map matchSz ms
    ∧ Forall (fun r => FileName r = false ∧ Score r = 0
                       ∧ Forall (fun f => LineOff f = Offset f - LineStart r) (Fragments r))
        res.
Proof.
  intros ms.
  destruct (fillContentMatches collaborators.toOriginal 3 ms
              (provider round_trip_content [2; 8])) as [[res p']| |] eqn:Erun;
    [| vm_compute in Erun; discriminate | vm_compute in Erun; discriminate].
  exists res, p'. split; [reflexivity|]. split.
  - vm_compute in Erun. injection Erun as <- _. reflexivity.
  - apply (fillContentMatches_keeps_candidates collaborators.toOriginal 3 ms
             (provider round_trip_content [2; 8]) res p' Erun).
Defined.

(** On ["ab\ncdefg\nhi"] the candidates at 3 and 5 are those of line 2,
    from 3 to 8. *)
Lemma fillContentMatches_line_by_line_witness :
  let g := [ {| fileName := false; offset := 3; matchSz := 2 |};
             {| fileName := false; offset := 5; matchSz := 2 |} ] in
  fillContentMatches collaborators.toOriginal 1 (g ++ [])
    (warm_provider round_trip_content [2; 8])
  = do rp <- fillContentMatches collaborators.toOriginal 0 []
               (warm_provider round_trip_content [2; 8]);
    Done (line_match 2 3 8 [99; 100; 101; 102; 103] g :: fst rp, snd rp).
Proof.
  intros g.
  apply (fillContentMatches_line_by_line collaborators.toOriginal 0 g []
           {| fileName := false; offset := 3; matchSz := 2 |}
           (warm_provider round_trip_content [2; 8])
           [2; 8] round_trip_content (replicate 2 0)).
  - reflexivity.
  - reflexivity.
  - reflexivity.
  - reflexivity.
  - vm_compute. reflexivity.
  - repeat constructor.
  - intros c [=].
  - intros l [= <-]. right. vm_compute. discriminate.
  - lia.
  - vm_compute. reflexivity.
Defined.

(** The newline table of the document cannot be decoded: [newlines] sets
    [err], and [fillMatches] returns with [err] nil. *)
Lemma fillMatches_err_is_the_sections_error_witness :
  let p := fresh_provider (lost_newlines two_lines) 5 in
  (∃ p1, newlines p = Done (None, p1) ∧ err p1 = Some 2%nat)
  ∧ ∃ (res : list Match) (p' : contentProvider),
      fillMatches collaborators.toOriginal collaborators.byteClass 2
        [ {| fileName := false; offset := 0; matchSz := 2 |} ] p = Done (res, p')
      ∧ err p' = None
      ∧ err p' = snd (readDocSections (id p) (idx p))
      ∧ _sects p' = fst (readDocSections (id p) (idx p))
      ∧ Forall (fun r => ∃ sc : Z,
                  matchScore collaborators.byteClass (elems (_sects p')) r = Done sc
                  ∧ Score r = Num sc) res.
Proof.
  intros p. split; [eexists; split; reflexivity|].
  destruct (fillMatches collaborators.toOriginal collaborators.byteClass 2
              [ {| fileName := false; offset := 0; matchSz := 2 |} ] p)
    as [[res p']| |] eqn:Erun;
    [| vm_compute in Erun; discriminate | vm_compute in Erun; discriminate].
  exists res, p'. split; [reflexivity|]. split.
  - vm_compute in Erun. injection Erun as _ <-. reflexivity.
  - apply (fillMatches_err_is_the_sections_error collaborators.toOriginal
             collaborators.byteClass 2
             [ {| fileName := false; offset := 0; matchSz := 2 |} ] p res p');
      [reflexivity | exact Erun].
Defined.

End zoekt_assembler.

(** ** The case verifier *)

Module codesearch_verifier.
Import codesearch codesearch_examples.

Lemma byte_of_bits_range (g : Z → bool) : 0 ≤ byte_of_bits g < 256.
Proof.
  unfold byte_of_bits.
  destruct (g 0), (g 1), (g 2), (g 3), (g 4), (g 5), (g 6), (g 7); simpl; lia.
Qed.

Lemma byte_of_bits_testbit (g : Z → bool) (j : Z) :
  Z.testbit (byte_of_bits g) j = if decide (0 ≤ j < 8) then g j else false.
Proof.
  destruct (decide (0 ≤ j < 8)) as [Hj|Hj].
  - assert (Hcases : j = 0 ∨ j = 1 ∨ j = 2 ∨ j = 3 ∨ j = 4 ∨ j = 5 ∨ j = 6 ∨ j = 7) by lia.
    unfold byte_of_bits.
    destruct Hcases as [->|[->|[->|[->|[->|[->|[->| ->]]]]]]];
      destruct (g 0), (g 1), (g 2), (g 3), (g 4), (g 5), (g 6), (g 7); reflexivity.
  - destruct (decide (j < 0)) as [Hneg|Hpos].
    + apply Z.testbit_neg_r. exact Hneg.
    + pose proof (byte_of_bits_range g) as Hr.
      apply Z.testbit_false; [lia|].
      rewrite Z.div_small; [reflexivity|].
      split; [lia|]. apply Z.lt_le_trans with (2 ^ 8); [lia|].
      apply Z.pow_le_mono_r; lia.
Qed.

Lemma pack_bits_length (f : Z → bool) (nbytes : nat) : length (pack_bits f nbytes) = nbytes.
Proof. unfold pack_bits. rewrite length_map, length_seq. reflexivity. Qed.

Lemma pack_bits_lookup (f : Z → bool) (nbytes i : nat) :
  (i < nbytes)%nat →
  pack_bits f nbytes !! i = Some (byte_of_bits (fun j => f (8 * Z.of_nat i + j))).
Proof.
  intros Hi. unfold pack_bits. rewrite list_lookup_fmap, lookup_seq_lt by exact Hi.
  reflexivity.
Qed.

Lemma land_eq_bits (x mk bt : Z) :
  Z.land x mk = bt ↔ ∀ j, 0 ≤ j → Z.testbit x j && Z.testbit mk j = Z.testbit bt j.
Proof.
  split.
  - intros <- j _. symmetry. apply Z.land_spec.
  - intros H. apply Z.bits_inj'. intros j Hj. rewrite Z.land_spec. apply H. exact Hj.
Qed.

Lemma compare_bits_spec (fileBits mask bits : list Z) (i0 : nat) (b : bool) :
  compare_bits (Z.of_nat i0) fileBits mask bits = Done b →
  (b = true ↔ ∀ (k : nat) x, fileBits !! k = Some x →
                ∃ mk bt, mask !! (i0 + k)%nat = Some mk ∧ bits !! (i0 + k)%nat = Some bt
                         ∧ Z.land x mk = bt).
Proof.
  revert i0. induction fileBits as [|x fb IH]; intros i0 Hrun.
  - simpl in Hrun. injection Hrun as <-. split; [|reflexivity].
    intros _ k y Hk. rewrite lookup_nil in Hk. discriminate.
  - simpl in Hrun.
    destruct (index mask (Z.of_nat i0)) as [mk| |] eqn:Emk; try discriminate.
    destruct (index bits (Z.of_nat i0)) as [bt| |] eqn:Ebt; try discriminate.
    simpl in Hrun.
    apply index_Done in Emk as [_ Emk]. apply index_Done in Ebt as [_ Ebt].
    rewrite Nat2Z.id in Emk, Ebt.
    destruct (decide (Z.land x mk ≠ bt)) as [Hne|Heq].
    + injection Hrun as <-. split; [discriminate|]. intros Hall.
      destruct (Hall 0%nat x eq_refl) as (mk' & bt' & Hmk' & Hbt' & Hland).
      rewrite Nat.add_0_r in Hmk', Hbt'. congruence.
    + replace (Z.of_nat i0 + 1) with (Z.of_nat (S i0)) in Hrun by lia.
      apply IH in Hrun. rewrite Hrun. split.
      * intros Hall [|k] y Hk; simpl in Hk.
        -- injection Hk as <-. exists mk, bt. rewrite Nat.add_0_r.
           split; [exact Emk|]. split; [exact Ebt|].
           destruct (decide (Z.land x mk = bt)); [assumption | contradiction].
        -- destruct (Hall k y Hk) as (mk' & bt' & H1 & H2 & H3).
           exists mk', bt'. replace (i0 + S k)%nat with (S i0 + k)%nat by lia. auto.
      * intros Hall k y Hk. destruct (Hall (S k) y Hk) as (mk' & bt' & H1 & H2 & H3).
        exists mk', bt'. replace (S i0 + k)%nat with (i0 + S k)%nat by lia. auto.
Qed.

Lemma compare_bits_total (fileBits mask bits : list Z) (i0 : nat) :
  (i0 + length fileBits ≤ length mask)%nat → (i0 + length fileBits ≤ length bits)%nat →
  ∃ b, compare_bits (Z.of_nat i0) fileBits mask bits = Done b.
Proof.
  revert i0. induction fileBits as [|x fb IH]; intros i0 Hm Hb; simpl in *; [eauto|].
  destruct (lookup_lt_is_Some_2 mask i0 ltac:(lia)) as [mk Hmk].
  destruct (lookup_lt_is_Some_2 bits i0 ltac:(lia)) as [bt Hbt].
  rewrite (index_nat _ _ _ Hmk), (index_nat _ _ _ Hbt). simpl.
  destruct (decide (Z.land x mk ≠ bt)); [eauto|].
  replace (Z.of_nat i0 + 1) with (Z.of_nat (S i0)) by lia.
  apply IH; lia.
Qed.

Lemma findCaseMasks_index (pattern : list Z) (se : Z) :
  0 ≤ se < 8 →
  index (fst (findCaseMasks pattern)) se = Done (aligned pattern se (fun _ => true))
  ∧ index (snd (findCaseMasks pattern)) se = Done (aligned pattern se (pattern_case pattern)).
Proof.
  intros Hse.
  assert (Hcases : se = 0 ∨ se = 1 ∨ se = 2 ∨ se = 3 ∨ se = 4 ∨ se = 5 ∨ se = 6 ∨ se = 7)
    by lia.
  destruct Hcases as [->|[->|[->|[->|[->|[->|[->| ->]]]]]]]; split; reflexivity.
Qed.

Lemma aligned_length (pattern : list Z) (se : Z) (f : Z → bool) :
  length (aligned pattern se f) = Z.to_nat ((se + len pattern + 7) / 8).
Proof. apply pack_bits_length. Qed.

Lemma aligned_testbit (pattern : list Z) (se : Z) (f : Z → bool) (i : nat) (mk j : Z) :
  aligned pattern se f !! i = Some mk → 0 ≤ j →
  Z.testbit mk j =
  if decide (j < 8) then
    (se <=? 8 * Z.of_nat i + j) && (8 * Z.of_nat i + j <? se + len pattern)
    && f (8 * Z.of_nat i + j - se)
  else false.
Proof.
  intros Hmk Hj. pose proof (lookup_lt_Some _ _ _ Hmk) as Hi.
  rewrite aligned_length in Hi. unfold aligned in Hmk.
  rewrite pack_bits_lookup in Hmk by exact Hi. injection Hmk as <-.
  rewrite byte_of_bits_testbit.
  destruct (decide (j < 8)).
  - rewrite decide_True by lia. reflexivity.
  - rewrite decide_False by lia. reflexivity.
Qed.

Lemma slice_lookup {A : Type} (s fb : list A) (lo hi : Z) (i : nat) :
  slice s lo hi = Done fb →
  length fb = Z.to_nat (hi - lo)
  ∧ ((i < length fb)%nat → fb !! i = s !! (Z.to_nat lo + i)%nat).
Proof.
  unfold slice. destruct (decide (0 ≤ lo ∧ lo ≤ hi ∧ hi ≤ len s)) as [Hr|]; [|discriminate].
  intros [= <-]. unfold len in Hr. split.
  - rewrite length_take, length_drop. lia.
  - intros Hi. rewrite length_take in Hi. rewrite lookup_take_lt by lia.
    apply lookup_drop.
Qed.

Lemma bitmap_bit_split (bm : list Z) (q : Z) (i : nat) (j : Z) :
  0 ≤ q → 0 ≤ j < 8 →
  bitmap_bit bm (8 * q + 8 * Z.of_nat i + j) =
  match bm !! (Z.to_nat q + i)%nat with
  | Some x => Z.testbit x j
  | None => false
  end.
Proof.
  intros Hq Hj. unfold bitmap_bit.
  replace ((8 * q + 8 * Z.of_nat i + j) / 8) with (q + Z.of_nat i)
    by (Z.div_mod_to_equations; lia).
  replace ((8 * q + 8 * Z.of_nat i + j) mod 8) with j
    by (Z.div_mod_to_equations; lia).
  replace (Z.to_nat (q + Z.of_nat i)) with (Z.to_nat q + i)%nat by lia.
  reflexivity.
Qed.

Lemma populateCaseBits_frame (m : candidateMatch) :
  query (populateCaseBits m) = query m
  ∧ substrBytes (populateCaseBits m) = substrBytes m
  ∧ offset (populateCaseBits m) = offset m.
Proof.
  unfold populateCaseBits.
  destruct (negb (CaseSensitive (query m)) || bool_decide (caseMask m ≠ None)); auto.
Qed.

Lemma caseMatches_sensitive (m : candidateMatch) (bm : list Z) :
  CaseSensitive (query m) = true →
  caseMatches m bm =
  (do fileBits <- slice bm (slice_lo m) (slice_hi m);
   do mask <- index (default [] (caseMask (populateCaseBits m))) (offset m mod 8);
   do bits <- index (default [] (caseBits (populateCaseBits m))) (offset m mod 8);
   do ok <- compare_bits 0 fileBits mask bits;
   Done (ok, populateCaseBits m)).
Proof.
  intros Hcs. unfold caseMatches, slice_lo, slice_hi. rewrite Hcs. cbn [negb].
  destruct (populateCaseBits_frame m) as (_ & -> & ->). reflexivity.
Qed.

Lemma slice_bounds_aligned (m : candidateMatch) :
  is_uint32 (offset m) → offset m + len (substrBytes m) + 7 < 2 ^ 32 →
  slice_lo m = offset m / 8
  ∧ slice_hi m = offset m / 8 + (offset m mod 8 + len (substrBytes m) + 7) / 8.
Proof.
  unfold slice_lo, slice_hi. cbn zeta.
  set (o := offset m). set (n := len (substrBytes m)).
  assert (Hn : 0 ≤ n) by (unfold n, len; lia).
  intros Ho Hfit. unfold is_uint32 in Ho.
  assert (Hmod : 0 ≤ o mod 8 < 8) by (apply Z.mod_pos_bound; lia).
  assert (Hmod' : 0 ≤ (o + n) mod 8 < 8) by (apply Z.mod_pos_bound; lia).
  assert (Hle : o mod 8 ≤ o) by (apply Z.mod_le; lia).
  split.
  - rewrite uint32_small by (unfold is_uint32; lia).
    Z.div_mod_to_equations; lia.
  - rewrite (uint32_small n) by (unfold is_uint32; lia).
    rewrite (uint32_small (o + n)) by (unfold is_uint32; lia).
    rewrite (uint32_small (8 - (o + n) mod 8)) by (unfold is_uint32; lia).
    assert (He : 0 ≤ (8 - (o + n) mod 8) mod 8 < 8) by (apply Z.mod_pos_bound; lia).
    rewrite uint32_small by (unfold is_uint32; lia).
    Z.div_mod_to_equations; lia.
Qed.

Lemma populateCaseBits_masks (m : candidateMatch) :
  CaseSensitive (query m) = true → masks_derived m →
  caseMask (populateCaseBits m) = Some (fst (findCaseMasks (substrBytes m)))
  ∧ caseBits (populateCaseBits m) = Some (snd (findCaseMasks (substrBytes m))).
Proof.
  intros Hcs [Hnone|[Hmask Hbits]]; unfold populateCaseBits; rewrite Hcs.
  - rewrite Hnone. simpl. auto.
  - rewrite Hmask. simpl. auto.
Qed.

Lemma caseMatches_pattern (m : candidateMatch) (bm : list Z) :
  CaseSensitive (query m) = true → masks_derived m →
  is_uint32 (offset m) →
  offset m + len (substrBytes m) + 7 < 2 ^ 32 →
  offset m + len (substrBytes m) ≤ 8 * len bm →
  ∃ b, caseMatches m bm = Done (b, populateCaseBits m)
       ∧ (b = true ↔ encodes_case bm m).
Proof.
  intros Hcs Hnone Ho Hfit Hcover.
  rewrite (caseMatches_sensitive m bm Hcs).
  set (o := offset m) in *. set (P := substrBytes m) in *.
  assert (Hn : 0 ≤ len P) by (unfold len; lia).
  assert (Hse : 0 ≤ o mod 8 < 8) by (apply Z.mod_pos_bound; lia).
  set (se := o mod 8) in *. set (q := o / 8).
  assert (Hoq : o = 8 * q + se) by (unfold q, se; Z.div_mod_to_equations; lia).
  set (nb := (se + len P + 7) / 8).
  assert (Hnb : 8 * nb - 7 ≤ se + len P ≤ 8 * nb) by (unfold nb; Z.div_mod_to_equations; lia).
  assert (Hq : 0 ≤ q) by (unfold is_uint32 in Ho; lia).
  destruct (slice_bounds_aligned m Ho Hfit) as [Hlo Hhi].
  rewrite Hlo, Hhi. fold o P se q nb.
  destruct (slice bm q (q + nb)) as [fb| |] eqn:Efb;
    [| unfold slice in Efb; rewrite decide_True in Efb by lia; discriminate
     | unfold slice in Efb; rewrite decide_True in Efb by lia; discriminate ].
  assert (Hfb : length fb = Z.to_nat nb).
  { destruct (slice_lookup bm fb q (q + nb) 0 Efb) as [-> _]. f_equal. lia. }
  assert (Hfbl : ∀ i : nat, (i < Z.to_nat nb)%nat → fb !! i = bm !! (Z.to_nat q + i)%nat).
  { intros i Hi. destruct (slice_lookup bm fb q (q + nb) i Efb) as [_ H]. apply H. lia. }
  cbn [obind].
  destruct (populateCaseBits_masks m Hcs Hnone) as [-> ->]. fold P.
  cbn [default from_option]. unfold id.
  destruct (findCaseMasks_index P se Hse) as [-> ->]. cbn [obind].
  set (mask := aligned P se (fun _ => true)).
  set (bits := aligned P se (pattern_case P)).
  destruct (compare_bits_total fb mask bits 0) as [b Hb].
  { unfold mask. rewrite aligned_length. fold nb. lia. }
  { unfold bits. rewrite aligned_length. fold nb. lia. }
  change (Z.of_nat 0) with 0 in Hb. rewrite Hb. cbn [obind].
  exists b. split; [reflexivity|].
  rewrite (compare_bits_spec fb mask bits 0 b Hb). unfold encodes_case. fold o P.
  split.
  - intros Hall k Hk.
    set (n' := se + k).
    assert (Hi : (Z.to_nat (n' / 8) < Z.to_nat nb)%nat).
    { unfold n'. Z.div_mod_to_equations. lia. }
    assert (Hjr : 0 ≤ n' mod 8 < 8) by (apply Z.mod_pos_bound; lia).
    assert (Hn' : o + k = 8 * q + 8 * Z.of_nat (Z.to_nat (n' / 8)) + n' mod 8).
    { unfold n' in *. Z.div_mod_to_equations. lia. }
    rewrite Hn', bitmap_bit_split by lia.
    destruct (lookup_lt_is_Some_2 fb (Z.to_nat (n' / 8)) ltac:(lia)) as [x Hx].
    rewrite <- Hfbl by exact Hi. rewrite Hx.
    destruct (Hall _ x Hx) as (mk & bt & Hmk & Hbt & Hland).
    simpl in Hmk, Hbt.
    apply land_eq_bits with (j := n' mod 8) in Hland; [|lia].
    rewrite (aligned_testbit P se _ _ mk _ Hmk) in Hland by lia.
    rewrite (aligned_testbit P se _ _ bt _ Hbt) in Hland by lia.
    destruct (decide (n' mod 8 < 8)) as [_|?]; [|lia].
    replace (8 * Z.of_nat (Z.to_nat (n' / 8)) + n' mod 8) with n' in Hland
      by (Z.div_mod_to_equations; lia).
    replace (n' - se) with k in Hland by (unfold n'; lia).
    replace (se <=? n') with true in Hland by (symmetry; apply Z.leb_le; unfold n'; lia).
    replace (n' <? se + len P) with true in Hland
      by (symmetry; apply Z.ltb_lt; unfold n'; lia).
    simpl in Hland. rewrite andb_true_r in Hland. exact Hland.
  - intros Henc i x Hx. simpl.
    pose proof (lookup_lt_Some _ _ _ Hx) as Hi. rewrite Hfb in Hi.
    destruct (lookup_lt_is_Some_2 mask i) as [mk Hmk].
    { unfold mask. rewrite aligned_length. fold nb. lia. }
    destruct (lookup_lt_is_Some_2 bits i) as [bt Hbt].
    { unfold bits. rewrite aligned_length. fold nb. lia. }
    exists mk, bt. split; [exact Hmk|]. split; [exact Hbt|].
    apply land_eq_bits. intros j Hj.
    rewrite (aligned_testbit P se _ _ mk _ Hmk) by lia.
    rewrite (aligned_testbit P se _ _ bt _ Hbt) by lia.
    destruct (decide (j < 8)) as [Hj8|]; [|apply andb_false_r].
    destruct (se <=? 8 * Z.of_nat i + j) eqn:E1; [|apply andb_false_r].
    destruct (8 * Z.of_nat i + j <? se + len P) eqn:E2; [|apply andb_false_r].
    apply Z.leb_le in E1. apply Z.ltb_lt in E2. simpl.
    rewrite andb_true_r.
    specialize (Henc (8 * Z.of_nat i + j - se) ltac:(lia)).
    replace (o + (8 * Z.of_nat i + j - se)) with (8 * q + 8 * Z.of_nat i + j) in Henc by lia.
    rewrite bitmap_bit_split in Henc by lia.
    rewrite <- Hfbl, Hx in Henc by lia. exact Henc.
Qed.

(** C5, as amended.  [caseMatches] returns true, and leaves the candidate
    as it is, when the query is not case-sensitive.  When it is
    case-sensitive and the call returns, the answer is true exactly when
    every byte [i] of the byte-aligned slice
    [fileCaseBits[slice_lo:slice_hi]] satisfies
    [slice[i] & mask[startExtend][i] == bits[startExtend][i]].  With the
    masks derived from the pattern, for a candidate whose span lies in the
    bitmap and, extended to whole bytes, stays below 2^32
    ([offset + patLen + 7 < 2^32]), the call returns, and the answer is true
    exactly when the bitmap holds the case of the pattern at the offset of
    the candidate: it is true when the bitmap encodes that case, and false
    when the bit of some byte of the span is flipped. *)
Theorem caseMatches_spec (m : candidateMatch) (fileCaseBits : list Z) :
  (CaseSensitive (query m) = false → caseMatches m fileCaseBits = Done (true, m))
  ∧ (CaseSensitive (query m) = true →
     ∀ (b : bool) (m' : candidateMatch),
       caseMatches m fileCaseBits = Done (b, m') →
       ∃ (fileBits mask bits : list Z),
         slice fileCaseBits (slice_lo m) (slice_hi m) = Done fileBits
         ∧ index (default [] (caseMask m')) (offset m mod 8) = Done mask
         ∧ index (default [] (caseBits m')) (offset m mod 8) = Done bits
         ∧ (b = true ↔
            ∀ (i : nat) x, fileBits !! i = Some x →
              ∃ mk bt, mask !! i = Some mk ∧ bits !! i = Some bt ∧ Z.land x mk = bt))
  ∧ (CaseSensitive (query m) = true → masks_derived m →
     is_uint32 (offset m) →
     offset m + len (substrBytes m) + 7 < 2 ^ 32 →
     offset m + len (substrBytes m) ≤ 8 * len fileCaseBits →
     ∃ (b : bool) (m' : candidateMatch),
       caseMatches m fileCaseBits = Done (b, m')
       ∧ (b = true ↔ encodes_case fileCaseBits m)
       ∧ (encodes_case fileCaseBits m → b = true)
       ∧ (∀ k, 0 ≤ k < len (substrBytes m) →
            bitmap_bit fileCaseBits (offset m + k) = negb (pattern_case (substrBytes m) k) →
            b = false)).
Proof.
  split; [|split].
  - intros Hcs. unfold caseMatches. rewrite Hcs. reflexivity.
  - intros Hcs b m' Hrun. rewrite (caseMatches_sensitive m fileCaseBits Hcs) in Hrun.
    destruct (slice fileCaseBits (slice_lo m) (slice_hi m)) as [fb| |]; try discriminate.
    cbn [obind] in Hrun.
    destruct (index (default [] (caseMask (populateCaseBits m))) (offset m mod 8))
      as [mask| |] eqn:Emask; try discriminate.
    cbn [obind] in Hrun.
    destruct (index (default [] (caseBits (populateCaseBits m))) (offset m mod 8))
      as [bits| |] eqn:Ebits; try discriminate.
    cbn [obind] in Hrun.
    destruct (compare_bits 0 fb mask bits) as [ok| |] eqn:Eok; try discriminate.
    cbn [obind] in Hrun. injection Hrun as <- <-.
    exists fb, mask, bits. repeat split; auto.
    + intros Hok. apply (compare_bits_spec fb mask bits 0 ok Eok). exact Hok.
    + intros Hall. apply (compare_bits_spec fb mask bits 0 ok Eok). exact Hall.
  - intros Hcs Hnone Ho Hfit Hcover.
    destruct (caseMatches_pattern m fileCaseBits Hcs Hnone Ho Hfit Hcover) as (b & Hrun & Hiff).
    exists b, (populateCaseBits m). split; [exact Hrun|]. split; [exact Hiff|].
    split; [apply Hiff|].
    intros k Hk Hflip. destruct b; [|reflexivity].
    assert (Henc : encodes_case fileCaseBits m) by (apply Hiff; reflexivity).
    rewrite (Henc k Hk) in Hflip. destruct (pattern_case (substrBytes m) k); discriminate.
Qed.

Lemma caseMatches_spec_witness :
  caseMatches aBc_at_6 [128; 0] = Done (true, populateCaseBits aBc_at_6)
  ∧ caseMatches aBc_at_6 [128; 1] = Done (false, populateCaseBits aBc_at_6)
  ∧ caseMatches aBc_at_6 [0; 0] = Done (false, populateCaseBits aBc_at_6)
  ∧ ∃ (b : bool) (m' : candidateMatch),
      caseMatches aBc_at_6 [128; 0] = Done (b, m')
      ∧ (b = true ↔ encodes_case [128; 0] aBc_at_6)
      ∧ (encodes_case [128; 0] aBc_at_6 → b = true)
      ∧ (∀ k, 0 ≤ k < len (substrBytes aBc_at_6) →
           bitmap_bit [128; 0] (offset aBc_at_6 + k)
           = negb (pattern_case (substrBytes aBc_at_6) k) →
           b = false).
Proof.
  split; [vm_compute; reflexivity|]. split; [vm_compute; reflexivity|].
  split; [vm_compute; reflexivity|].
  apply (proj2 (proj2 (caseMatches_spec aBc_at_6 [128; 0]))).
  - reflexivity.
  - left. reflexivity.
  - unfold is_uint32. simpl. lia.
  - vm_compute. reflexivity.
  - vm_compute. discriminate.
Defined.

Lemma bitmap_bit_zeros (n : nat) (k : Z) : bitmap_bit (replicate n 0) k = false.
Proof.
  unfold bitmap_bit. destruct (replicate n 0 !! Z.to_nat (k / 8)) as [b|] eqn:E; [|reflexivity].
  apply lookup_replicate in E as [-> _]. apply Z.testbit_0_l.
Qed.

(** C5 as stated fails at the end of the 32-bit range.  For the pattern
    ["abc"] at offset 2^32 - 9 the end of the span, extended to a whole
    byte, is 2^32, which wraps to 0: the slice of the bitmap would start at
    byte 2^29 - 2 and end at byte 0, and [caseMatches] panics whatever the
    bitmap, also for the bitmap of 2^29 zero bytes, which covers the span and
    holds the case of the pattern there. *)
Lemma caseMatches_panics_at_the_end_of_the_range :
  let m := {| query := {| Pattern := [97; 98; 99]; CaseSensitive := true |};
              substrBytes := [97; 98; 99]; lowered := [97; 98; 99];
              caseMask := None; caseBits := None; file := 0; offset := 4294967287 |} in
  is_uint32 (offset m)
  ∧ offset m + len (substrBytes m) < 2 ^ 32
  ∧ slice_lo m = 536870910 ∧ slice_hi m = 0
  ∧ (∀ bm, caseMatches m bm = Panic)
  ∧ ∃ bm, offset m + len (substrBytes m) ≤ 8 * len bm
          ∧ encodes_case bm m
          ∧ caseMatches m bm = Panic.
Proof.
  intros m.
  assert (Hlo : slice_lo m = 536870910) by (vm_compute; reflexivity).
  assert (Hhi : slice_hi m = 0) by (vm_compute; reflexivity).
  assert (Hpanic : ∀ bm, caseMatches m bm = Panic).
  { intros bm. rewrite (caseMatches_sensitive m bm eq_refl), Hlo, Hhi.
    unfold slice. rewrite decide_False by lia. reflexivity. }
  split; [unfold is_uint32; vm_compute; split; [discriminate | reflexivity]|].
  split; [vm_compute; reflexivity|].
  split; [exact Hlo|]. split; [exact Hhi|]. split; [exact Hpanic|].
  exists (replicate (Z.to_nat 536870912) 0). split; [|split; [|apply Hpanic]].
  - unfold len. rewrite length_replicate, Z2Nat.id by lia.
    change (Z.of_nat (length (substrBytes m))) with 3. change (offset m) with 4294967287.
    lia.
  - intros k Hk. rewrite bitmap_bit_zeros.
    change (len (substrBytes m)) with 3 in Hk. change (substrBytes m) with [97; 98; 99].
    assert (k = 0 ∨ k = 1 ∨ k = 2) as [->|[->| ->]] by lia; reflexivity.
Qed.

(** *** The cached masks *)

Lemma populateCaseBits_idem (m : candidateMatch) :
  populateCaseBits (populateCaseBits m) = populateCaseBits m.
Proof.
  unfold populateCaseBits.
  destruct (CaseSensitive (query m)) eqn:Ecs; cbn [negb orb].
  - destruct (bool_decide (caseMask m ≠ None)) eqn:Em.
    + rewrite Ecs, Em. reflexivity.
    + cbn [set_caseMasks query caseMask]. rewrite Ecs. cbn [negb orb].
      rewrite bool_decide_eq_true_2 by discriminate. reflexivity.
  - rewrite Ecs. reflexivity.
Qed.

(** [caseMatches] caches the masks in the candidate, and the cache does
    not change the answer: asked again with the candidate it returned, over
    the same bitmap, it gives the same answer and the same candidate.  The
    candidate returned differs from the one given in its masks only, and not
    at all when the masks were there or the query is not case-sensitive. *)
Theorem caseMatches_caches_its_masks (m m' : candidateMatch) (bm : list Z) (b : bool) :
  caseMatches m bm = Done (b, m') →
  caseMatches m' bm = Done (b, m')
  ∧ query m' = query m ∧ substrBytes m' = substrBytes m ∧ lowered m' = lowered m
  ∧ file m' = file m ∧ offset m' = offset m
  ∧ (caseMask m ≠ None ∨ CaseSensitive (query m) = false → m' = m).
Proof.
  intros Hrun. destruct (CaseSensitive (query m)) eqn:Ecs.
  - pose proof Hrun as Hrun0.
    rewrite (caseMatches_sensitive m bm Ecs) in Hrun.
    destruct (slice bm (slice_lo m) (slice_hi m)) as [fb| |] eqn:Efb; try discriminate.
    cbn [obind] in Hrun.
    destruct (index (default [] (caseMask (populateCaseBits m))) (offset m mod 8))
      as [mask| |] eqn:Emask; try discriminate.
    cbn [obind] in Hrun.
    destruct (index (default [] (caseBits (populateCaseBits m))) (offset m mod 8))
      as [bits| |] eqn:Ebits; try discriminate.
    cbn [obind] in Hrun.
    destruct (compare_bits 0 fb mask bits) as [ok| |] eqn:Eok; try discriminate.
    cbn [obind] in Hrun. injection Hrun as <- <-.
    destruct (populateCaseBits_frame m) as (Hq & Hs & Ho).
    split.
    { rewrite caseMatches_sensitive by (rewrite Hq; exact Ecs).
      unfold slice_lo, slice_hi. rewrite populateCaseBits_idem, Hs, Ho.
      fold (slice_lo m). fold (slice_hi m).
      rewrite Efb. cbn [obind]. rewrite Emask. cbn [obind]. rewrite Ebits. cbn [obind].
      rewrite Eok. reflexivity. }
    split; [exact Hq|]. split; [exact Hs|].
    unfold populateCaseBits. rewrite Ecs. cbn [negb orb].
    destruct (bool_decide (caseMask m ≠ None)) eqn:Em.
    + repeat split; auto.
    + repeat split; auto.
      intros [Hm|?]; [|discriminate]. apply bool_decide_eq_false in Em. contradiction.
  - unfold caseMatches in Hrun. rewrite Ecs in Hrun. cbn [negb] in Hrun.
    injection Hrun as <- <-. split.
    { unfold caseMatches. rewrite Ecs. reflexivity. }
    repeat split; auto.
Qed.

Lemma caseMatches_caches_its_masks_witness :
  caseMatches aBc_at_6 [128; 0] = Done (true, populateCaseBits aBc_at_6)
  ∧ caseMatches (populateCaseBits aBc_at_6) [128; 0] = Done (true, populateCaseBits aBc_at_6)
  ∧ offset (populateCaseBits aBc_at_6) = offset aBc_at_6.
Proof.
  assert (Hrun : caseMatches aBc_at_6 [128; 0] = Done (true, populateCaseBits aBc_at_6))
    by (vm_compute; reflexivity).
  destruct (caseMatches_caches_its_masks aBc_at_6 (populateCaseBits aBc_at_6) [128; 0] true
              Hrun) as (Hagain & _ & _ & _ & _ & Hoff & _).
  split; [exact Hrun|]. split; [exact Hagain | exact Hoff].
Defined.

(** *** Comparing the content *)

Lemma slice_reads_pattern (content pat : list Z) (lo : Z) :
  0 ≤ lo → lo + len pat ≤ len content →
  ∃ x, slice content lo (lo + len pat) = Done x ∧ (x = pat ↔ occurs_at content lo pat).
Proof.
  intros Hlo Hin. assert (Hn : 0 ≤ len pat) by (unfold len; lia).
  unfold slice. rewrite decide_True by lia. eexists. split; [reflexivity|].
  replace (Z.to_nat (lo + len pat - lo)) with (length pat) by (unfold len; lia).
  split.
  - intros Heq. exists (take (Z.to_nat lo) content),
      (drop (length pat) (drop (Z.to_nat lo) content)).
    split.
    + rewrite <- Heq at 1. rewrite take_drop, take_drop. reflexivity.
    + unfold len in *. rewrite length_take. lia.
  - intros (pre & post & -> & Hpre).
    replace (Z.to_nat lo) with (length pre) by (unfold len in Hpre; lia).
    rewrite drop_app_length, take_app_length. reflexivity.
Qed.

(** [matchContent] compares the bytes of the content at the offset of the
    candidate with the lower-cased pattern: when they lie in the content, it
    returns true exactly when the content reads the lower-cased pattern at
    that offset. *)
Theorem matchContent_compares_lowered (m : candidateMatch) (content : list Z) :
  is_uint32 (offset m) → offset m + len (lowered m) < 2 ^ 32 →
  offset m + len (lowered m) ≤ len content →
  ∃ b, matchContent m content = Done b
       ∧ (b = true ↔ occurs_at content (offset m) (lowered m)).
Proof.
  intros Ho Hfit Hin. unfold is_uint32 in Ho.
  assert (Hn : 0 ≤ len (lowered m)) by (unfold len; lia).
  unfold matchContent.
  rewrite (uint32_small (len (lowered m))) by (unfold is_uint32; lia).
  rewrite (uint32_small (offset m + len (lowered m))) by (unfold is_uint32; lia).
  destruct (slice_reads_pattern content (lowered m) (offset m)) as (x & -> & Hx); [lia | lia |].
  cbn [obind]. eexists. split; [reflexivity|].
  rewrite bool_decide_eq_true. exact Hx.
Qed.

Lemma matchContent_compares_lowered_witness :
  let content := [97; 98; 10; 99; 100] in
  let m := {| query := {| Pattern := [67; 68]; CaseSensitive := false |};
              substrBytes := [67; 68]; lowered := [99; 100];
              caseMask := None; caseBits := None; file := 0; offset := 3 |} in
  matchContent m content = Done true
  ∧ ∃ b, matchContent m content = Done b
         ∧ (b = true ↔ occurs_at content (offset m) (lowered m)).
Proof.
  intros content m. split; [vm_compute; reflexivity|].
  apply (matchContent_compares_lowered m content).
  - unfold is_uint32. simpl. lia.
  - vm_compute. reflexivity.
  - vm_compute. discriminate.
Defined.

(** The candidates of the scanner are checked against the pattern of the
    query.  For a candidate that [next] returned: (a) when the end of the
    lower-cased pattern at the offset of the candidate stays below 2^32 and
    within the content, [matchContent] returns, and answers true exactly when
    the content holds the lower-cased pattern of the query at that offset;
    (b) when the query is case-sensitive, the end of the pattern at that
    offset, extended by 7, stays below 2^32 and the span of the pattern lies
    within the bits of the bitmap, [caseMatches] returns, and answers true
    exactly when the bitmap holds the case of the pattern of the query from
    that offset on; (c) when the query is not case-sensitive, [caseMatches]
    answers true, whatever the bitmap. *)
Theorem next_candidates_are_checked_against_the_pattern (toLower : list Z → list Z)
    (s : docIterator) (cands : list candidateMatch) (s' : docIterator)
    (c : candidateMatch) (content bm : list Z) :
  next toLower s = Done (cands, s') → c ∈ cands →
  (offset c + len (toLower (Pattern (it_query s))) < 2 ^ 32 →
   offset c + len (toLower (Pattern (it_query s))) ≤ len content →
   ∃ b, matchContent c content = Done b
        ∧ (b = true ↔ occurs_at content (offset c) (toLower (Pattern (it_query s)))))
  ∧ (CaseSensitive (it_query s) = true →
     offset c + len (Pattern (it_query s)) + 7 < 2 ^ 32 →
     offset c + len (Pattern (it_query s)) ≤ 8 * len bm →
     ∃ b c', caseMatches c bm = Done (b, c')
             ∧ (b = true ↔ ∀ k, 0 ≤ k < len (Pattern (it_query s)) →
                  bitmap_bit bm (offset c + k) = pattern_case (Pattern (it_query s)) k))
  ∧ (CaseSensitive (it_query s) = false → caseMatches c bm = Done (true, c)).
Proof.
  intros Hrun Hc. unfold next in Hrun.
  destruct (codesearch_scanner.next_loop_shape _ _ _ _ _ _ _ _ Hrun)
    as (_ & _ & _ & _ & new & Hnew & _ & _ & Hshape).
  simpl in Hnew. subst new. rewrite Forall_forall in Hshape.
  destruct (Hshape c Hc) as (Hq & Hsub & Hlow & Hmask & _ & Hoff).
  split; [|split].
  - intros Hfit Hin. rewrite <- Hlow in *.
    assert (Hn : 0 ≤ len (lowered c)) by (unfold len; lia).
    unfold is_uint32 in Hoff. unfold matchContent.
    rewrite (uint32_small (len (lowered c))) by (unfold is_uint32; lia).
    rewrite (uint32_small (offset c + len (lowered c))) by (unfold is_uint32; lia).
    destruct (slice_reads_pattern content (lowered c) (offset c)) as (x & -> & Hx);
      [lia | lia |].
    cbn [obind]. eexists. split; [reflexivity|].
    rewrite bool_decide_eq_true. exact Hx.
  - intros Hcs Hfit Hcover. rewrite <- Hsub in *.
    destruct (caseMatches_pattern c bm) as (b & Hb & Hiff); auto.
    + rewrite Hq. exact Hcs.
    + left. exact Hmask.
    + exists b, (populateCaseBits c). split; [exact Hb | exact Hiff].
  - intros Hcs. unfold caseMatches. rewrite Hq, Hcs. reflexivity.
Qed.

Lemma next_candidates_are_checked_against_the_pattern_witness :
  ∃ (c : candidateMatch) (s' : docIterator),
    next collaborators.toLower round_trip_scan = Done ([c], s')
    ∧ (∃ b, matchContent c [97; 98; 10; 99; 100; 101; 102; 103; 10; 104; 105] = Done b
            ∧ (b = true
               ↔ occurs_at [97; 98; 10; 99; 100; 101; 102; 103; 10; 104; 105] (offset c)
                   (collaborators.toLower (Pattern (it_query round_trip_scan)))))
    ∧ ∃ b c', caseMatches c [0; 0] = Done (b, c')
              ∧ (b = true ↔ ∀ k, 0 ≤ k < len (Pattern (it_query round_trip_scan)) →
                   bitmap_bit [0; 0] (offset c + k)
                   = pattern_case (Pattern (it_query round_trip_scan)) k).
Proof.
  destruct (next collaborators.toLower round_trip_scan) as [[cands s']| |] eqn:Erun;
    [| vm_compute in Erun; discriminate | vm_compute in Erun; discriminate].
  assert (Hone : ∃ c, cands = [c] ∧ offset c = 3).
  { vm_compute in Erun. injection Erun as <- _. eexists. split; reflexivity. }
  destruct Hone as (c & -> & Hoff).
  exists c, s'. split; [reflexivity|].
  destruct (next_candidates_are_checked_against_the_pattern collaborators.toLower
              round_trip_scan [c] s' c
              [97; 98; 10; 99; 100; 101; 102; 103; 10; 104; 105] [0; 0] Erun
              ltac:(left)) as (Hcontent & Hcase & _).
  split.
  - apply Hcontent; rewrite Hoff; vm_compute; [reflexivity | discriminate].
  - apply Hcase; [reflexivity | |]; rewrite Hoff; vm_compute; [reflexivity | discriminate].
Defined.

(** *** The line of a candidate *)

Lemma filter_below_all (l : list Z) (x : Z) :
  Forall (fun n => n < x) l → filter (fun n => n < x) l = l.
Proof.
  induction 1 as [|n l Hn _ IH]; [reflexivity|].
  rewrite filter_cons_True by exact Hn. rewrite IH. reflexivity.
Qed.

Lemma filter_below_none (l : list Z) (x : Z) :
  Forall (fun n => ¬ n < x) l → filter (fun n => n < x) l = [].
Proof.
  induction 1 as [|n l Hn _ IH]; [reflexivity|].
  rewrite filter_cons_False by exact Hn. exact IH.
Qed.

Lemma count_below (l : list Z) (x : Z) (k : nat) :
  (k ≤ length l)%nat →
  (∀ (h : nat) n, (h < k)%nat → l !! h = Some n → n < x) →
  (∀ (h : nat) n, (k ≤ h)%nat → l !! h = Some n → ¬ n < x) →
  length (filter (fun n => n < x) l) = k.
Proof.
  intros Hk Hbelow Habove.
  rewrite <- (take_drop k l), filter_app, length_app.
  rewrite filter_below_all, filter_below_none.
  - rewrite length_take. simpl. lia.
  - apply Forall_forall. intros n [h Hn]%list_elem_of_lookup.
    rewrite lookup_drop in Hn. apply (Habove (k + h)%nat n); [lia | exact Hn].
  - apply Forall_forall. intros n [h Hn]%list_elem_of_lookup.
    apply lookup_take_Some in Hn as [Hn Hh]. apply (Hbelow h n); assumption.
Qed.

Section Lines.

Variable toOriginal : list Z → list Z → Z → Z → outcome (list Z).

(** [line] places the candidate in its line.  Over an ascending newline
    table, the line number is one more than the number of terminators before
    the offset of the candidate; the line starts after the last of these
    terminators (at 0 when there is none) and ends at the first terminator at
    or after the offset (at the end of the content when there is none); no
    terminator lies between the line start and the candidate; and the
    offset in the line is the distance from the line start, which is not
    negative.  The content of the line is what [toOriginal] gives for these
    bounds. *)
Theorem line_locates_the_candidate (m : candidateMatch)
    (newlines content caseBits : list Z) :
  ascending newlines → Forall is_uint32 newlines → is_uint32 (offset m) →
  ∃ (start end_ : Z),
    line toOriginal m newlines content caseBits
    = (do lc <- toOriginal content caseBits start end_;
       Done (len (filter (fun n => n < offset m) newlines) + 1, offset m - start, lc))
    ∧ 0 ≤ start ≤ offset m
    ∧ (start = 0 ∨ (start - 1) ∈ newlines)
    ∧ (∀ n, n ∈ newlines → ¬ (start ≤ n < offset m))
    ∧ ((end_ = len content ∧ ∀ n, n ∈ newlines → n < offset m)
       ∨ (end_ ∈ newlines ∧ offset m ≤ end_
          ∧ ∀ n, n ∈ newlines → offset m ≤ n → end_ ≤ n)).
Proof.
  intros Hasc Hnl Ho. unfold is_uint32 in Ho.
  set (g := fun i : Z => match newlines !! Z.to_nat i with
                         | Some nl => bool_decide (nl >= offset m)
                         | None => false
                         end).
  set (f := fun n : Z => do nl <- index newlines n; Done (bool_decide (nl >= offset m))).
  assert (Hf : ∀ h, 0 ≤ h < len newlines → f h = Done (g h)).
  { intros h Hh. unfold f, g. destruct (index_in_range newlines h Hh) as [x Hx].
    rewrite Hx. simpl. apply index_Done in Hx as [_ ->]. reflexivity. }
  assert (Hmono : ∀ a b, 0 ≤ a ≤ b → b < len newlines → g a = true → g b = true).
  { intros a b Hab Hb. unfold g.
    destruct (newlines !! Z.to_nat a) as [x|] eqn:Ea; [|discriminate].
    destruct (lookup_lt_is_Some_2 newlines (Z.to_nat b)) as [y Eb]; [unfold len in Hb; lia|].
    rewrite Eb. intros Hga%bool_decide_eq_true. apply bool_decide_eq_true.
    destruct (decide (a = b)) as [->|Hne].
    - rewrite Ea in Eb. injection Eb as <-. exact Hga.
    - specialize (Hasc (Z.to_nat a) (Z.to_nat b) x y ltac:(lia) Ea Eb). lia. }
  destruct (Search_least g (len newlines) f ltac:(unfold len; lia) Hf Hmono)
    as (k & Hk & Hr & Hbelow & Habove).
  assert (Hlow : ∀ (h : nat) n, (h < Z.to_nat k)%nat → newlines !! h = Some n → n < offset m).
  { intros h n Hh Hn. specialize (Hbelow (Z.of_nat h) ltac:(lia)).
    unfold g in Hbelow. rewrite Nat2Z.id, Hn in Hbelow.
    apply bool_decide_eq_false in Hbelow. lia. }
  assert (Hhigh : ∀ (h : nat) n, (Z.to_nat k ≤ h)%nat → newlines !! h = Some n →
                                 offset m ≤ n).
  { intros h n Hh Hn. pose proof (lookup_lt_Some _ _ _ Hn) as Hlen.
    specialize (Habove (Z.of_nat h) ltac:(unfold len; lia)).
    unfold g in Habove. rewrite Nat2Z.id, Hn in Habove.
    apply bool_decide_eq_true in Habove. lia. }
  assert (Hcount : len (filter (fun n => n < offset m) newlines) = k).
  { unfold len. rewrite (count_below newlines (offset m) (Z.to_nat k)).
    - lia.
    - unfold len in Hr. lia.
    - exact Hlow.
    - intros h n Hh Hn. specialize (Hhigh h n Hh Hn). lia. }
  unfold line. fold f. rewrite Hk. cbn [obind]. rewrite Hcount.
  (* the line start *)
  assert (Hstart : ∃ start,
            (if decide (k > 0) then do nl <- index newlines (k - 1); Done (uint32 (nl + 1))
             else Done 0) = Done start
            ∧ 0 ≤ start ≤ offset m
            ∧ (start = 0 ∨ (start - 1) ∈ newlines)
            ∧ ∀ n, n ∈ newlines → ¬ (start ≤ n < offset m)).
  { destruct (decide (k > 0)) as [Hpos|Hzero].
    - destruct (index_in_range newlines (k - 1) ltac:(lia)) as [x Hx].
      rewrite Hx. cbn [obind]. apply index_Done in Hx as [_ Hx].
      assert (Hxr : is_uint32 x).
      { rewrite Forall_forall in Hnl. apply Hnl, list_elem_of_lookup. eauto. }
      pose proof (Hlow (Z.to_nat (k - 1)) x ltac:(lia) Hx) as Hxo.
      unfold is_uint32 in Hxr.
      rewrite uint32_small by (unfold is_uint32; lia).
      exists (x + 1). split; [reflexivity|]. split; [lia|]. split.
      + right. replace (x + 1 - 1) with x by lia. apply list_elem_of_lookup. eauto.
      + intros n [h Hn]%list_elem_of_lookup [Hn1 Hn2].
        destruct (decide (h < Z.to_nat k)%nat) as [Hlt|Hge].
        * destruct (decide (h = Z.to_nat (k - 1))) as [->|Hne].
          -- rewrite Hx in Hn. injection Hn as <-. lia.
          -- specialize (Hasc h (Z.to_nat (k - 1)) n x ltac:(lia) Hn Hx). lia.
        * specialize (Hhigh h n ltac:(lia) Hn). lia.
    - exists 0. split; [reflexivity|]. split; [lia|]. split; [left; reflexivity|].
      intros n [h Hn]%list_elem_of_lookup [Hn1 Hn2].
      specialize (Hhigh h n ltac:(lia) Hn). lia. }
  destruct Hstart as (start & Hs & Hsr & Hsprev & Hsnone).
  (* the line end *)
  assert (Hend : ∃ end_,
            (if decide (k < len newlines) then index newlines k else Done (len content))
            = Done end_
            ∧ ((end_ = len content ∧ ∀ n, n ∈ newlines → n < offset m)
               ∨ (end_ ∈ newlines ∧ offset m ≤ end_
                  ∧ ∀ n, n ∈ newlines → offset m ≤ n → end_ ≤ n))).
  { destruct (decide (k < len newlines)) as [Hlt|Hge].
    - destruct (index_in_range newlines k ltac:(lia)) as [x Hx].
      exists x. split; [exact Hx|]. right. apply index_Done in Hx as [_ Hx].
      split; [apply list_elem_of_lookup; eauto|].
      split; [apply (Hhigh (Z.to_nat k) x); [lia | exact Hx]|].
      intros n [h Hn]%list_elem_of_lookup Hon.
      destruct (decide (h < Z.to_nat k)%nat) as [Hlt'|Hge'].
      + specialize (Hlow h n Hlt' Hn). lia.
      + destruct (decide (h = Z.to_nat k)) as [->|Hne].
        * rewrite Hx in Hn. injection Hn as <-. lia.
        * apply (Hasc (Z.to_nat k) h x n); [lia | exact Hx | exact Hn].
    - exists (len content). split; [reflexivity|]. left. split; [reflexivity|].
      intros n [h Hn]%list_elem_of_lookup. apply (Hlow h n); [|exact Hn].
      apply lookup_lt_Some in Hn. unfold len in Hge. lia. }
  destruct Hend as (end_ & He & Hedge).
  exists start, end_. rewrite He. cbn [obind]. rewrite Hs. cbn [obind].
  split; [reflexivity|]. auto.
Qed.

End Lines.

(** On ["ab\ncdefg\nhi"], with terminators at 2 and 8, a candidate at 5
    lies in line 2, from 3 to 8, at offset 2 of the line; a candidate at the
    terminator at 8 lies in line 2 too, at offset 5, the end of the line. *)
Lemma line_locates_the_candidate_witness :
  let toOriginal := fun (content caseBits : list Z) (start end_ : Z) =>
                      slice content start end_ in
  let content := [97; 98; 10; 99; 100; 101; 102; 103; 10; 104; 105] in
  let at_ (o : Z) := {| query := {| Pattern := []; CaseSensitive := false |};
                        substrBytes := []; lowered := [];
                        caseMask := None; caseBits := None; file := 0; offset := o |} in
  line toOriginal (at_ 5) [2; 8] content [] = Done (2, 2, [99; 100; 101; 102; 103])
  ∧ line toOriginal (at_ 8) [2; 8] content [] = Done (2, 5, [99; 100; 101; 102; 103])
  ∧ ∃ (start end_ : Z),
      line toOriginal (at_ 5) [2; 8] content []
      = (do lc <- toOriginal content [] start end_;
         Done (len (filter (fun n => n < 5) [2; 8]) + 1, 5 - start, lc))
      ∧ 0 ≤ start ≤ 5.
Proof.
  intros toOriginal content at_.
  split; [vm_compute; reflexivity|]. split; [vm_compute; reflexivity|].
  destruct (line_locates_the_candidate toOriginal (at_ 5) [2; 8] content [])
    as (start & end_ & Hrun & Hstart & _).
  - codesearch_scanner.solve_ascending.
  - codesearch_scanner.solve_uint32s.
  - unfold is_uint32. simpl. lia.
  - exists start, end_. split; [exact Hrun | exact Hstart].
Defined.

End codesearch_verifier.

(** ** Sorting *)

Module go_sort.

Section SliceSort.

Context {A : Type} (less : A → A → bool) (dom : A → Prop)
  (Hswo : StrictWeakOrder dom less).

Lemma StronglySorted_sorted_by (m : list A) :
  StronglySorted (may_precede less) m → sorted_by less m.
Proof.
  induction 1 as [|x l Hl IH Hx]; intros i j a b Hij Ha Hb.
  - rewrite lookup_nil in Ha. discriminate.
  - destruct j as [|j]; [lia|]. simpl in Hb. destruct i as [|i]; simpl in Ha.
    + injection Ha as <-. rewrite Forall_forall in Hx.
      apply Hx. apply list_elem_of_lookup. eauto.
    + apply (IH i j a b); [lia | exact Ha | exact Hb].
Qed.

Lemma slice_Less (m : list A) (i j : Z) (a b : A) :
  0 ≤ i → 0 ≤ j → m !! Z.to_nat i = Some a → m !! Z.to_nat j = Some b →
  Less (Interface := slice_Interface less) m i j = Done (less a b).
Proof.
  intros Hi Hj Ha Hb. simpl.
  rewrite (proj2 (index_Done m i a) (conj Hi Ha)). simpl.
  rewrite (proj2 (index_Done m j b) (conj Hj Hb)). reflexivity.
Qed.

Lemma slice_Swap (m : list A) (i j : Z) (a b : A) :
  0 ≤ i → 0 ≤ j → m !! Z.to_nat i = Some a → m !! Z.to_nat j = Some b →
  Swap (Interface := slice_Interface less) m i j
  = Done (<[Z.to_nat j := a]> (<[Z.to_nat i := b]> m)).
Proof.
  intros Hi Hj Ha Hb. simpl. unfold swap_elems.
  rewrite (proj2 (index_Done m i a) (conj Hi Ha)). simpl.
  rewrite (proj2 (index_Done m j b) (conj Hj Hb)). reflexivity.
Qed.

(** The inner loop of [insertionSort] moves the element that follows a
    prefix of [k] elements down past the elements it is less than. *)
Lemma insertionSort_inner_spec (k : nat) (pre : list A) (x : A) (post : list A) :
  length pre = k →
  ∃ pre1 pre2,
    pre = pre1 ++ pre2
    ∧ insertionSort_inner (data := slice_Interface less) k (pre ++ x :: post) 0
      = Done (pre1 ++ x :: pre2 ++ post)
    ∧ Forall (fun y => less x y = true) pre2
    ∧ ∀ y, last pre1 = Some y → less x y = false.
Proof.
  revert pre post. induction k as [|k IH]; intros pre post Hlen.
  - destruct pre; [|discriminate]. exists [], []. repeat split; auto. discriminate.
  - destruct (decide (pre = [])) as [->|Hne]; [discriminate|].
    destruct (exists_last Hne) as (pre' & y & ->).
    rewrite length_app in Hlen. simpl in Hlen.
    assert (Hk : length pre' = k) by lia.
    assert (Hx : ((pre' ++ [y]) ++ x :: post) !! Z.to_nat (0 + Z.of_nat (S k)) = Some x).
    { rewrite <- app_assoc. simpl.
      replace (Z.to_nat (0 + Z.of_nat (S k))) with (length pre' + 1)%nat by lia.
      rewrite lookup_app_r by lia.
      replace (length pre' + 1 - length pre')%nat with 1%nat by lia. reflexivity. }
    assert (Hy : ((pre' ++ [y]) ++ x :: post) !! Z.to_nat (0 + Z.of_nat (S k) - 1) = Some y).
    { rewrite <- app_assoc. simpl.
      replace (Z.to_nat (0 + Z.of_nat (S k) - 1)) with (length pre' + 0)%nat by lia.
      rewrite lookup_app_r by lia.
      replace (length pre' + 0 - length pre')%nat with 0%nat by lia. reflexivity. }
    cbn [insertionSort_inner].
    rewrite (slice_Less _ (0 + Z.of_nat (S k)) (0 + Z.of_nat (S k) - 1) x y
               ltac:(lia) ltac:(lia) Hx Hy). cbn [obind].
    destruct (less x y) eqn:Exy.
    + rewrite (slice_Swap _ (0 + Z.of_nat (S k)) (0 + Z.of_nat (S k) - 1) x y
                 ltac:(lia) ltac:(lia) Hx Hy). cbn [obind].
      assert (Hswap : <[Z.to_nat (0 + Z.of_nat (S k) - 1) := x]>
                        (<[Z.to_nat (0 + Z.of_nat (S k)) := y]> ((pre' ++ [y]) ++ x :: post))
                      = pre' ++ x :: y :: post).
      { rewrite <- app_assoc. simpl.
        replace (Z.to_nat (0 + Z.of_nat (S k))) with (length pre' + 1)%nat by lia.
        replace (Z.to_nat (0 + Z.of_nat (S k) - 1)) with (length pre' + 0)%nat by lia.
        rewrite !insert_app_r. reflexivity. }
      rewrite Hswap.
      destruct (IH pre' (y :: post) Hk) as (pre1 & pre2 & Hsplit & Hrun & Hgt & Hle).
      rewrite Hrun. exists pre1, (pre2 ++ [y]). rewrite Hsplit, <- !app_assoc. simpl.
      split; [reflexivity|]. split; [reflexivity|]. split; [|exact Hle].
      apply Forall_app. split; [exact Hgt|]. constructor; [exact Exy | constructor].
    + exists (pre' ++ [y]), []. rewrite app_nil_r. simpl.
      split; [reflexivity|]. split; [reflexivity|]. split; [constructor|].
      intros y'. rewrite last_snoc. intros [= <-]. exact Exy.
Qed.

Lemma insert_keeps_sorted (pre1 pre2 : list A) (x : A) :
  Forall dom (pre1 ++ x :: pre2) →
  StronglySorted (may_precede less) (pre1 ++ pre2) →
  Forall (fun y => less x y = true) pre2 →
  (∀ y, last pre1 = Some y → less x y = false) →
  StronglySorted (may_precede less) (pre1 ++ x :: pre2).
Proof.
  intros Hdom Hsorted Hgt Hle.
  rewrite Forall_forall in Hdom.
  assert (Hdx : dom x) by (apply Hdom, elem_of_app; right; left).
  assert (Hd1 : ∀ a, a ∈ pre1 → dom a) by (intros a Ha; apply Hdom, elem_of_app; auto).
  assert (Hd2 : ∀ b, b ∈ pre2 → dom b)
    by (intros b Hb; apply Hdom, elem_of_app; right; right; exact Hb).
  apply StronglySorted_app in Hsorted as (Hcross & H1 & H2).
  assert (Hpre1 : ∀ a, a ∈ pre1 → may_precede less a x).
  { intros a Ha. destruct (decide (pre1 = [])) as [->|Hne].
    { apply not_elem_of_nil in Ha. destruct Ha. }
    destruct (exists_last Hne) as (pre' & y & ->).
    specialize (Hle y (last_snoc _ _)). unfold may_precede.
    assert (Hdy : dom y) by (apply Hd1, elem_of_app; right; left).
    pose proof (Hd1 a Ha) as Hda.
    apply elem_of_app in Ha as [Ha|Ha].
    - apply StronglySorted_app in H1 as (Hc & _ & _).
      specialize (Hc a y Ha ltac:(left)). unfold may_precede in Hc.
      apply (less_negtrans dom less Hswo x y a); assumption.
    - apply list_elem_of_singleton in Ha as ->. exact Hle. }
  apply StronglySorted_app_2.
  - intros a b Ha [->|Hb]%elem_of_cons; [apply Hpre1; exact Ha | auto].
  - exact H1.
  - constructor; [exact H2|]. rewrite Forall_forall in Hgt |- *.
    intros b Hb. unfold may_precede. apply (less_asym dom less Hswo); auto.
Qed.

Lemma insertionSort_outer_spec (rest pre : list A) :
  Forall dom (pre ++ rest) →
  StronglySorted (may_precede less) pre →
  ∃ m', insertionSort_outer (data := slice_Interface less) (length rest) (pre ++ rest) 0
          (Z.of_nat (length pre)) = Done m'
        ∧ m' ≡ₚ pre ++ rest ∧ StronglySorted (may_precede less) m'.
Proof.
  revert pre. induction rest as [|x rest IH]; intros pre Hdom Hpre.
  - simpl. rewrite app_nil_r. eauto.
  - cbn [length insertionSort_outer].
    replace (Z.to_nat (Z.of_nat (length pre) - 0)) with (length pre) by lia.
    destruct (insertionSort_inner_spec (length pre) pre x rest eq_refl)
      as (pre1 & pre2 & Hsplit & Hrun & Hgt & Hle).
    rewrite Hrun. cbn [obind].
    assert (Hmoved : (pre1 ++ x :: pre2) ++ rest ≡ₚ pre ++ x :: rest).
    { rewrite Hsplit, <- !app_assoc. simpl.
      apply Permutation_app_head. apply Permutation_middle. }
    assert (Hdom' : Forall dom ((pre1 ++ x :: pre2) ++ rest)) by (rewrite Hmoved; exact Hdom).
    assert (Hsorted : StronglySorted (may_precede less) (pre1 ++ x :: pre2)).
    { apply insert_keeps_sorted;
        [apply Forall_app in Hdom' as [H _]; exact H
        | rewrite <- Hsplit; exact Hpre | exact Hgt | exact Hle]. }
    destruct (IH (pre1 ++ x :: pre2) Hdom' Hsorted) as (m' & Hm' & Hperm & Hs).
    replace (Z.of_nat (length (pre1 ++ x :: pre2))) with (Z.of_nat (length pre) + 1) in Hm'
      by (rewrite Hsplit, !length_app; simpl; lia).
    rewrite <- app_assoc in Hm'. simpl in Hm'. rewrite Hm'.
    exists m'. split; [reflexivity|]. split; [|exact Hs].
    rewrite Hperm, Hsplit, <- !app_assoc. simpl.
    apply Permutation_app_head. apply Permutation_middle.
Qed.

Lemma insertionSort_spec (m : list A) :
  Forall dom m →
  ∃ m', insertionSort (data := slice_Interface less) m 0 (len m) = Done m'
        ∧ m' ≡ₚ m ∧ StronglySorted (may_precede less) m'.
Proof.
  intros Hdom. unfold insertionSort. destruct m as [|x rest].
  - exists []. split; [reflexivity|]. split; [reflexivity | constructor].
  - replace (Z.to_nat (len (x :: rest) - (0 + 1))) with (length rest)
      by (unfold len; simpl; lia).
    apply (insertionSort_outer_spec rest [x]); [exact Hdom | repeat constructor].
Qed.

Lemma gap6_pass_spec (n : nat) (m : list A) (i : Z) :
  6 ≤ i → i + Z.of_nat n ≤ len m →
  ∃ m', gap6_pass (data := slice_Interface less) n m i = Done m' ∧ m' ≡ₚ m.
Proof.
  revert m i. induction n as [|n IH]; intros m i Hi Hlen; [simpl; eauto|].
  unfold len in Hlen.
  destruct (lookup_lt_is_Some_2 m (Z.to_nat i) ltac:(lia)) as [a Ha].
  destruct (lookup_lt_is_Some_2 m (Z.to_nat (i - 6)) ltac:(lia)) as [b Hb].
  cbn [gap6_pass].
  rewrite (slice_Less m i (i - 6) a b ltac:(lia) ltac:(lia) Ha Hb). cbn [obind].
  destruct (less a b).
  - rewrite (slice_Swap m i (i - 6) a b ltac:(lia) ltac:(lia) Ha Hb). cbn [obind].
    pose proof (Permutation_insert_swap m _ _ a b Ha Hb) as Hperm.
    destruct (IH (<[Z.to_nat (i - 6) := a]> (<[Z.to_nat i := b]> m)) (i + 1)) as (m' & Hm' & Hp).
    + lia.
    + unfold len. rewrite !length_insert. lia.
    + exists m'. split; [exact Hm'|]. rewrite Hp. exact Hperm.
  - cbn [obind]. apply IH; [lia | unfold len; lia].
Qed.

Lemma Sort_small_spec (m : list A) :
  Forall dom m →
  ∃ m', Sort_small (data := slice_Interface less) m = Done m'
        ∧ m' ≡ₚ m ∧ sorted_by less m'.
Proof.
  intros Hdom. unfold Sort_small. cbn [Len slice_Interface].
  destruct (decide (len m - 0 > 1)) as [Hbig|Hsmall].
  - destruct (decide (len m < 6)) as [Hshort|Hlong].
    + replace (Z.to_nat (len m - (0 + 6))) with 0%nat by lia. cbn [gap6_pass obind].
      destruct (insertionSort_spec m Hdom) as (m' & Hm' & Hp & Hs).
      exists m'. split; [exact Hm'|]. split; [exact Hp|].
      apply StronglySorted_sorted_by. exact Hs.
    + destruct (gap6_pass_spec (Z.to_nat (len m - (0 + 6))) m (0 + 6)) as (m1 & Hm1 & Hp1);
        [lia | lia |].
      rewrite Hm1. cbn [obind].
      destruct (insertionSort_spec m1 ltac:(rewrite Hp1; exact Hdom)) as (m' & Hm' & Hp & Hs).
      replace (len m) with (len m1) by (unfold len; rewrite (Permutation_length Hp1); reflexivity).
      exists m'. split; [exact Hm'|]. split; [rewrite Hp; exact Hp1|].
      apply StronglySorted_sorted_by. exact Hs.
  - exists m. split; [reflexivity|]. split; [reflexivity|].
    intros i j a b Hij Ha Hb. apply lookup_lt_Some in Hb. unfold len in Hsmall. lia.
Qed.

End SliceSort.

(** The gap-6 pass followed by insertion sort meets the contract of
    [sort.Sort]. *)
Lemma Sort_small_contract : Sort_contract (fun T data => Sort_small (T := T) (data := data)).
Proof.
  intros A less m Hswo. apply (Sort_small_spec less (fun x => x ∈ m) Hswo).
  apply Forall_forall. auto.
Qed.

End go_sort.

Module zoekt_sorting.
Import zoekt zoekt_examples.

Lemma float64_gt_false (a b : float64) (x y : Z) :
  a = Num x → b = Num y → float64_gt b a = false → y ≤ x.
Proof. intros -> -> H. apply bool_decide_eq_false in H. lia. Qed.

(** [>] orders the elements whose score is not NaN. *)
Lemma score_order_strict_weak {A : Type} (score : A → float64) :
  StrictWeakOrder (fun a => score a ≠ NaN)
    (fun a b => float64_gt (score a) (score b)).
Proof.
  split.
  - intros x y _ _. destruct (score x), (score y); simpl; try discriminate.
    intros H%bool_decide_eq_true. apply bool_decide_eq_false. lia.
  - intros x y z Hx Hy Hz.
    destruct (score x), (score y), (score z); simpl; try congruence.
    intros H1%bool_decide_eq_false H2%bool_decide_eq_false.
    apply bool_decide_eq_false. lia.
Qed.

Lemma sorted_by_non_increasing {A : Type} (score : A → float64) (ms ms' : list A) :
  Forall (fun a => score a ≠ NaN) ms → ms' ≡ₚ ms →
  sorted_by (fun a b => float64_gt (score a) (score b)) ms' →
  non_increasing score ms'.
Proof.
  intros Hnum Hperm Hsorted i j a b Hij Ha Hb.
  rewrite <- Hperm in Hnum. rewrite Forall_forall in Hnum.
  assert (Hna : score a ≠ NaN) by (apply Hnum, list_elem_of_lookup; eauto).
  assert (Hnb : score b ≠ NaN) by (apply Hnum, list_elem_of_lookup; eauto).
  specialize (Hsorted i j a b Hij Ha Hb). cbv beta in Hsorted.
  destruct (score a) as [x|] eqn:Ea; [|contradiction].
  destruct (score b) as [y|] eqn:Eb; [|contradiction].
  exists x, y. split; [reflexivity|]. split; [reflexivity|].
  apply (float64_gt_false (Num x) (Num y) x y eq_refl eq_refl Hsorted).
Qed.

(** C2, as amended.  With a [sort.Sort] that meets the contract of the
    library, for every sequence of matches none of whose scores is NaN,
    [sortMatchesByScore] returns a permutation of its input whose scores do
    not increase, and so does [sortFilesByScore] for file matches; the order
    of elements with equal scores is left to [sort.Sort]. *)
Theorem sort_by_score_descending (Sort : ∀ S : Type, Interface S → S → outcome S) :
  Sort_contract Sort →
  (∀ ms : list Match,
     Forall (fun m => Score m ≠ NaN) ms →
     ∃ ms', sortMatchesByScore Sort ms = Done ms'
            ∧ ms' ≡ₚ ms
            ∧ non_increasing Score ms')
  ∧ (∀ fs : list FileMatch,
       Forall (fun f => FileScore f ≠ NaN) fs →
       ∃ fs', sortFilesByScore Sort fs = Done fs'
              ∧ fs' ≡ₚ fs
              ∧ non_increasing FileScore fs').
Proof.
  intros Hsort. split.
  - intros ms Hnum.
    destruct (Hsort Match (fun a b => float64_gt (Score a) (Score b)) ms)
      as (ms' & Hrun & Hperm & Hsorted).
    { pose proof (score_order_strict_weak Score) as [Hasym Htrans].
      rewrite Forall_forall in Hnum. split.
      - intros x y Hx Hy. apply Hasym; auto.
      - intros x y z Hx Hy Hz. apply Htrans; auto. }
    exists ms'. split; [exact Hrun|]. split; [exact Hperm|].
    eapply sorted_by_non_increasing; eauto.
  - intros fs Hnum.
    destruct (Hsort FileMatch (fun a b => float64_gt (FileScore a) (FileScore b)) fs)
      as (fs' & Hrun & Hperm & Hsorted).
    { pose proof (score_order_strict_weak FileScore) as [Hasym Htrans].
      rewrite Forall_forall in Hnum. split.
      - intros x y Hx Hy. apply Hasym; auto.
      - intros x y z Hx Hy Hz. apply Htrans; auto. }
    exists fs'. split; [exact Hrun|]. split; [exact Hperm|].
    eapply sorted_by_non_increasing; eauto.
Qed.

Lemma sort_by_score_descending_witness :
  Forall (fun m => Score m ≠ NaN) seven_matches
  ∧ ∃ ms', sortMatchesByScore (fun T data => Sort_small (T := T) (data := data)) seven_matches
           = Done ms'
           ∧ map Score ms' = [Num 500; Num 50; Num 50; Num 50; Num 50; Num 50; Num 50]
           ∧ ms' ≡ₚ seven_matches
           ∧ non_increasing Score ms'.
Proof.
  assert (Hnum : Forall (fun m => Score m ≠ NaN) seven_matches)
    by (repeat constructor; discriminate).
  split; [exact Hnum|].
  destruct (proj1 (sort_by_score_descending _ go_sort.Sort_small_contract) seven_matches Hnum)
    as (ms' & Hrun & Hperm & Hdesc).
  exists ms'. split; [exact Hrun|]. split; [|split; [exact Hperm | exact Hdesc]].
  vm_compute in Hrun. injection Hrun as <-. reflexivity.
Defined.

(** C2 as stated fails in two places.  (1) The contract of [sort.Sort]
    does not include stability.  The gap-6 pass followed by insertion sort,
    which is what [sort.Sort] of Go 1.7 to 1.18 runs on seven elements, meets
    the contract and sorts [seven_matches] into the lines 7, 2, 3, 4, 5, 6, 1:
    the matches of lines 1 and 2 have the same score, and the one of line 1,
    first in the input, ends behind the one of line 2.  (2) [Less] compares
    [float64] scores with [>], which is false on both sides of a NaN.  The
    same sort leaves the scores 1, NaN, 2 as they are, since neither
    neighbour of the NaN is greater than it or less: the score 2 ends behind
    the score 1. *)
Lemma sort_by_score_not_stable_nor_past_NaN :
  (∃ (Sort : ∀ S : Type, Interface S → S → outcome S),
     Sort_contract Sort
     ∧ ∃ ms', sortMatchesByScore Sort seven_matches = Done ms'
              ∧ map LineNum ms' = [7; 2; 3; 4; 5; 6; 1]
              ∧ seven_matches !! 0%nat = Some (scored 1 50)
              ∧ seven_matches !! 1%nat = Some (scored 2 50)
              ∧ ms' !! 1%nat = Some (scored 2 50)
              ∧ ms' !! 6%nat = Some (scored 1 50)
              ∧ ¬ keeps_tie_order Score seven_matches ms')
  ∧ (∃ (Sort : ∀ S : Type, Interface S → S → outcome S),
       Sort_contract Sort
       ∧ sortMatchesByScore Sort around_NaN = Done around_NaN
       ∧ map Score around_NaN = [Num 1; NaN; Num 2]
       ∧ ¬ non_increasing Score around_NaN).
Proof.
  split.
  - exists (fun T data => Sort_small (T := T) (data := data)).
    split; [exact go_sort.Sort_small_contract|].
    eexists. split; [vm_compute; reflexivity|].
    split; [reflexivity|]. split; [reflexivity|]. split; [reflexivity|].
    split; [reflexivity|]. split; [reflexivity|].
    intros Hties. specialize (Hties (Num 50)). vm_compute in Hties. discriminate.
  - exists (fun T data => Sort_small (T := T) (data := data)).
    split; [exact go_sort.Sort_small_contract|].
    split; [vm_compute; reflexivity|]. split; [reflexivity|].
    intros Hdesc.
    destruct (Hdesc 0%nat 2%nat (scored 1 1) (scored 3 2) ltac:(lia) eq_refl eq_refl)
      as (x & y & Hx & Hy & Hle).
    simpl in Hx, Hy. injection Hx as <-. injection Hy as <-. lia.
Qed.

End zoekt_sorting.
